(** * Audio RNG password generator: entropy pipeline, renderers and consumers

    A shallow embedding of [script.js] (the main application logic), of
    its waterfall revision (the variant of [script.js] that scrolls the bit
    matrix and resets the pool after each use) and of the standalone
    password page, with the properties of the natural-language
    specification stated and settled against the embedded code, and with
    what the code guarantees besides: what the buffers hold, what the
    displays show, and what the consumers make of the pool.

    Conventions.
    - JavaScript numbers that the program only uses as integers are [Z];
      bits are the integers 0 and 1, bytes the integers 0..255.  Sums and
      printed digits of [Z] are those of JavaScript numbers within
      -2^53 .. 2^53; what is stated about sums or digits of numbers typed
      into a field is stated within these bounds.  Durations measured with
      [performance.now()] are exact rationals.
    - JavaScript arrays are lists; [push] appends at the end, [shift] removes
      the head.
    - [undefined] and [NaN] are [None] of an option type where the program
      can produce them.
    - Calls of the asynchronous [processSamples] are taken to run to
      completion one after the other: the single suspension point
      ([await sha256String]) resolves before the next animation frame.

    Layout: part I embeds the program, part II gives the vocabulary of the
    specification and the invariants of the proofs, part III holds the
    lemmas and the theorems. *)

From Stdlib Require Import ZArith QArith String Ascii Lia.
From stdpp Require Import base tactics option list numbers.

#[local] Open Scope Z_scope.

(** * Part I: the program *)

(** ** JavaScript primitives the program relies on *)

Module Js.

(** ToInt32: the operands and results of [<<], [>>], [|] and [&]. *)
Definition ToInt32 (z : Z) : Z := (z + 2 ^ 31) mod 2 ^ 32 - 2 ^ 31.

Definition shl (a k : Z) : Z := ToInt32 (Z.shiftl (ToInt32 a) (k mod 32)).
Definition shr (a k : Z) : Z := Z.shiftr (ToInt32 a) (k mod 32).
Definition bor (a b : Z) : Z := Z.lor (ToInt32 a) (ToInt32 b).
Definition band (a b : Z) : Z := Z.land (ToInt32 a) (ToInt32 b).

(** [a % b] on integers: the remainder has the sign of the dividend. *)
Definition rem (a b : Z) : Z := Z.rem a b.

(** [array[j]]: [undefined] outside the array, also for a negative [j]. *)
Definition get {A} (array : list A) (j : Z) : option A :=
  if j <? 0 then None else array !! Z.to_nat j.

(** [str[k]] on a string. *)
Definition charAt (str : string) (k : Z) : option ascii :=
  if k <? 0 then None else String.get (Z.to_nat k) str.

(** [String.fromCharCode(...codes)]: a string is its list of UTF-16 code
    units, each argument taken modulo 2^16. *)
Definition fromCharCode (codes : list Z) : list Z :=
  map (fun c => c mod 2 ^ 16) codes.

(** [new TextEncoder().encode(str)]: UTF-8.  The program only encodes
    strings built from byte values, so surrogate code units never occur
    and their pairing is not modelled. *)
Definition utf8 (cu : Z) : list Z :=
  if cu <? 128 then [cu]
  else if cu <? 2048 then
    [Z.lor 192 (Z.shiftr cu 6); Z.lor 128 (Z.land cu 63)]
  else
    [Z.lor 224 (Z.shiftr cu 12);
     Z.lor 128 (Z.land (Z.shiftr cu 6) 63);
     Z.lor 128 (Z.land cu 63)].

Definition encode (str : list Z) : list Z := flat_map utf8 str.

(** [n.toString(radix)] on an integer, for a radix from 2 to 36: the
    digits, most significant first, after a minus sign when [n] is
    negative.  These are the digits JavaScript prints for the integers
    from -2^53 to 2^53; beyond, a JavaScript number is printed with its
    shortest digits that read back, and from 10^21 on with an exponent,
    which this definition does not follow. *)
Definition digitChar (d : Z) : ascii :=
  default "0"%char (String.get (Z.to_nat d) "0123456789abcdefghijklmnopqrstuvwxyz").

Fixpoint digits (fuel : nat) (radix n : Z) (acc : string) : string :=
  let acc := String (digitChar (n mod radix)) acc in
  match fuel with
  | O => acc
  | S fuel => if n / radix =? 0 then acc else digits fuel radix (n / radix) acc
  end.

Definition toString (radix n : Z) : string :=
  if n <? 0 then String "-" (digits (Z.to_nat (Z.log2 (- n))) radix (- n) EmptyString)
  else digits (Z.to_nat (Z.log2 n)) radix n EmptyString.

(** [str.padStart(targetLength, pad)] for a one-character [pad]. *)
Definition padStart (targetLength : nat) (pad : ascii) (str : string) : string :=
  String.append
    (string_of_list_ascii (replicate (targetLength - String.length str) pad)) str.

(** [str.toUpperCase()] on ASCII text. *)
Definition upper (c : ascii) : ascii :=
  let k := N_of_ascii c in
  if ((97 <=? k) && (k <=? 122))%N then ascii_of_N (k - 32) else c.

Fixpoint toUpperCase (str : string) : string :=
  match str with
  | EmptyString => EmptyString
  | String c rest => String (upper c) (toUpperCase rest)
  end.

End Js.

(** [crypto.subtle.digest("SHA-256", data)] is a primitive of the platform.
    It is an interface here; what the program relies on is that a digest is
    32 bytes long. *)
Class SubtleCrypto := {
  digest_SHA256 : list Z -> list Z;
  digest_SHA256_length : forall data, length (digest_SHA256 data) = 32%nat;
  digest_SHA256_bytes : forall data, Forall (fun b => 0 <= b < 256) (digest_SHA256 data)
}.

(** A stand-in platform for running the model on concrete inputs: the
    "digest" is 32 copies of the byte sum of the message.  Only its length
    matters to the program. *)
#[refine] Instance sumCrypto : SubtleCrypto := {|
  digest_SHA256 data := replicate 32 (fold_right Z.add 0 data mod 256)
|}.
Proof.
  - intros data. apply length_replicate.
  - intros data. apply Forall_replicate. apply Z.mod_pos_bound. lia.
Defined.

(** ** Utility functions *)

(** [bitsToUint8]: [value = (value << 1) | bits[i]] for each bit in order. *)
Definition bitsToUint8 (bits : list Z) : Z :=
  fold_left (fun value b => Js.bor (Js.shl value 1) b) bits 0.

(** [buf2hex]: two lower-case hexadecimal digits for each byte. *)
Definition buf2hex (buffer : list Z) : string :=
  String.concat "" (map (fun b => Js.padStart 2 "0" (Js.toString 16 b)) buffer).

(** [sha256String]: UTF-8 encode, then SHA-256. *)
Definition sha256String `{SubtleCrypto} (str : list Z) : list Z :=
  digest_SHA256 (Js.encode str).

(** ** AudioRNG: the data buffers and [processSamples] *)

Record AudioRNG := mkAudioRNG {
  rawBitBuffer : list Z;
  finalBitBuffer : list Z;
  collectedNumbers : list Z;
  uintArray : list Z
}.

Definition newAudioRNG : AudioRNG := mkAudioRNG [] [] [] [].

(** What one loop iteration pushed, in order.  The events are a ghost
    record of the pushes; they do not influence the state. *)
Inductive Event :=
| Debiased (bit : Z)              (* finalBitBuffer.push(bit) *)
| Assembled (byte : Z)            (* collectedNumbers.push(uint8) *)
| Hashed (batch digest : list Z). (* uintArray.push(...digest) *)

Definition debiasedBits (tr : list Event) : list Z :=
  flat_map (fun e => match e with Debiased b => [b] | _ => [] end) tr.

Definition assembledBytes (tr : list Event) : list Z :=
  flat_map (fun e => match e with Assembled v => [v] | _ => [] end) tr.

Definition hashedBatches (tr : list Event) : list (list Z * list Z) :=
  flat_map (fun e => match e with Hashed b d => [(b, d)] | _ => [] end) tr.

(** The raw bit of a sample: [sample & 1]. *)
Definition rawBit (sample : Z) : Z := Js.band sample 1.

Section Pipeline.
Context `{SubtleCrypto}.

(** "When we have enough numbers, hash them". *)
Definition hashNumbers (r : AudioRNG) : AudioRNG * list Event :=
  if (1000 <=? length (collectedNumbers r))%nat then
    let batch := take 1000 (collectedNumbers r) in
    let digest := sha256String (Js.fromCharCode batch) in
    (mkAudioRNG (rawBitBuffer r) (finalBitBuffer r) [] (uintArray r ++ digest),
     [Hashed batch digest])
  else (r, []).

(** "When we have 8 bits, create a byte". *)
Definition assembleByte (r : AudioRNG) : AudioRNG * list Event :=
  if (length (finalBitBuffer r) =? 8)%nat then
    let uint8 := bitsToUint8 (finalBitBuffer r) in
    let r1 := mkAudioRNG (rawBitBuffer r) [] (collectedNumbers r ++ [uint8])
                         (uintArray r) in
    let '(r2, ev) := hashNumbers r1 in
    (r2, Assembled uint8 :: ev)
  else (r, []).

(** "Von Neumann correction: only use 01 and 10 pairs". *)
Definition vonNeumann (b1 b2 : Z) (r : AudioRNG) : AudioRNG * list Event :=
  let push bit :=
    (mkAudioRNG (rawBitBuffer r) (finalBitBuffer r ++ [bit])
                (collectedNumbers r) (uintArray r), [Debiased bit]) in
  if (b1 =? 0) && (b2 =? 1) then push 0
  else if (b1 =? 1) && (b2 =? 0) then push 1
  else (r, []).

(** One iteration of the loop of [processSamples], up to the pushes onto
    [uintArray]; what follows in the source (display and visualisation)
    does not write to the four buffers in [script.js]. *)
Definition processSample (sample : Z) (r : AudioRNG) : AudioRNG * list Event :=
  let bit := rawBit sample in
  match rawBitBuffer r ++ [bit] with
  | b1 :: b2 :: rest =>
      let r0 := mkAudioRNG rest (finalBitBuffer r) (collectedNumbers r)
                           (uintArray r) in
      let '(r1, e1) := vonNeumann b1 b2 r0 in
      let '(r2, e2) := assembleByte r1 in
      (r2, e1 ++ e2)
  | raw =>
      (mkAudioRNG raw (finalBitBuffer r) (collectedNumbers r) (uintArray r), [])
  end.

Fixpoint processSamples (data : list Z) (r : AudioRNG) : AudioRNG * list Event :=
  match data with
  | [] => (r, [])
  | sample :: rest =>
      let '(r1, e1) := processSample sample r in
      let '(r2, e2) := processSamples rest r1 in
      (r2, e1 ++ e2)
  end.

End Pipeline.

(** ** The bit matrix of [script.js]: a grid filled in chunks

    [VisualizationManager] of [script.js], restricted to the bit matrix.
    The pixel buffer ([imageData]) and the canvas calls only paint what
    [bitMatrixData] holds and are left out.  [Date.now()] and the duration
    measured with [performance.now()] are inputs of each invocation. *)

Module Grid.

Record PerformanceMetrics := mkMetrics {
  updateCount : Z;
  averageUpdateTime : Q
}.

Record VisualizationManager := mkVM {
  hasCanvas : bool;          (* bitMatrixCanvas && bitMatrixCtx *)
  matrixWidth : Z;
  matrixHeight : Z;
  bitMatrixData : list Z;
  lastBitCount : Z;
  updateThrottle : Z;
  updateInterval : Z;
  refreshCycle : Z;
  isMatrixComplete : bool;
  performanceMetrics : PerformanceMetrics;
  adaptiveInterval : bool
}.

(** The constructor, for a matrix of [w] by [h] cells ([script.js] has
    200 by 100). *)
Definition newVisualizationManager (w h : Z) : VisualizationManager :=
  mkVM true w h (replicate (Z.to_nat (w * h)) 0) 0 0 50 0 false
       (mkMetrics 0 0%Q) true.

Definition uint8ArrayToBits (uintArray : list Z) : list Z :=
  flat_map (fun byte =>
    [Js.band (Js.shr byte 7) 1; Js.band (Js.shr byte 6) 1;
     Js.band (Js.shr byte 5) 1; Js.band (Js.shr byte 4) 1;
     Js.band (Js.shr byte 3) 1; Js.band (Js.shr byte 2) 1;
     Js.band (Js.shr byte 1) 1; Js.band byte 1]) uintArray.

Definition gtQ (a b : Q) : bool := negb (Qle_bool a b).
Definition ltQ (a b : Q) : bool := negb (Qle_bool b a).

(** [calculateOptimalChunkSize]; [baseChunkSize * 0.5] and
    [baseChunkSize * 1.5] are the integers 1000 and 3000. *)
Definition calculateOptimalChunkSize (vm : VisualizationManager) : Z :=
  let baseChunkSize := 2000 in
  if negb (adaptiveInterval vm) then baseChunkSize
  else if gtQ (averageUpdateTime (performanceMetrics vm)) 16 then
    Z.max 500 (baseChunkSize / 2)
  else if ltQ (averageUpdateTime (performanceMetrics vm)) 8 then
    Z.min 5000 (baseChunkSize * 3 / 2)
  else baseChunkSize.

(** One iteration of the loop of [updatePixelsBatch].  Every write lands
    inside [bitMatrixData] ([bitIndex < endBitIndex <= matrixWidth *
    matrixHeight]), where the list update and the array write agree. *)
Definition updatePixel (vm : VisualizationManager) (bits : list Z)
    (data : list Z) (bitIndex : Z) : list Z :=
  let row := bitIndex / matrixWidth vm in
  let col := Js.rem bitIndex (matrixWidth vm) in
  let bitValue :=
    if bitIndex <? Z.of_nat (length bits)
    then default 0 (Js.get bits bitIndex) else 0 in
  let dataIndex := row * matrixWidth vm + col in
  if decide (Js.get data dataIndex = Some bitValue) then data
  else <[Z.to_nat dataIndex := bitValue]> data.

Definition updatePixelsBatch (vm : VisualizationManager) (bits : list Z)
    (startBitIndex endBitIndex : Z) : VisualizationManager :=
  let data :=
    fold_left (updatePixel vm bits)
              (seqZ startBitIndex (endBitIndex - startBitIndex))
              (bitMatrixData vm) in
  mkVM (hasCanvas vm) (matrixWidth vm) (matrixHeight vm) data
       (lastBitCount vm) (updateThrottle vm) (updateInterval vm)
       (refreshCycle vm) (isMatrixComplete vm) (performanceMetrics vm)
       (adaptiveInterval vm).

Definition performFullRefresh (vm : VisualizationManager) : VisualizationManager :=
  mkVM (hasCanvas vm) (matrixWidth vm) (matrixHeight vm)
       (replicate (length (bitMatrixData vm)) 0)
       0 (updateThrottle vm) (updateInterval vm)
       (refreshCycle vm + 1) false (performanceMetrics vm)
       (adaptiveInterval vm).

(** [updatePerformanceMetrics]; [updateTime] is the measured duration. *)
Definition updatePerformanceMetrics (updateTime : Q) (vm : VisualizationManager)
    : VisualizationManager :=
  let count := updateCount (performanceMetrics vm) + 1 in
  let average :=
    ((averageUpdateTime (performanceMetrics vm) * inject_Z (count - 1)
      + updateTime) / inject_Z count)%Q in
  let interval :=
    if adaptiveInterval vm then
      if gtQ average 20 then Z.min 200 (updateInterval vm + 10)
      else if ltQ average 5 then Z.max 30 (updateInterval vm - 5)
      else updateInterval vm
    else updateInterval vm in
  mkVM (hasCanvas vm) (matrixWidth vm) (matrixHeight vm) (bitMatrixData vm)
       (lastBitCount vm) (updateThrottle vm) interval
       (refreshCycle vm) (isMatrixComplete vm) (mkMetrics count average)
       (adaptiveInterval vm).

Definition setThrottle (now : Z) (vm : VisualizationManager) : VisualizationManager :=
  mkVM (hasCanvas vm) (matrixWidth vm) (matrixHeight vm) (bitMatrixData vm)
       (lastBitCount vm) now (updateInterval vm)
       (refreshCycle vm) (isMatrixComplete vm) (performanceMetrics vm)
       (adaptiveInterval vm).

Definition setCursor (count : Z) (complete : bool) (vm : VisualizationManager)
    : VisualizationManager :=
  mkVM (hasCanvas vm) (matrixWidth vm) (matrixHeight vm) (bitMatrixData vm)
       count (updateThrottle vm) (updateInterval vm)
       (refreshCycle vm) complete (performanceMetrics vm)
       (adaptiveInterval vm).

(** [drawBitMatrix(uintArray)], invoked at time [now] and taking
    [updateTime] to run. *)
Definition drawBitMatrix (now : Z) (updateTime : Q) (uintArray : list Z)
    (vm : VisualizationManager) : VisualizationManager :=
  if negb (hasCanvas vm) then vm
  else if adaptiveInterval vm && (now - updateThrottle vm <? updateInterval vm)
  then vm
  else
    let vm := setThrottle now vm in
    let bits := uint8ArrayToBits uintArray in
    let currentBitCount := Z.of_nat (length bits) in
    let maxMatrixBits := matrixWidth vm * matrixHeight vm in
    if (maxMatrixBits <=? lastBitCount vm) && (maxMatrixBits <? currentBitCount)
    then performFullRefresh vm
    else if (currentBitCount <=? lastBitCount vm) || isMatrixComplete vm
    then vm
    else
      let chunkSize := calculateOptimalChunkSize vm in
      let newBitsCount := Z.min (currentBitCount - lastBitCount vm) chunkSize in
      let startBitIndex := lastBitCount vm in
      let endBitIndex := Z.min (startBitIndex + newBitsCount) maxMatrixBits in
      let vm := updatePixelsBatch vm bits startBitIndex endBitIndex in
      let last := Z.min endBitIndex currentBitCount in
      let vm := setCursor last
                  (if maxMatrixBits <=? last then true else isMatrixComplete vm)
                  vm in
      updatePerformanceMetrics updateTime vm.

Definition resetBitMatrix (vm : VisualizationManager) : VisualizationManager :=
  mkVM (hasCanvas vm) (matrixWidth vm) (matrixHeight vm)
       (replicate (Z.to_nat (matrixWidth vm * matrixHeight vm)) 0)
       0 (updateThrottle vm) 50 0 false (mkMetrics 0 0%Q)
       (adaptiveInterval vm).

(** Successive invocations on one unchanged pool; each comes with its
    time stamp and its duration. *)
Definition drawRepeatedly (invocations : list (Z * Q)) (uintArray : list Z)
    (vm : VisualizationManager) : VisualizationManager :=
  fold_left (fun vm inv => drawBitMatrix inv.1 inv.2 uintArray vm) invocations vm.

(** The rows of the matrix, top to bottom. *)
Definition gridRows (vm : VisualizationManager) : list (list Z) :=
  map (fun y => take (Z.to_nat (matrixWidth vm))
                  (drop (Z.to_nat (y * matrixWidth vm)) (bitMatrixData vm)))
      (seqZ 0 (matrixHeight vm)).

(** [histogram[v]++] of [drawHistogram].  The histogram starts as 256
    zeros; a count that is [NaN] is [None].  Outside the array the
    increment of [undefined] stores [NaN]: at a new last index when [v] is
    not negative (the holes in between read as [undefined]), and as a
    property that is not an element when [v] is negative. *)
Definition bump (histogram : list (option Z)) (v : Z) : list (option Z) :=
  if v <? 0 then histogram
  else
    match histogram !! Z.to_nat v with
    | Some count => <[Z.to_nat v := (fun c => c + 1) <$> count]> histogram
    | None =>
        histogram ++ replicate (Z.to_nat v - length histogram) None ++ [None]
    end.

(** The counting loop of [drawHistogram]; the bars are drawn from these
    counts in floating point and are left out. *)
Definition histogramOf (uintArray : list Z) : list (option Z) :=
  fold_left bump uintArray (replicate 256 (Some 0)).

End Grid.

(** ** The bit matrix of the waterfall revision: a scrolling grid

    [VisualizationManager] of the revision of [script.js] that renders the
    pool as a waterfall.  The offscreen canvas is a list of rows, top to
    bottom, of opaque pixels; the visible canvas is a scaled copy of it and
    is left out. *)

Module Waterfall.

Definition Color : Type := Z * Z * Z.

Definition white : Color := (255, 255, 255).
Definition black : Color := (0, 0, 0).

Inductive RenderMode := ModeWaterfall | ModeGrid.

Record VisualizationManager := mkVM {
  hasCanvas : bool;          (* bitMatrixCanvas && bitMatrixCtx *)
  matrixWidth : Z;
  matrixHeight : Z;
  pixelSize : Z;
  renderMode : RenderMode;
  newestOnTop : bool;
  colorZero : Color;
  colorOne : Color;
  lastBitCount : Z;
  capacity : Z;
  rowAccumulator : list Z;
  offscreen : list (list Color)
}.

(** [fillRect(0, 0, matrixWidth, matrixHeight)] with white. *)
Definition clearedOffscreen (w h : Z) : list (list Color) :=
  replicate (Z.to_nat h) (replicate (Z.to_nat w) white).

(** The constructor: 200 by 100, waterfall mode, newest row on top. *)
Definition newVisualizationManager (canvas : bool) : VisualizationManager :=
  mkVM canvas 200 100 2 ModeWaterfall true white black 0 (200 * 100) []
       (clearedOffscreen 200 100).

Definition setOffscreen (g : list (list Color)) (vm : VisualizationManager)
    : VisualizationManager :=
  mkVM (hasCanvas vm) (matrixWidth vm) (matrixHeight vm) (pixelSize vm)
       (renderMode vm) (newestOnTop vm) (colorZero vm) (colorOne vm)
       (lastBitCount vm) (capacity vm) (rowAccumulator vm) g.

Definition setRowAccumulator (acc : list Z) (vm : VisualizationManager)
    : VisualizationManager :=
  mkVM (hasCanvas vm) (matrixWidth vm) (matrixHeight vm) (pixelSize vm)
       (renderMode vm) (newestOnTop vm) (colorZero vm) (colorOne vm)
       (lastBitCount vm) (capacity vm) acc (offscreen vm).

Definition setLastBitCount (count : Z) (vm : VisualizationManager)
    : VisualizationManager :=
  mkVM (hasCanvas vm) (matrixWidth vm) (matrixHeight vm) (pixelSize vm)
       (renderMode vm) (newestOnTop vm) (colorZero vm) (colorOne vm)
       count (capacity vm) (rowAccumulator vm) (offscreen vm).

(** [setWaterfallDirection(dir)]: [down] is [dir === "down"]. *)
Definition setWaterfallDirection (down : bool) (vm : VisualizationManager)
    : VisualizationManager :=
  mkVM (hasCanvas vm) (matrixWidth vm) (matrixHeight vm) (pixelSize vm)
       (renderMode vm) down (colorZero vm) (colorOne vm)
       (lastBitCount vm) (capacity vm) (rowAccumulator vm) (offscreen vm).

(** [offctx.drawImage(offscreen, 0, sy, W, h, 0, dy, W, h)]: [h] whole rows
    are copied from the canvas as it was before the call; nothing is drawn
    when [h] is 0, from a row that does not exist, or to one. *)
Definition drawImageRows (sy dy h : Z) (g : list (list Color)) : list (list Color) :=
  fold_left
    (fun acc k =>
       match Js.get g (sy + k) with
       | Some row => if dy + k <? 0 then acc else <[Z.to_nat (dy + k) := row]> acc
       | None => acc
       end)
    (seqZ 0 h) g.

(** [offctx.putImageData(rowImage, 0, y)]: [rowImage] is as wide as the
    canvas, so row [y] is replaced. *)
Definition putRow (y : Z) (row : list Color) (g : list (list Color)) : list (list Color) :=
  if y <? 0 then g else <[Z.to_nat y := row]> g.

(** The pixels of a row: [bitsRow[x] ? colorOne : colorZero]. *)
Definition rowPixels (vm : VisualizationManager) (bitsRow : list Z) : list Color :=
  map (fun b => if b =? 0 then colorZero vm else colorOne vm) bitsRow.

(** [commitRow]: scroll by one row and put the new row at the insertion
    edge. *)
Definition commitRow (bitsRow : list Z) (vm : VisualizationManager)
    : VisualizationManager :=
  let row := rowPixels vm bitsRow in
  let h := matrixHeight vm in
  if newestOnTop vm then
    setOffscreen (putRow 0 row (drawImageRows 0 1 (h - 1) (offscreen vm))) vm
  else
    setOffscreen (putRow (h - 1) row (drawImageRows 1 0 (h - 1) (offscreen vm))) vm.

(** [pullBit]: bit [bitIndex] of the pool, most significant bit first. *)
Definition pullBit (uintArray : list Z) (bitIndex : Z) : Z :=
  let byteIndex := Js.shr bitIndex 3 in
  let bitIndexInByte := 7 - Js.band bitIndex 7 in
  Js.band (Js.shr (default 0 (Js.get uintArray byteIndex)) bitIndexInByte) 1.

(** One iteration of the loop of [_drawBitWaterfall]. *)
Definition consumeBit (uintArray : list Z) (vm : VisualizationManager) (i : Z)
    : VisualizationManager :=
  let acc := rowAccumulator vm ++ [pullBit uintArray i] in
  let rowW := matrixWidth vm in
  if rowW <=? Z.of_nat (length acc) then
    let row := take (Z.to_nat rowW) acc in
    commitRow row (setRowAccumulator (drop (Z.to_nat rowW) acc) vm)
  else setRowAccumulator acc vm.

Definition _drawBitWaterfall (uintArray : list Z) (vm : VisualizationManager)
    : VisualizationManager :=
  if negb (hasCanvas vm) then vm
  else
    let totalBits := Z.of_nat (length uintArray) * 8 in
    if totalBits <=? lastBitCount vm then vm
    else
      let vm' := fold_left (consumeBit uintArray)
                   (seqZ (lastBitCount vm) (totalBits - lastBitCount vm)) vm in
      setLastBitCount totalBits vm'.

(** [paintOne] of [_drawBitGrid]: the pixel at position [pos], rows first. *)
Definition paintOne (vm : VisualizationManager) (g : list (list Color))
    (pos bit : Z) : list (list Color) :=
  let w := matrixWidth vm in
  let y := pos / w in
  let x := pos - y * w in
  let clr := if bit =? 0 then colorZero vm else colorOne vm in
  match Js.get g y with
  | Some row => if x <? 0 then g else <[Z.to_nat y := <[Z.to_nat x := clr]> row]> g
  | None => g
  end.

(** [_drawBitGrid]: every new bit is painted at its position modulo the
    capacity; the passes of at most 20000 bits only group the writes. *)
Definition _drawBitGrid (uintArray : list Z) (vm : VisualizationManager)
    : VisualizationManager :=
  if negb (hasCanvas vm) then vm
  else
    let totalBits := Z.of_nat (length uintArray) * 8 in
    if totalBits <=? lastBitCount vm then vm
    else
      let g := fold_left
                 (fun g next => paintOne vm g (Js.rem next (capacity vm))
                                  (pullBit uintArray next))
                 (seqZ (lastBitCount vm) (totalBits - lastBitCount vm))
                 (offscreen vm) in
      setLastBitCount totalBits (setOffscreen g vm).

Definition drawBitMatrix (uintArray : list Z) (vm : VisualizationManager)
    : VisualizationManager :=
  match renderMode vm with
  | ModeWaterfall => _drawBitWaterfall uintArray vm
  | ModeGrid => _drawBitGrid uintArray vm
  end.

Definition resetBitMatrix (vm : VisualizationManager) : VisualizationManager :=
  mkVM (hasCanvas vm) (matrixWidth vm) (matrixHeight vm) (pixelSize vm)
       (renderMode vm) (newestOnTop vm) (colorZero vm) (colorOne vm)
       0 (capacity vm) []
       (clearedOffscreen (matrixWidth vm) (matrixHeight vm)).

(** [setRenderMode(mode)]: [grid] is [mode === "grid"]. *)
Definition setRenderMode (grid : bool) (vm : VisualizationManager)
    : VisualizationManager :=
  resetBitMatrix
    (mkVM (hasCanvas vm) (matrixWidth vm) (matrixHeight vm) (pixelSize vm)
          (if grid then ModeGrid else ModeWaterfall) (newestOnTop vm)
          (colorZero vm) (colorOne vm)
          (lastBitCount vm) (capacity vm) (rowAccumulator vm) (offscreen vm)).

(** [setMatrixSize(cols, rows, pixelSize)]. *)
Definition setMatrixSize (cols rows size : Z) (vm : VisualizationManager)
    : VisualizationManager :=
  let w := Z.max 1 (Js.bor cols 0) in
  let h := Z.max 1 (Js.bor rows 0) in
  resetBitMatrix
    (mkVM (hasCanvas vm) w h (Z.max 1 (Js.bor size 0))
          (renderMode vm) (newestOnTop vm) (colorZero vm) (colorOne vm)
          (lastBitCount vm) (w * h) (rowAccumulator vm) (offscreen vm)).

(** The grid read back as bits, top to bottom: 1 for [colorOne]. *)
Definition gridBits (vm : VisualizationManager) : list (list Z) :=
  map (map (fun c : Color => if decide (c = colorOne vm) then 1 else 0))
      (offscreen vm).

End Waterfall.

(** ** The consumers of the pool in [script.js]

    The value of an input field is blank or a text; of a text only the
    result of [parseInt] matters ([None] is [NaN]). *)

Module Consumers.

Inductive Field := Blank | Text (parsed : option Z).

Definition parseInt (f : Field) : option Z :=
  match f with Blank => None | Text p => p end.

(** [x || d] on a number: [NaN] and 0 are falsy. *)
Definition orElse (x : option Z) (d : Z) : Z :=
  match x with
  | None | Some 0 => d
  | Some n => n
  end.

(** *** PasswordGenerator *)

Record PasswordForm := mkPasswordForm {
  pwLengthEl : Field;
  chkUpper : bool;
  chkLower : bool;
  chkNums : bool;
  chkSyms : bool
}.

Definition charsetOf (form : PasswordForm) : string :=
  String.append (if chkUpper form then "ABCDEFGHIJKLMNOPQRSTUVWXYZ" else "")
 (String.append (if chkLower form then "abcdefghijklmnopqrstuvwxyz" else "")
 (String.append (if chkNums form then "0123456789" else "")
                (if chkSyms form then "!@#$%^&*()-_=+[]{};:,.<>?" else "")))%string.

(** What [password += charset[r % charset.length]] appends for index [i]:
    a character of the charset, or the text of [undefined] when [r] or the
    character is [undefined]. *)
Definition passwordPiece (charset : string) (uintArray : list Z)
    (pwLength i : Z) : string :=
  let len := Z.of_nat (length uintArray) in
  match Js.get uintArray (Js.rem (i + len - pwLength) len) with
  | Some r =>
      match Js.charAt charset (Js.rem r (Z.of_nat (String.length charset))) with
      | Some c => String c EmptyString
      | None => "undefined"%string
      end
  | None => "undefined"%string
  end.

Definition buildPassword (charset : string) (uintArray : list Z)
    (pwLength : Z) : string :=
  fold_left (fun password i =>
               String.append password (passwordPiece charset uintArray pwLength i))
            (seqZ 0 pwLength) EmptyString.

Inductive PasswordOutcome :=
| PwNotEnough                      (* "Not enough random data yet. ..." *)
| PwNoCharset                      (* "Please select at least one ..." *)
| PwGenerated (password : string).

Definition passwordBoxValue (o : PasswordOutcome) : string :=
  match o with
  | PwNotEnough => "Not enough random data yet. Wait for hashing..."
  | PwNoCharset => "Please select at least one character set."
  | PwGenerated password => password
  end%string.

Definition pwLengthOf (form : PasswordForm) : Z :=
  Z.max 8 (Z.min 64 (orElse (parseInt (pwLengthEl form)) 16)).

Definition generatePassword (form : PasswordForm) (uintArray : list Z)
    : PasswordOutcome :=
  if (length uintArray <? 32)%nat then PwNotEnough
  else
    let charset := charsetOf form in
    if (String.length charset =? 0)%nat then PwNoCharset
    else PwGenerated (buildPassword charset uintArray (pwLengthOf form)).

(** *** RandomNumberGenerator (the formatting of the numbers is left out) *)

Record NumbersForm := mkNumbersForm {
  numCountEl : Field;
  numMinEl : Field;
  numMaxEl : Field
}.

Inductive NumbersOutcome :=
| NumNotEnough                     (* "Not enough random data yet. ..." *)
| NumRangeError                    (* "Error: Min value must be less ..." *)
| NumGenerated (numbers : list (option Z)).

Definition numCountOf (form : NumbersForm) : Z :=
  Z.max 1 (Z.min 10000 (orElse (parseInt (numCountEl form)) 100)).
Definition numMinOf (form : NumbersForm) : Z := orElse (parseInt (numMinEl form)) 0.
Definition numMaxOf (form : NumbersForm) : Z := orElse (parseInt (numMaxEl form)) 255.

(** [min + (randomValue % (max - min + 1))]; [None] is [NaN].  The sum
    and the range are those of the integers.  The result is that of the
    JavaScript numbers as long as [min < max] lie within -2^53 .. 2^53: a
    range of at most 256 is a number, a larger one leaves the byte as it
    is whether rounded or not, and the sum lies between [min] and [max],
    where every integer is a number.  Beyond these bounds JavaScript
    rounds the sum, which this definition does not follow. *)
Definition scaledValue (uintArray : list Z) (min max i : Z) : option Z :=
  match Js.get uintArray (Js.rem i (Z.of_nat (length uintArray))) with
  | Some randomValue => Some (min + Js.rem randomValue (max - min + 1))
  | None => None
  end.

Definition generateNumbers (form : NumbersForm) (uintArray : list Z)
    : NumbersOutcome :=
  if (length uintArray <? 32)%nat then NumNotEnough
  else
    let count := numCountOf form in
    let min := numMinOf form in
    let max := numMaxOf form in
    if max <=? min then NumRangeError
    else NumGenerated (map (scaledValue uintArray min max) (seqZ 0 count)).

(** The format of the numbers; [NaN] prints as [NaN]. *)
Inductive Format := Hex | Decimal | Binary.

Definition getSelectedFormat (numHex numDecimal numBinary : bool) : Format :=
  if numHex then Hex
  else if numDecimal then Decimal
  else if numBinary then Binary
  else Hex.

Definition toStringN (radix : Z) (n : option Z) : string :=
  match n with Some n => Js.toString radix n | None => "NaN"%string end.

(** One element of [formattedNumbers]. *)
Definition formatNumber (format : Format) (n : option Z) : string :=
  match format with
  | Hex =>
      String.append "0x" (Js.padStart 2 "0" (Js.toUpperCase (toStringN 16 n)))
  | Decimal => toStringN 10 n
  | Binary => String.append "0b" (Js.padStart 8 "0" (toStringN 2 n))
  end.

(** [numbersBoxEl.value] after the numbers have been generated. *)
Definition numbersBoxValue (format : Format) (numbers : list (option Z)) : string :=
  String.concat ", " (map (formatNumber format) numbers).

(** *** FileGenerator *)

Record FileGenerator := mkFileGenerator {
  generatedFile : option (list Z);
  isGenerating : bool;
  requiredDataSize : Z
}.

Definition newFileGenerator : FileGenerator := mkFileGenerator None false 0.

Inductive FileOutcome :=
| FileCollecting                   (* "Collecting Random Data..." *)
| FileGenerated.                   (* "File Generated Successfully!" *)

Definition fileSizeOf (fileSizeEl : Field) : Z :=
  Z.max 1 (Z.min 10485760 (orElse (parseInt fileSizeEl) 1024)).

(** [fileData[i] = uintArray[i]] into a zero-filled [Uint8Array]. *)
Definition fileDataOf (uintArray : list Z) (fileSize : Z) : list Z :=
  map (fun i => default 0 (Js.get uintArray i) mod 256) (seqZ 0 fileSize).

Definition createFileFromData (uintArray : list Z) (fileSize : Z)
    (fg : FileGenerator) : FileGenerator :=
  mkFileGenerator (Some (fileDataOf uintArray fileSize)) false (requiredDataSize fg).

Definition generateFile (fileSizeEl : Field) (uintArray : list Z)
    (fg : FileGenerator) : FileGenerator * FileOutcome :=
  let fileSize := fileSizeOf fileSizeEl in
  if Z.of_nat (length uintArray) <? fileSize then
    (mkFileGenerator (generatedFile fg) true fileSize, FileCollecting)
  else (createFileFromData uintArray fileSize fg, FileGenerated).

Definition updateProgress (uintArray : list Z) (fg : FileGenerator) : FileGenerator :=
  if negb (isGenerating fg) || (requiredDataSize fg =? 0) then fg
  else if requiredDataSize fg <=? Z.of_nat (length uintArray)
  then createFileFromData uintArray (requiredDataSize fg) fg
  else fg.

(** [AudioRNG.stop()] on the file generator; it does not touch the four
    buffers. *)
Definition stopFileGenerator (fg : FileGenerator) : FileGenerator :=
  mkFileGenerator (generatedFile fg) false 0.

End Consumers.

(** ** The standalone password page

    [AudioPasswordGenerator.generatePassword] of the standalone password
    generator: the checks it makes before it hands the pool to its
    [PasswordGenerator] and resets the pool. *)

Module Standalone.

Import Consumers.

Inductive Outcome :=
| NoCharset                        (* "Please select at least one ..." *)
| NotEnough                        (* "Not enough random data. ..." *)
| NeedMore (have need : Z)         (* "Need more random data. Have ..." *)
| Generated.                       (* the password generator is called *)

Definition generatePassword (form : PasswordForm) (randomData : list Z)
    : Outcome :=
  if (String.length (charsetOf form) =? 0)%nat then NoCharset
  else if (length randomData <? 32)%nat then NotEnough
  else
    let pwLength := orElse (parseInt (pwLengthEl form)) 16 in
    let have := Z.of_nat (length randomData) in
    if have <? Z.max 32 pwLength then NeedMore have (Z.max 32 pwLength)
    else Generated.

(** *** [PasswordGenerator] of the standalone page

    [Math.random()] is an input: [randomIndex] is the value of
    [Math.floor(Math.random() * uintArray.length)].  A number that is
    [NaN] is [None]; [undefined] in an addition gives [NaN], and an array
    or a string indexed by [NaN] gives [undefined]. *)

Definition addN (a b : option Z) : option Z :=
  match a, b with Some a, Some b => Some (a + b) | _, _ => None end.

Definition remN (a : option Z) (b : Z) : option Z :=
  match a with Some a => Some (Js.rem a b) | None => None end.

Definition getN (array : list Z) (j : option Z) : option Z :=
  match j with Some j => Js.get array j | None => None end.

(** What [password += charset[k]] appends. *)
Definition charN (charset : string) (k : option Z) : string :=
  match k with
  | Some k =>
      match Js.charAt charset k with
      | Some c => String c EmptyString
      | None => "undefined"%string
      end
  | None => "undefined"%string
  end.

Module PasswordGenerator.

(** One iteration of the loop: the password so far and [randomIndex]. *)
Definition pickCharacter (charset : string) (uintArray : list Z)
    (st : string * option Z) (i : Z) : string * option Z :=
  let '(password, randomIndex) := st in
  let len := Z.of_nat (length uintArray) in
  let r1 := getN uintArray (remN randomIndex len) in
  let r2 := getN uintArray (remN (addN randomIndex (Some 1)) len) in
  let r3 := getN uintArray (remN (addN randomIndex (Some 2)) len) in
  let combinedRandom :=
    remN (addN (addN (addN (addN r1 r2) r3) (Some i)) randomIndex)
         (Z.of_nat (String.length charset)) in
  (String.append password (charN charset combinedRandom),
   remN (addN (addN (addN randomIndex (Some 1)) (remN r1 13)) (remN r2 7)) len).

Definition generatePassword (form : PasswordForm) (randomIndex : Z)
    (uintArray : list Z) : PasswordOutcome :=
  if (length uintArray <? 32)%nat then PwNotEnough
  else
    let charset := charsetOf form in
    if (String.length charset =? 0)%nat then PwNoCharset
    else
      PwGenerated
        (fold_left (pickCharacter charset uintArray) (seqZ 0 (pwLengthOf form))
                   (EmptyString, Some randomIndex)).1.

End PasswordGenerator.

(** [validatePasswordLength], run when the length field loses the focus:
    the field as it leaves it.  Writing a number into the field makes it
    the text of that number. *)
Definition validatePasswordLength (pwLengthEl : Field) : Field :=
  match parseInt pwLengthEl with
  | None => Text (Some 8)
  | Some value =>
      if value <? 8 then Text (Some 8)
      else if 64 <? value then Text (Some 64)
      else pwLengthEl
  end.

(** The whole click on the standalone page: the checks of the controller,
    the password, and [resetRandomData].  The result is the pool afterwards
    and what the password box receives, if anything. *)
Definition click (form : PasswordForm) (randomIndex : Z) (randomData : list Z)
    : list Z * option PasswordOutcome :=
  match generatePassword form randomData with
  | Generated =>
      ([], Some (PasswordGenerator.generatePassword form randomIndex randomData))
  | _ => (randomData, None)
  end.

End Standalone.

(** ** The application of the waterfall revision

    The revision adds [AudioRNG.resetDataBuffer], called by every consumer
    after it has produced its result, reads the input fields as
    [parseInt(value || "16")], and draws the waterfall after each digest.
    The state gathers the objects these calls reach; [resets] is a ghost
    counter of the calls of [resetDataBuffer]. *)

Module App.

Import Consumers.

Record State := mkState {
  rng : AudioRNG;
  visualizationManager : Waterfall.VisualizationManager;
  fileGenerator : FileGenerator;
  resets : nat
}.

Definition initial : State :=
  mkState newAudioRNG (Waterfall.newVisualizationManager true) newFileGenerator 0.

Definition resetDataBuffer (s : State) : State :=
  mkState newAudioRNG
          (Waterfall.resetBitMatrix (visualizationManager s))
          (fileGenerator s)
          (S (resets s)).

(** [parseInt(value || "d")]: the default replaces a blank field only. *)
Definition parseOr (f : Field) (d : Z) : option Z :=
  match f with Blank => Some d | Text p => p end.

(** [Math.max(lo, Math.min(hi, x))]; [NaN] stays [NaN]. *)
Definition clamp (lo hi : Z) (x : option Z) : option Z :=
  match x with Some n => Some (Z.max lo (Z.min hi n)) | None => None end.

(** [generatePassword]: a loop bounded by [NaN] does not run. *)
Definition generatePassword (form : PasswordForm) (s : State)
    : State * PasswordOutcome :=
  let uintArray := uintArray (rng s) in
  if (length uintArray <? 32)%nat then (s, PwNotEnough)
  else
    let charset := charsetOf form in
    if (String.length charset =? 0)%nat then (s, PwNoCharset)
    else
      let pwLength := clamp 8 64 (parseOr (pwLengthEl form) 16) in
      (resetDataBuffer s,
       PwGenerated (buildPassword charset uintArray (default 0 pwLength))).

(** [generateNumbers]: a comparison with [NaN] is false, arithmetic on
    [NaN] gives [NaN]. *)
Definition generateNumbers (form : NumbersForm) (s : State)
    : State * NumbersOutcome :=
  let uintArray := uintArray (rng s) in
  if (length uintArray <? 32)%nat then (s, NumNotEnough)
  else
    let count := clamp 1 10000 (parseOr (numCountEl form) 100) in
    let min := parseOr (numMinEl form) 0 in
    let max := parseOr (numMaxEl form) 255 in
    match min, max with
    | Some mn, Some mx =>
        if mx <=? mn then (s, NumRangeError)
        else (resetDataBuffer s,
              NumGenerated (map (scaledValue uintArray mn mx)
                                (seqZ 0 (default 0 count))))
    | _, _ =>
        (resetDataBuffer s,
         NumGenerated (map (fun _ => None) (seqZ 0 (default 0 count))))
    end.

(** [createFileFromData]: [new Uint8Array(NaN)] is empty. *)
Definition createFileFromData (fileSize : option Z) (s : State) : State :=
  let fg := Consumers.createFileFromData (uintArray (rng s)) (default 0 fileSize)
              (fileGenerator s) in
  resetDataBuffer (mkState (rng s) (visualizationManager s) fg (resets s)).

Definition generateFile (fileSizeEl : Field) (s : State) : State * FileOutcome :=
  let fileSize := clamp 1 10485760 (parseOr fileSizeEl 1024) in
  match fileSize with
  | Some size =>
      if Z.of_nat (length (uintArray (rng s))) <? size then
        (mkState (rng s) (visualizationManager s)
                 (mkFileGenerator (generatedFile (fileGenerator s)) true size)
                 (resets s),
         FileCollecting)
      else (createFileFromData fileSize s, FileGenerated)
  | None => (createFileFromData fileSize s, FileGenerated)
  end.

Definition updateProgress (s : State) : State :=
  let fg := fileGenerator s in
  if negb (isGenerating fg) || (requiredDataSize fg =? 0) then s
  else if requiredDataSize fg <=? Z.of_nat (length (uintArray (rng s)))
  then createFileFromData (Some (requiredDataSize fg)) s
  else s.

(** What follows [uintArray.push(...digest)] in the loop. *)
Definition afterDigest (s : State) : State :=
  let vm := Waterfall.drawBitMatrix (uintArray (rng s)) (visualizationManager s) in
  let s1 := mkState (rng s) vm (fileGenerator s) (resets s) in
  if isGenerating (fileGenerator s1) then updateProgress s1 else s1.

Section Loop.
Context `{SubtleCrypto}.

(** One iteration of the loop of [processSamples]. *)
Definition processSampleStep (sample : Z) (s : State) : State :=
  let '(r, ev) := processSample sample (rng s) in
  let s1 := mkState r (visualizationManager s) (fileGenerator s) (resets s) in
  match hashedBatches ev with
  | [] => s1
  | _ :: _ => afterDigest s1
  end.

Definition start (s : State) : State :=
  mkState (rng s) (Waterfall.resetBitMatrix (visualizationManager s))
          (fileGenerator s) (resets s).

Definition stop (s : State) : State :=
  mkState (rng s) (visualizationManager s)
          (stopFileGenerator (fileGenerator s)) (resets s).

(** What can happen to the application, one call at a time. *)
Inductive Op :=
| Sample (sample : Z)
| Start
| Stop
| GeneratePassword (form : PasswordForm)
| GenerateNumbers (form : NumbersForm)
| GenerateFile (fileSizeEl : Field)
| ResetDataBuffer
| SetMatrixSize (cols rows size : Z)
| SetWaterfallDirection (down : bool)
| SetRenderMode (grid : bool).

Definition onVisualization
    (f : Waterfall.VisualizationManager -> Waterfall.VisualizationManager)
    (s : State) : State :=
  mkState (rng s) (f (visualizationManager s)) (fileGenerator s) (resets s).

Definition exec (op : Op) (s : State) : State :=
  match op with
  | Sample sample => processSampleStep sample s
  | Start => start s
  | Stop => stop s
  | GeneratePassword form => (generatePassword form s).1
  | GenerateNumbers form => (generateNumbers form s).1
  | GenerateFile fileSizeEl => (generateFile fileSizeEl s).1
  | ResetDataBuffer => resetDataBuffer s
  | SetMatrixSize cols rows size =>
      onVisualization (Waterfall.setMatrixSize cols rows size) s
  | SetWaterfallDirection down =>
      onVisualization (Waterfall.setWaterfallDirection down) s
  | SetRenderMode grid => onVisualization (Waterfall.setRenderMode grid) s
  end.

Definition run (ops : list Op) (s : State) : State :=
  fold_left (fun s op => exec op s) ops s.

End Loop.

End App.

(** * Part II: the vocabulary of the specification, and invariants *)

(** The Von Neumann extractor as the specification words it: bits are
    paired in order, without overlap; (0,1) gives 0, (1,0) gives 1, and
    (0,0) and (1,1) give nothing. *)
Definition pairOutput (b1 b2 : Z) : list Z :=
  match b1, b2 with
  | 0, 1 => [0]
  | 1, 0 => [1]
  | _, _ => []
  end.

Fixpoint vonNeumannSpec (bits : list Z) : list Z :=
  match bits with
  | b1 :: b2 :: rest => pairOutput b1 b2 ++ vonNeumannSpec rest
  | _ => []
  end.

(** The full groups of [n] elements of a list, in order, and what is left
    after them. *)
Definition groups {A} (n : nat) (l : list A) : list (list A) :=
  map (fun k => take n (drop (k * n) l)) (seq 0 (length l / n)).

Definition leftover {A} (n : nat) (l : list A) : list A :=
  drop (length l / n * n) l.

(** The bits of a byte, most significant first. *)
Definition msbFirst (b0 b1 b2 b3 b4 b5 b6 b7 : Z) : Z :=
  b0 * 128 + b1 * 64 + b2 * 32 + b3 * 16 + b4 * 8 + b5 * 4 + b6 * 2 + b7.

(** The message that is hashed for a batch: the UTF-8 text of the bytes
    read as character codes.  A byte below 128 is one byte of the message;
    a byte [b] from 128 on is the two bytes [192 + b / 64] and
    [128 + b mod 64]. *)
Definition utf8Text (batch : list Z) : list Z :=
  flat_map (fun b => if b <? 128 then [b] else [192 + b / 64; 128 + b mod 64])
           batch.

Section Tracking.
Context `{SubtleCrypto}.

(** The digest of a batch of bytes: SHA-256 of that message. *)
Definition digestOf (batch : list Z) : list Z := digest_SHA256 (utf8Text batch).

(** [Tracks pool0 tr r]: the buffers [r] hold what the pushes [tr], made
    since the accumulators were empty and the pool was [pool0], leave
    behind: every stage has consumed its input in full groups, in order. *)
Record Tracks (pool0 : list Z) (tr : list Event) (r : AudioRNG) : Prop := {
  tracks_raw : (length (rawBitBuffer r) <= 1)%nat;
  tracks_final : finalBitBuffer r = leftover 8 (debiasedBits tr);
  tracks_bytes :
    assembledBytes tr = map bitsToUint8 (groups 8 (debiasedBits tr));
  tracks_collected : collectedNumbers r = leftover 1000 (assembledBytes tr);
  tracks_hashed :
    hashedBatches tr
    = map (fun b => (b, sha256String (Js.fromCharCode b)))
          (groups 1000 (assembledBytes tr));
  tracks_pool : uintArray r = pool0 ++ concat (map snd (hashedBatches tr))
}.

End Tracking.

(** Bits and bytes. *)
Definition isBit (b : Z) : Prop := b = 0 \/ b = 1.
Definition isByte (b : Z) : Prop := 0 <= b < 256.

(** What a waterfall of [h] rows shows of the rows committed so far (oldest
    first): the latest [h] of them, the newest at the insertion edge, and
    [blank] rows where none has arrived yet. *)
Definition waterfallPicture {A} (newestOnTop : bool) (h : nat) (blank : A)
    (rows : list A) : list A :=
  if newestOnTop then take h (rev rows ++ replicate h blank)
  else drop (length rows) (replicate h blank ++ rows).

(** The pool grows by chunks, and the matrix is drawn after each. *)
Fixpoint drawGrowing (pool : list Z) (chunks : list (list Z))
    (vm : Waterfall.VisualizationManager) : Waterfall.VisualizationManager :=
  match chunks with
  | [] => vm
  | chunk :: chunks =>
      drawGrowing (pool ++ chunk) chunks (Waterfall.drawBitMatrix (pool ++ chunk) vm)
  end.

(** The waterfall with the settings of [vm0] shows the bits [bits]: the
    whole rows are on the canvas, the rest waits in the accumulator. *)
Record WaterfallShows (vm0 : Waterfall.VisualizationManager) (bits : list Z)
    (vm : Waterfall.VisualizationManager) : Prop := {
  shows_canvas : Waterfall.hasCanvas vm = Waterfall.hasCanvas vm0;
  shows_width : Waterfall.matrixWidth vm = Waterfall.matrixWidth vm0;
  shows_height : Waterfall.matrixHeight vm = Waterfall.matrixHeight vm0;
  shows_mode : Waterfall.renderMode vm = Waterfall.renderMode vm0;
  shows_direction : Waterfall.newestOnTop vm = Waterfall.newestOnTop vm0;
  shows_zero : Waterfall.colorZero vm = Waterfall.colorZero vm0;
  shows_one : Waterfall.colorOne vm = Waterfall.colorOne vm0;
  shows_capacity : Waterfall.capacity vm = Waterfall.capacity vm0;
  shows_accumulator :
    Waterfall.rowAccumulator vm
    = leftover (Z.to_nat (Waterfall.matrixWidth vm0)) bits;
  shows_offscreen :
    Waterfall.offscreen vm
    = waterfallPicture (Waterfall.newestOnTop vm0)
        (Z.to_nat (Waterfall.matrixHeight vm0))
        (replicate (Z.to_nat (Waterfall.matrixWidth vm0)) Waterfall.white)
        (map (Waterfall.rowPixels vm0)
             (groups (Z.to_nat (Waterfall.matrixWidth vm0)) bits))
}.

(** [script.js]: the pool grows by a chunk (possibly empty) before each
    invocation of [drawBitMatrix], which comes with its time stamp and its
    duration. *)
Fixpoint gridDrawGrowing (pool : list Z) (invocations : list (Z * Q * list Z))
    (vm : Grid.VisualizationManager) : Grid.VisualizationManager :=
  match invocations with
  | [] => vm
  | (now, updateTime, chunk) :: invocations =>
      gridDrawGrowing (pool ++ chunk) invocations
        (Grid.drawBitMatrix now updateTime (pool ++ chunk) vm)
  end.

(** The grid of [w] by [h] cells shows the bits of the pool up to the
    cursor, and 0 in every cell after it. *)
Record GridShows (w h : Z) (pool : list Z) (vm : Grid.VisualizationManager)
    : Prop := {
  grid_width : Grid.matrixWidth vm = w;
  grid_height : Grid.matrixHeight vm = h;
  grid_canvas : Grid.hasCanvas vm = true;
  grid_cursor :
    0 <= Grid.lastBitCount vm <= Z.min (w * h) (8 * Z.of_nat (length pool));
  grid_data :
    Grid.bitMatrixData vm
    = take (Z.to_nat (Grid.lastBitCount vm)) (Grid.uint8ArrayToBits pool)
      ++ replicate (Z.to_nat (w * h - Grid.lastBitCount vm)) 0
}.

(** The character a byte selects from the charset: the one at index
    [r mod charset.length]. *)
Definition charOf (charset : string) (r : Z) : ascii :=
  default "000"%char
    (String.get (Z.to_nat (r mod Z.of_nat (String.length charset))) charset).

(** Number [i] of a request for numbers between [min] and [max]: byte
    [i mod pool.length] of the pool, reduced modulo the size of the range. *)
Definition numberAt (pool : list Z) (min max : Z) (i : nat) : Z :=
  min + default 0 (pool !! (i mod length pool)%nat) mod (max - min + 1).

(** Reading back the UTF-8 text of a batch of bytes: sequences of one and
    of two bytes. *)
Fixpoint utf8Decode (bytes : list Z) : list Z :=
  match bytes with
  | [] => []
  | b :: rest =>
      if b <? 128 then b :: utf8Decode rest
      else
        match rest with
        | c :: rest' => ((b - 192) * 64 + (c - 128)) :: utf8Decode rest'
        | [] => []
        end
  end.

(** The value of a digit, in either case; -1 for any other character. *)
Definition digitValue (c : ascii) : Z :=
  let k := Z.of_N (N_of_ascii c) in
  if (48 <=? k) && (k <=? 57) then k - 48
  else if (97 <=? k) && (k <=? 122) then k - 87
  else if (65 <=? k) && (k <=? 90) then k - 55
  else -1.

(** Reading a numeral in a radix, and a text of two-digit hexadecimal
    numerals. *)
Definition readNumber (radix : Z) (numeral : string) : Z :=
  fold_left (fun v c => v * radix + digitValue c) (list_ascii_of_string numeral) 0.

Fixpoint hexPairs (text : list ascii) : list Z :=
  match text with
  | a :: b :: rest => (digitValue a * 16 + digitValue b) :: hexPairs rest
  | _ => []
  end.

(** The radix and the prefix of a format. *)
Definition radixOf (format : Consumers.Format) : Z :=
  match format with
  | Consumers.Hex => 16
  | Consumers.Decimal => 10
  | Consumers.Binary => 2
  end.

Definition prefixOf (format : Consumers.Format) : string :=
  match format with
  | Consumers.Hex => "0x"
  | Consumers.Decimal => ""
  | Consumers.Binary => "0b"
  end.

(** How often a value occurs in the pool. *)
Definition occurrences (v : Z) (pool : list Z) : Z :=
  Z.of_nat (length (filter (fun b => b = v) pool)).

(** The sum of the counts of a histogram. *)
Definition totalCount (histogram : list (option Z)) : Z :=
  fold_right (fun count acc => default 0 count + acc) 0 histogram.

(** The operations after which the waterfall still reads as one picture:
    all but a change of direction in mid-stream and the switch to the grid
    mode.  (The page itself calls neither.) *)
Definition keepsWaterfall (op : App.Op) : bool :=
  match op with
  | App.SetWaterfallDirection _ | App.SetRenderMode _ => false
  | _ => true
  end.

(** The display of the application follows the pool: its waterfall shows
    the whole pool, or nothing when it has been cleared since the last
    digest. *)
Record DisplayFollows (s : App.State) : Prop := {
  display_canvas : Waterfall.hasCanvas (App.visualizationManager s) = true;
  display_mode :
    Waterfall.renderMode (App.visualizationManager s) = Waterfall.ModeWaterfall;
  display_width : 0 < Waterfall.matrixWidth (App.visualizationManager s);
  display_height : 0 < Waterfall.matrixHeight (App.visualizationManager s);
  display_bytes : Forall isByte (uintArray (App.rng s));
  display_shows :
    exists shown,
      (shown = [] \/ shown = uintArray (App.rng s))
      /\ Waterfall.lastBitCount (App.visualizationManager s)
         = Z.of_nat (length shown) * 8
      /\ WaterfallShows (App.visualizationManager s) (Grid.uint8ArrayToBits shown)
           (App.visualizationManager s)
}.

(** The grid mode of the revision paints bit [i] at cell [i mod capacity],
    over what was there: a cell shows the latest bit that fell on it.
    [latestAt cap p n] is the largest index below [n] that falls on cell
    [p], if any. *)
Fixpoint latestAt (cap p n : nat) : option nat :=
  match n with
  | O => None
  | S n' => if decide ((n' mod cap)%nat = p) then Some n' else latestAt cap p n'
  end.

(** The cells of the grid, row after row, for the bits [bits]. *)
Definition gridPicture (vm : Waterfall.VisualizationManager) (bits : list Z)
    : list Waterfall.Color :=
  let cap := Z.to_nat (Waterfall.matrixWidth vm * Waterfall.matrixHeight vm) in
  map (fun p => match latestAt cap p (length bits) with
                | Some i =>
                    if default 0 (bits !! i) =? 0
                    then Waterfall.colorZero vm else Waterfall.colorOne vm
                | None => Waterfall.white
                end)
      (seq 0 cap).

(** The grid with the settings of [vm0] shows the bits [bits]. *)
Record GridModeShows (vm0 : Waterfall.VisualizationManager) (bits : list Z)
    (vm : Waterfall.VisualizationManager) : Prop := {
  gshows_canvas : Waterfall.hasCanvas vm = Waterfall.hasCanvas vm0;
  gshows_width : Waterfall.matrixWidth vm = Waterfall.matrixWidth vm0;
  gshows_height : Waterfall.matrixHeight vm = Waterfall.matrixHeight vm0;
  gshows_mode : Waterfall.renderMode vm = Waterfall.renderMode vm0;
  gshows_zero : Waterfall.colorZero vm = Waterfall.colorZero vm0;
  gshows_one : Waterfall.colorOne vm = Waterfall.colorOne vm0;
  gshows_capacity : Waterfall.capacity vm = Waterfall.capacity vm0;
  gshows_rows :
    length (Waterfall.offscreen vm) = Z.to_nat (Waterfall.matrixHeight vm0);
  gshows_columns :
    Forall (fun row => length row = Z.to_nat (Waterfall.matrixWidth vm0))
           (Waterfall.offscreen vm);
  gshows_cells : concat (Waterfall.offscreen vm) = gridPicture vm0 bits
}.

(** Invocations of the grid renderer, on an unchanged pool, that its
    throttle lets through: each comes, in the state it meets, at least
    [updateInterval] after the last invocation that ran (or the throttle
    is off). *)
Fixpoint letThrough (invocations : list (Z * Q)) (pool : list Z)
    (vm : Grid.VisualizationManager) : Prop :=
  match invocations with
  | [] => True
  | inv :: rest =>
      (Grid.adaptiveInterval vm = true ->
       Grid.updateInterval vm <= inv.1 - Grid.updateThrottle vm)
      /\ letThrough rest pool (Grid.drawBitMatrix inv.1 inv.2 pool vm)
  end.

(** A grid renderer with its canvas, on its way to a pool of [total] bits
    that fits its matrix. *)
Record Fitting (total : Z) (vm : Grid.VisualizationManager) : Prop := {
  fit_canvas : Grid.hasCanvas vm = true;
  fit_cursor : 0 <= Grid.lastBitCount vm <= total;
  fit_fits : total <= Grid.matrixWidth vm * Grid.matrixHeight vm;
  fit_complete :
    Grid.isMatrixComplete vm = true ->
    Grid.matrixWidth vm * Grid.matrixHeight vm <= Grid.lastBitCount vm
}.

(** The operations that clear the display and leave the pool alone. *)
Definition clearsDisplay (op : App.Op) : bool :=
  match op with
  | App.Start | App.SetMatrixSize _ _ _ => true
  | _ => false
  end.

(** The sixteen lower-case hexadecimal digits. *)
Definition isLowerHex (c : ascii) : Prop :=
  In c (list_ascii_of_string "0123456789abcdef").

(** * Part III: lemmas and theorems *)

(** ** Basic facts about the primitives *)

Lemma ToInt32_small z : - 2 ^ 31 <= z < 2 ^ 31 -> Js.ToInt32 z = z.
Proof.
  intros Hz. unfold Js.ToInt32.
  rewrite Z.mod_small by lia. lia.
Qed.

Lemma ToInt32_range z : - 2 ^ 31 <= Js.ToInt32 z < 2 ^ 31.
Proof.
  unfold Js.ToInt32.
  pose proof (Z.mod_pos_bound (z + 2 ^ 31) (2 ^ 32) ltac:(lia)). lia.
Qed.

Lemma rawBit_mod2 sample : rawBit sample = Js.ToInt32 sample mod 2.
Proof.
  unfold rawBit, Js.band. rewrite (ToInt32_small 1) by lia.
  change 1 with (Z.ones 1). apply Z.land_ones. lia.
Qed.

Lemma rawBit_bit sample : rawBit sample = 0 \/ rawBit sample = 1.
Proof.
  rewrite rawBit_mod2.
  pose proof (Z.mod_pos_bound (Js.ToInt32 sample) 2 ltac:(lia)). lia.
Qed.

Lemma rawBit_of_bit b : b = 0 \/ b = 1 -> rawBit b = b.
Proof. intros [-> | ->]; reflexivity. Qed.

Lemma debiasedBits_app tr1 tr2 :
  debiasedBits (tr1 ++ tr2) = debiasedBits tr1 ++ debiasedBits tr2.
Proof. apply flat_map_app. Qed.

Lemma assembledBytes_app tr1 tr2 :
  assembledBytes (tr1 ++ tr2) = assembledBytes tr1 ++ assembledBytes tr2.
Proof. apply flat_map_app. Qed.

Lemma hashedBatches_app tr1 tr2 :
  hashedBatches (tr1 ++ tr2) = hashedBatches tr1 ++ hashedBatches tr2.
Proof. apply flat_map_app. Qed.

Section PipelineFacts.
Context `{SubtleCrypto}.

(** *** What each stage does to the buffers it does not own *)

Lemma hashNumbers_raw r : rawBitBuffer (hashNumbers r).1 = rawBitBuffer r.
Proof. unfold hashNumbers. by case_match. Qed.

Lemma hashNumbers_final r : finalBitBuffer (hashNumbers r).1 = finalBitBuffer r.
Proof. unfold hashNumbers. by case_match. Qed.

Lemma hashNumbers_debiased r : debiasedBits (hashNumbers r).2 = [].
Proof. unfold hashNumbers. by case_match. Qed.

Lemma hashNumbers_assembled r : assembledBytes (hashNumbers r).2 = [].
Proof. unfold hashNumbers. by case_match. Qed.

Lemma assembleByte_raw r : rawBitBuffer (assembleByte r).1 = rawBitBuffer r.
Proof.
  unfold assembleByte. case_match; [|done].
  destruct (hashNumbers _) as [r2 ev] eqn:Hh. simpl.
  change r2 with (r2, ev).1. rewrite <- Hh. by rewrite hashNumbers_raw.
Qed.

Lemma assembleByte_debiased r : debiasedBits (assembleByte r).2 = [].
Proof.
  unfold assembleByte. case_match; [|done].
  destruct (hashNumbers _) as [r2 ev] eqn:Hh. simpl.
  change ev with (r2, ev).2. rewrite <- Hh. by rewrite hashNumbers_debiased.
Qed.

Lemma vonNeumann_raw b1 b2 r : rawBitBuffer (vonNeumann b1 b2 r).1 = rawBitBuffer r.
Proof. unfold vonNeumann. by repeat case_match. Qed.

Lemma vonNeumann_debiased b1 b2 r :
  debiasedBits (vonNeumann b1 b2 r).2 = pairOutput b1 b2.
Proof.
  unfold vonNeumann, pairOutput.
  destruct b1 as [|[]|], b2 as [|[]|]; reflexivity.
Qed.

(** *** One sample: with no carried bit, and with one *)

Lemma processSample_no_carry sample r :
  rawBitBuffer r = [] ->
  processSample sample r =
    (mkAudioRNG [rawBit sample] (finalBitBuffer r) (collectedNumbers r)
                (uintArray r), []).
Proof. intros Hr. unfold processSample. by rewrite Hr. Qed.

Lemma processSample_carry sample c r :
  rawBitBuffer r = [c] ->
  rawBitBuffer (processSample sample r).1 = []
  /\ debiasedBits (processSample sample r).2 = pairOutput c (rawBit sample).
Proof.
  intros Hr. unfold processSample. rewrite Hr. simpl.
  destruct (vonNeumann _ _ _) as [r1 e1] eqn:Hv.
  destruct (assembleByte r1) as [r2 e2] eqn:Ha. simpl.
  assert (Hraw1 : rawBitBuffer r1 = []).
  { change r1 with (r1, e1).1. rewrite <- Hv. by rewrite vonNeumann_raw. }
  assert (He1 : debiasedBits e1 = pairOutput c (rawBit sample)).
  { change e1 with (r1, e1).2. rewrite <- Hv. apply vonNeumann_debiased. }
  assert (Hraw2 : rawBitBuffer r2 = rawBitBuffer r1).
  { change r2 with (r2, e2).1. rewrite <- Ha. apply assembleByte_raw. }
  assert (He2 : debiasedBits e2 = []).
  { change e2 with (r2, e2).2. rewrite <- Ha. apply assembleByte_debiased. }
  split; [congruence|].
  by rewrite debiasedBits_app, He1, He2, app_nil_r.
Qed.

Lemma processSamples_cons sample data r :
  processSamples (sample :: data) r =
    ((processSamples data (processSample sample r).1).1,
     (processSample sample r).2 ++ (processSamples data (processSample sample r).1).2).
Proof.
  simpl. destruct (processSample sample r) as [r1 e1]. simpl.
  by destruct (processSamples data r1) as [r2 e2].
Qed.

(** The extractor with a carried state of at most one raw bit. *)
Lemma processSamples_debiased data : forall r,
  (length (rawBitBuffer r) <= 1)%nat ->
  debiasedBits (processSamples data r).2
    = vonNeumannSpec (rawBitBuffer r ++ map rawBit data)
  /\ (length (rawBitBuffer (processSamples data r).1) <= 1)%nat.
Proof.
  induction data as [|sample data IH]; intros r Hr.
  - simpl. rewrite app_nil_r.
    destruct (rawBitBuffer r) as [|c [|c' raw]] eqn:Hraw; simpl in *;
      (split; [reflexivity | lia]) || lia.
  - rewrite processSamples_cons. simpl. rewrite debiasedBits_app.
    destruct (rawBitBuffer r) as [|c [|c' raw]] eqn:Hraw; simpl in Hr; [| |lia].
    + rewrite (processSample_no_carry _ _ Hraw). simpl.
      destruct (IH (mkAudioRNG [rawBit sample] (finalBitBuffer r)
                      (collectedNumbers r) (uintArray r))) as [IH1 IH2];
        [simpl; lia|].
      split; [|exact IH2]. exact IH1.
    + destruct (processSample_carry sample c r Hraw) as [Hraw' Hev].
      destruct (IH (processSample sample r).1) as [IH1 IH2];
        [rewrite Hraw'; simpl; lia|].
      split; [|exact IH2].
      rewrite Hev, IH1, Hraw'. reflexivity.
Qed.

(** Two successive calls are one call on the concatenated samples. *)
Lemma processSamples_app first second : forall r,
  processSamples (first ++ second) r =
    ((processSamples second (processSamples first r).1).1,
     (processSamples first r).2 ++ (processSamples second (processSamples first r).1).2).
Proof.
  induction first as [|sample first IH]; intros r.
  - simpl. by destruct (processSamples second r).
  - rewrite <- app_comm_cons, !processSamples_cons, IH. simpl.
    by rewrite app_assoc.
Qed.

(** The carried raw bit after a call that started without one. *)
Lemma processSamples_carry data : forall r,
  (length (rawBitBuffer r) <= 1)%nat ->
  rawBitBuffer (processSamples data r).1 =
    if Nat.even (length (rawBitBuffer r) + length data)
    then [] else [last (rawBitBuffer r ++ map rawBit data) 0].
Proof.
  induction data as [|sample data IH]; intros r Hr.
  - simpl. rewrite app_nil_r, Nat.add_0_r.
    by destruct (rawBitBuffer r) as [|c [|c' raw]] eqn:Hraw; simpl in *; try lia.
  - rewrite processSamples_cons. simpl.
    destruct (rawBitBuffer r) as [|c [|c' raw]] eqn:Hraw; simpl in Hr; [| |lia].
    + rewrite (processSample_no_carry _ _ Hraw). simpl.
      rewrite IH by (simpl; lia). simpl. reflexivity.
    + destruct (processSample_carry sample c r Hraw) as [Hraw' _].
      rewrite IH by (rewrite Hraw'; simpl; lia). rewrite Hraw'.
      cbn [length Nat.add app]. 
      destruct data as [|s' data']; [reflexivity|].
      cbn [length Nat.even map]. 
      destruct (Nat.even (length data')); [reflexivity|].
      reflexivity.
Qed.

End PipelineFacts.


(** ** Groups of a list *)

Section Groups.
Context {A : Type}.
Implicit Types (l : list A) (n : nat).

Lemma leftover_length n l : n <> 0%nat -> length (leftover n l) = (length l mod n)%nat.
Proof.
  intros Hn. unfold leftover. rewrite length_drop.
  pose proof (Nat.div_mod_eq (length l) n). lia.
Qed.

Lemma leftover_lt n l : n <> 0%nat -> (length (leftover n l) < n)%nat.
Proof.
  intros Hn. rewrite leftover_length by done. by apply Nat.mod_upper_bound.
Qed.

Lemma groups_nil n : groups n ([] : list A) = [].
Proof.
  unfold groups. simpl.
  by rewrite Nat.Div0.div_0_l.
Qed.

Lemma leftover_nil n : leftover n ([] : list A) = [].
Proof. unfold leftover. by rewrite drop_nil. Qed.

Lemma group_stable n l x k :
  (k * n + n <= length l)%nat ->
  take n (drop (k * n) (l ++ [x])) = take n (drop (k * n) l).
Proof.
  intros Hk.
  rewrite drop_app_le by lia.
  rewrite take_app_le; [done|]. rewrite length_drop. lia.
Qed.

Lemma groups_stable n l x q :
  (q * n <= length l)%nat ->
  map (fun k => take n (drop (k * n) (l ++ [x]))) (seq 0 q)
  = map (fun k => take n (drop (k * n) l)) (seq 0 q).
Proof.
  intros Hq. apply map_ext_in. intros k Hk. apply in_seq in Hk.
  apply group_stable. nia.
Qed.

Lemma groups_snoc_lt n l x :
  (length (leftover n l) + 1 < n)%nat ->
  groups n (l ++ [x]) = groups n l
  /\ leftover n (l ++ [x]) = leftover n l ++ [x].
Proof.
  intros Hlt. assert (Hn : n <> 0%nat) by lia.
  rewrite leftover_length in Hlt by done.
  pose proof (Nat.div_mod_eq (length l) n) as Hdm.
  assert (Hq : (length (l ++ [x]) / n = length l / n)%nat).
  { rewrite length_app. simpl. symmetry.
    apply (Nat.div_unique _ _ _ (length l mod n + 1)); lia. }
  unfold groups, leftover. rewrite Hq. split.
  - apply groups_stable. nia.
  - rewrite drop_app_le by nia. done.
Qed.

Lemma groups_snoc_eq n l x :
  (length (leftover n l) + 1 = n)%nat ->
  groups n (l ++ [x]) = groups n l ++ [leftover n l ++ [x]]
  /\ leftover n (l ++ [x]) = [].
Proof.
  intros Heq. assert (Hn : n <> 0%nat) by lia.
  pose proof Heq as Hlen. rewrite leftover_length in Heq by done.
  pose proof (Nat.div_mod_eq (length l) n) as Hdm.
  assert (Hq : (length (l ++ [x]) / n = S (length l / n))%nat).
  { rewrite length_app. simpl. symmetry.
    apply (Nat.div_unique _ _ _ 0); lia. }
  unfold groups. fold (leftover n l). unfold leftover at 2. rewrite Hq. split.
  - rewrite seq_S, map_app. simpl. f_equal.
    + apply groups_stable. nia.
    + f_equal. rewrite drop_app_le by nia. fold (leftover n l).
      apply take_ge. rewrite length_app. simpl. lia.
  - apply drop_ge. rewrite length_app. simpl. nia.
Qed.

Lemma groups_length n l : length (groups n l) = (length l / n)%nat.
Proof. unfold groups. by rewrite length_map, length_seq. Qed.

Lemma groups_each n l g : n <> 0%nat -> In g (groups n l) -> length g = n.
Proof.
  intros Hn Hg. unfold groups in Hg. apply in_map_iff in Hg as (k & <- & Hk).
  apply in_seq in Hk. rewrite length_take, length_drop.
  pose proof (Nat.div_mod_eq (length l) n). nia.
Qed.

End Groups.

(** ** The pipeline consumes its input in full groups *)

Section PipelineTracking.
Context `{SubtleCrypto}.

Lemma Tracks_start pool0 c :
  (length c <= 1)%nat -> Tracks pool0 [] (mkAudioRNG c [] [] pool0).
Proof.
  intros Hc.
  split;
    cbn [rawBitBuffer finalBitBuffer collectedNumbers uintArray
         debiasedBits assembledBytes hashedBatches flat_map];
    rewrite ?leftover_nil, ?groups_nil, ?app_nil_r; done.
Qed.

(** Hashing, after a byte was pushed onto a tracked batch. *)
Lemma Tracks_hashNumbers pool0 tr r v raw :
  Tracks pool0 tr r ->
  (length raw <= 1)%nat ->
  let r1 := mkAudioRNG raw [] (collectedNumbers r ++ [v]) (uintArray r) in
  debiasedBits (hashNumbers r1).2 = []
  /\ assembledBytes (hashNumbers r1).2 = []
  /\ rawBitBuffer (hashNumbers r1).1 = raw
  /\ finalBitBuffer (hashNumbers r1).1 = []
  /\ collectedNumbers (hashNumbers r1).1 = leftover 1000 (assembledBytes tr ++ [v])
  /\ hashedBatches tr ++ hashedBatches (hashNumbers r1).2
     = map (fun b => (b, sha256String (Js.fromCharCode b)))
           (groups 1000 (assembledBytes tr ++ [v]))
  /\ uintArray (hashNumbers r1).1
     = pool0 ++ concat (map snd (hashedBatches tr ++ hashedBatches (hashNumbers r1).2)).
Proof.
  intros [_ _ _ Hcol Hhash Hpool] Hraw r1.
  pose proof (leftover_lt 1000 (assembledBytes tr) ltac:(lia)) as Hlt.
  rewrite <- Hcol in Hlt.
  unfold hashNumbers. subst r1. cbn [collectedNumbers rawBitBuffer finalBitBuffer uintArray].
  destruct (Nat.leb_spec 1000 (length (collectedNumbers r ++ [v]))) as [Hge | Hlt'];
    rewrite length_app in *; cbn [length] in *.
  - destruct (groups_snoc_eq 1000 (assembledBytes tr) v) as [Hg Hl];
      [rewrite <- Hcol; lia|].
    cbn [fst snd rawBitBuffer finalBitBuffer collectedNumbers uintArray
         debiasedBits assembledBytes hashedBatches flat_map app].
    rewrite take_ge by (rewrite length_app; cbn [length]; lia).
    repeat split; try done.
    + rewrite Hg, map_app, Hhash, <- Hcol. reflexivity.
    + rewrite Hpool, map_app, concat_app. cbn [map concat snd].
      by rewrite app_nil_r, app_assoc.
  - destruct (groups_snoc_lt 1000 (assembledBytes tr) v) as [Hg Hl];
      [rewrite <- Hcol; lia|].
    cbn [fst snd rawBitBuffer finalBitBuffer collectedNumbers uintArray
         debiasedBits assembledBytes hashedBatches flat_map app].
    repeat split; try done.
    + by rewrite Hl, Hcol.
    + by rewrite app_nil_r, Hg.
    + by rewrite app_nil_r.
Qed.

(** Assembling, after a bit was pushed onto a tracked accumulator. *)
Lemma Tracks_assembleByte pool0 tr r b raw :
  Tracks pool0 tr r ->
  (length raw <= 1)%nat ->
  let r1 := mkAudioRNG raw (finalBitBuffer r ++ [b]) (collectedNumbers r)
                       (uintArray r) in
  Tracks pool0 (tr ++ Debiased b :: (assembleByte r1).2) (assembleByte r1).1.
Proof.
  intros Htr Hraw r1.
  pose proof Htr as [_ Hfin Hbytes Hcol Hhash Hpool].
  pose proof (leftover_lt 8 (debiasedBits tr) ltac:(lia)) as Hlt.
  rewrite <- Hfin in Hlt.
  unfold assembleByte. subst r1.
  cbn [collectedNumbers rawBitBuffer finalBitBuffer uintArray].
  destruct (Nat.eqb_spec (length (finalBitBuffer r ++ [b])) 8) as [Heq | Hne];
    rewrite length_app in *; cbn [length] in *.
  - destruct (groups_snoc_eq 8 (debiasedBits tr) b) as [Hg Hl];
      [rewrite <- Hfin; lia|].
    set (v := bitsToUint8 (finalBitBuffer r ++ [b])).
    pose proof (Tracks_hashNumbers pool0 tr r v raw Htr Hraw) as Hh.
    cbn zeta in Hh.
    destruct (hashNumbers _) as [r2 ev].
    cbn [fst snd] in *.
    destruct Hh as (Hd & Ha & Hr & Hf & Hc & Hhh & Hp).
    assert (Hdeb : debiasedBits (tr ++ Debiased b :: Assembled v :: ev)
                   = debiasedBits tr ++ [b]).
    { rewrite debiasedBits_app. cbn [debiasedBits flat_map app].
      fold (debiasedBits ev). by rewrite Hd. }
    assert (Hass : assembledBytes (tr ++ Debiased b :: Assembled v :: ev)
                   = assembledBytes tr ++ [v]).
    { rewrite assembledBytes_app. cbn [assembledBytes flat_map app].
      fold (assembledBytes ev). by rewrite Ha. }
    assert (Hhs : hashedBatches (tr ++ Debiased b :: Assembled v :: ev)
                   = hashedBatches tr ++ hashedBatches ev).
    { rewrite hashedBatches_app. cbn [hashedBatches flat_map app]. done. }
    split.
    + by rewrite Hr.
    + by rewrite Hf, Hdeb, Hl.
    + rewrite Hass, Hdeb, Hg, map_app, Hbytes, <- Hfin. reflexivity.
    + by rewrite Hc, Hass.
    + by rewrite Hhs, Hass.
    + by rewrite Hhs.
  - destruct (groups_snoc_lt 8 (debiasedBits tr) b) as [Hg Hl];
      [rewrite <- Hfin; lia|].
    cbn [fst snd].
    assert (Hdeb : debiasedBits (tr ++ [Debiased b]) = debiasedBits tr ++ [b]).
    { by rewrite debiasedBits_app. }
    assert (Hass : assembledBytes (tr ++ [Debiased b]) = assembledBytes tr).
    { rewrite assembledBytes_app. cbn. by rewrite app_nil_r. }
    assert (Hhs : hashedBatches (tr ++ [Debiased b]) = hashedBatches tr).
    { rewrite hashedBatches_app. cbn. by rewrite app_nil_r. }
    split; cbn [collectedNumbers rawBitBuffer finalBitBuffer uintArray].
    + done.
    + by rewrite Hdeb, Hl, Hfin.
    + by rewrite Hass, Hdeb, Hg.
    + by rewrite Hass.
    + by rewrite Hhs, Hass.
    + by rewrite Hhs.
Qed.

(** A pair that is discarded leaves a tracked state tracked. *)
Lemma Tracks_discard pool0 tr r raw :
  Tracks pool0 tr r ->
  (length raw <= 1)%nat ->
  let r1 := mkAudioRNG raw (finalBitBuffer r) (collectedNumbers r) (uintArray r) in
  Tracks pool0 (tr ++ (assembleByte r1).2) (assembleByte r1).1.
Proof.
  intros [_ Hfin Hbytes Hcol Hhash Hpool] Hraw r1.
  pose proof (leftover_lt 8 (debiasedBits tr) ltac:(lia)) as Hlt.
  rewrite <- Hfin in Hlt.
  unfold assembleByte. subst r1.
  cbn [collectedNumbers rawBitBuffer finalBitBuffer uintArray].
  destruct (Nat.eqb_spec (length (finalBitBuffer r)) 8) as [Heq | Hne]; [lia|].
  cbn [fst snd]. rewrite app_nil_r. by split.
Qed.

Lemma Tracks_processSample pool0 tr r sample :
  Tracks pool0 tr r ->
  Tracks pool0 (tr ++ (processSample sample r).2) (processSample sample r).1.
Proof.
  intros Htr. pose proof Htr as [Hraw Hfin Hbytes Hcol Hhash Hpool].
  unfold processSample.
  destruct (rawBitBuffer r) as [|c [|c' raw]] eqn:Hr; cbn [length] in Hraw; [| |lia].
  - cbn [app fst snd]. rewrite app_nil_r. split; cbn; (done || lia).
  - cbn [app]. unfold vonNeumann.
    cbn [collectedNumbers rawBitBuffer finalBitBuffer uintArray].
    destruct ((c =? 0) && (rawBit sample =? 1)).
    { pose proof (Tracks_assembleByte pool0 tr r 0 [] Htr ltac:(simpl; lia)) as Ha.
      cbn zeta in Ha. destruct (assembleByte _) as [r2 e2]. exact Ha. }
    destruct ((c =? 1) && (rawBit sample =? 0)).
    { pose proof (Tracks_assembleByte pool0 tr r 1 [] Htr ltac:(simpl; lia)) as Ha.
      cbn zeta in Ha. destruct (assembleByte _) as [r2 e2]. exact Ha. }
    pose proof (Tracks_discard pool0 tr r [] Htr ltac:(simpl; lia)) as Ha.
    cbn zeta in Ha. destruct (assembleByte _) as [r2 e2]. exact Ha.
Qed.

Lemma Tracks_processSamples data : forall pool0 tr r,
  Tracks pool0 tr r ->
  Tracks pool0 (tr ++ (processSamples data r).2) (processSamples data r).1.
Proof.
  induction data as [|sample data IH]; intros pool0 tr r Htr.
  - simpl. by rewrite app_nil_r.
  - rewrite processSamples_cons. cbn [fst snd]. rewrite app_assoc.
    apply IH. by apply Tracks_processSample.
Qed.

End PipelineTracking.

(** ** The extraction pipeline: debiasing, bytes, batches *)

Section PipelineTheorems.
Context `{SubtleCrypto}.

Lemma last_map_rawBit data : List.last (map rawBit data) 0 = rawBit (List.last data 0).
Proof.
  induction data as [|s [|s' data] IH]; [reflexivity | reflexivity |].
  exact IH.
Qed.

(** C1. Starting without a carried raw bit, the debiased bits that
    [processSamples] pushes are those of the Von Neumann extractor on the
    raw bits of the samples: pairs taken in order without overlap, 0 for
    (0,1), 1 for (1,0), nothing for (0,0) and (1,1).  The raw bits
    0,1,1,0,1,0,0,1 give exactly 0,1,1,0. *)
Theorem von_neumann_extractor :
  (forall data final collected pool,
      debiasedBits (processSamples data (mkAudioRNG [] final collected pool)).2
      = vonNeumannSpec (map rawBit data))
  /\ (pairOutput 0 1 = [0] /\ pairOutput 1 0 = [1]
      /\ pairOutput 0 0 = [] /\ pairOutput 1 1 = [])
  /\ map rawBit [0; 1; 1; 0; 1; 0; 0; 1] = [0; 1; 1; 0; 1; 0; 0; 1]
  /\ debiasedBits (processSamples [0; 1; 1; 0; 1; 0; 0; 1] newAudioRNG).2
     = [0; 1; 1; 0]
  /\ finalBitBuffer (processSamples [0; 1; 1; 0; 1; 0; 0; 1] newAudioRNG).1
     = [0; 1; 1; 0].
Proof.
  split; [|repeat split; reflexivity].
  intros data final collected pool.
  destruct (processSamples_debiased data (mkAudioRNG [] final collected pool))
    as [Hd _]; [simpl; lia|].
  exact Hd.
Qed.

(** C2. Two successive calls on the two parts of a sample sequence leave
    the same buffers and push the same bits, bytes and digests as one call
    on the whole sequence.  A first call on an odd number of samples leaves
    exactly its last raw bit in [rawBitBuffer], an even one leaves none; the
    second call pairs from that bit on, in order. *)
Theorem split_calls_agree (first second final collected pool : list Z) :
  let r := mkAudioRNG [] final collected pool in
  let call1 := processSamples first r in
  let call2 := processSamples second call1.1 in
  processSamples (first ++ second) r = (call2.1, call1.2 ++ call2.2)
  /\ debiasedBits (processSamples (first ++ second) r).2
     = debiasedBits call1.2 ++ debiasedBits call2.2
  /\ rawBitBuffer call1.1
     = (if Nat.even (length first) then [] else [rawBit (List.last first 0)])
  /\ debiasedBits call2.2
     = vonNeumannSpec (rawBitBuffer call1.1 ++ map rawBit second).
Proof.
  intros r call1 call2.
  assert (Hr : (length (rawBitBuffer r) <= 1)%nat) by (simpl; lia).
  destruct (processSamples_debiased first r Hr) as [_ Hc1].
  repeat split.
  - apply processSamples_app.
  - rewrite processSamples_app. cbn [snd]. apply debiasedBits_app.
  - subst call1. rewrite (processSamples_carry first r Hr).
    cbn [rawBitBuffer r length Nat.add app].
    by rewrite last_map_rawBit.
  - by destruct (processSamples_debiased second call1.1 Hc1) as [Hd _].
Qed.

Lemma bitsToUint8_bools (b0 b1 b2 b3 b4 b5 b6 b7 : bool) :
  bitsToUint8 (map Z.b2z [b0; b1; b2; b3; b4; b5; b6; b7])
  = msbFirst (Z.b2z b0) (Z.b2z b1) (Z.b2z b2) (Z.b2z b3)
             (Z.b2z b4) (Z.b2z b5) (Z.b2z b6) (Z.b2z b7).
Proof.
  destruct b0, b1, b2, b3, b4, b5, b6, b7; reflexivity.
Qed.

Lemma assembleByte_final r :
  finalBitBuffer (assembleByte r).1
  = if (length (finalBitBuffer r) =? 8)%nat then [] else finalBitBuffer r.
Proof.
  unfold assembleByte. destruct (length (finalBitBuffer r) =? 8)%nat; [|done].
  destruct (hashNumbers _) as [r2 ev] eqn:Hh. cbn [fst].
  change r2 with (r2, ev).1. rewrite <- Hh. by rewrite hashNumbers_final.
Qed.

Lemma assembleByte_assembled r :
  assembledBytes (assembleByte r).2
  = if (length (finalBitBuffer r) =? 8)%nat
    then [bitsToUint8 (finalBitBuffer r)] else [].
Proof.
  unfold assembleByte. destruct (length (finalBitBuffer r) =? 8)%nat; [|done].
  destruct (hashNumbers _) as [r2 ev] eqn:Hh. cbn [snd].
  cbn [assembledBytes flat_map app]. fold (assembledBytes ev).
  change ev with (r2, ev).2. rewrite <- Hh. by rewrite hashNumbers_assembled.
Qed.

(** C3. Eight accumulated bits b0..b7 assemble to
    b0*128 + b1*64 + ... + b6*2 + b7, the first bit being the most
    significant; the accumulator is emptied exactly when it holds 8 bits
    (and a byte is pushed then, and only then), so that over a whole run
    the bytes are those of the successive groups of 8 debiased bits and
    fewer than 8 bits stay behind; 1,0,1,1,0,0,1,0 assemble to 178. *)
Theorem byte_assembly :
  (forall b0 b1 b2 b3 b4 b5 b6 b7 : bool,
      bitsToUint8 (map Z.b2z [b0; b1; b2; b3; b4; b5; b6; b7])
      = msbFirst (Z.b2z b0) (Z.b2z b1) (Z.b2z b2) (Z.b2z b3)
                 (Z.b2z b4) (Z.b2z b5) (Z.b2z b6) (Z.b2z b7))
  /\ (forall r,
        finalBitBuffer (assembleByte r).1
        = (if (length (finalBitBuffer r) =? 8)%nat then [] else finalBitBuffer r)
        /\ assembledBytes (assembleByte r).2
           = (if (length (finalBitBuffer r) =? 8)%nat
              then [bitsToUint8 (finalBitBuffer r)] else []))
  /\ (forall data pool0,
        let call := processSamples data (mkAudioRNG [] [] [] pool0) in
        assembledBytes call.2 = map bitsToUint8 (groups 8 (debiasedBits call.2))
        /\ finalBitBuffer call.1 = leftover 8 (debiasedBits call.2)
        /\ (length (finalBitBuffer call.1) < 8)%nat)
  /\ bitsToUint8 [1; 0; 1; 1; 0; 0; 1; 0] = 178
  /\ assembledBytes
       (processSamples [1; 0; 0; 1; 1; 0; 1; 0; 0; 1; 0; 1; 1; 0; 0; 1]
                       newAudioRNG).2 = [178].
Proof.
  split; [exact bitsToUint8_bools|].
  split; [intros r; split; [apply assembleByte_final | apply assembleByte_assembled]|].
  split; [|split; reflexivity].
  intros data pool0 call.
  pose proof (Tracks_processSamples data pool0 [] _
                (Tracks_start pool0 [] ltac:(simpl; lia))) as Ht.
  cbn [app] in Ht. destruct Ht as [_ Hfin Hbytes _ _ _].
  repeat split; [exact Hbytes | exact Hfin |].
  subst call. rewrite Hfin. apply leftover_lt. lia.
Qed.

Lemma digestOf_length batch : length (digestOf batch) = 32%nat.
Proof. apply digest_SHA256_length. Qed.

End PipelineTheorems.

(** ** The pool under the operations of the application *)

Section PoolTheorems.
Context `{SubtleCrypto}.

Lemma digests_length (hb : list (list Z * list Z)) :
  Forall (fun bd => length bd.2 = 32%nat) hb ->
  length (concat (map snd hb)) = (32 * length hb)%nat.
Proof.
  induction 1 as [|[b d] hb Hd _ IH]; [reflexivity|].
  cbn [map concat snd length] in *. rewrite length_app, IH, Hd. lia.
Qed.

Lemma Tracks_digests pool0 tr r :
  Tracks pool0 tr r -> Forall (fun bd => length bd.2 = 32%nat) (hashedBatches tr).
Proof.
  intros [_ _ _ _ Hhash _]. rewrite Hhash.
  apply Forall_forall. intros [b d] Hin.
  apply in_map_iff in Hin as (g & Heq & _). inversion Heq; subst.
  apply digest_SHA256_length.
Qed.

Lemma Tracks_pool_length tr r :
  Tracks [] tr r -> length (uintArray r) = (32 * length (hashedBatches tr))%nat.
Proof.
  intros Ht. rewrite (tracks_pool _ _ _ Ht). cbn [app].
  apply digests_length. by eapply Tracks_digests.
Qed.

(** *** One loop iteration appends at most one digest *)

Lemma hashNumbers_pool r :
  uintArray (hashNumbers r).1 = uintArray r
  \/ exists digest, length digest = 32%nat
       /\ uintArray (hashNumbers r).1 = uintArray r ++ digest.
Proof.
  unfold hashNumbers. destruct (1000 <=? length (collectedNumbers r))%nat.
  - right. eexists. split; [|reflexivity]. apply digest_SHA256_length.
  - by left.
Qed.

Lemma assembleByte_pool r :
  uintArray (assembleByte r).1 = uintArray r
  \/ exists digest, length digest = 32%nat
       /\ uintArray (assembleByte r).1 = uintArray r ++ digest.
Proof.
  unfold assembleByte. destruct (length (finalBitBuffer r) =? 8)%nat; [|by left].
  match goal with |- context [hashNumbers ?r1] =>
    pose proof (hashNumbers_pool r1) as Hp; destruct (hashNumbers r1) as [r2 ev]
  end.
  exact Hp.
Qed.

Lemma vonNeumann_pool b1 b2 r : uintArray (vonNeumann b1 b2 r).1 = uintArray r.
Proof. unfold vonNeumann. by repeat case_match. Qed.

Lemma processSample_pool sample r :
  uintArray (processSample sample r).1 = uintArray r
  \/ exists digest, length digest = 32%nat
       /\ uintArray (processSample sample r).1 = uintArray r ++ digest.
Proof.
  unfold processSample.
  destruct (rawBitBuffer r ++ [rawBit sample]) as [|b1 [|b2 rest]]; [by left..|].
  match goal with |- context [vonNeumann b1 b2 ?r0] =>
    pose proof (vonNeumann_pool b1 b2 r0) as Hv;
    destruct (vonNeumann b1 b2 r0) as [r1 e1]
  end.
  pose proof (assembleByte_pool r1) as Ha.
  destruct (assembleByte r1) as [r2 e2]. cbn [fst uintArray] in *.
  by rewrite Hv in Ha.
Qed.

Lemma processSamples_pool data : forall r,
  uintArray r `prefix_of` uintArray (processSamples data r).1.
Proof.
  induction data as [|sample data IH]; intros r; [done|].
  rewrite processSamples_cons. cbn [fst].
  transitivity (uintArray (processSample sample r).1); [|apply IH].
  destruct (processSample_pool sample r) as [-> | (d & _ & ->)]; [done|].
  by apply prefix_app_r.
Qed.

(** *** What an operation does to the buffers: nothing, one loop
    iteration, or a reset *)

Lemma createFileFromData_rng size s :
  App.rng (App.createFileFromData size s) = newAudioRNG
  /\ App.resets (App.createFileFromData size s) = S (App.resets s).
Proof. done. Qed.

Lemma updateProgress_rng s :
  (App.rng (App.updateProgress s) = App.rng s
   /\ App.resets (App.updateProgress s) = App.resets s)
  \/ (App.rng (App.updateProgress s) = newAudioRNG
      /\ App.resets (App.updateProgress s) = S (App.resets s)).
Proof.
  unfold App.updateProgress. repeat case_match; auto.
Qed.

Lemma afterDigest_rng s :
  (App.rng (App.afterDigest s) = App.rng s
   /\ App.resets (App.afterDigest s) = App.resets s)
  \/ (App.rng (App.afterDigest s) = newAudioRNG
      /\ App.resets (App.afterDigest s) = S (App.resets s)).
Proof.
  unfold App.afterDigest. cbn [App.fileGenerator].
  destruct (Consumers.isGenerating (App.fileGenerator s)); [|by left].
  match goal with |- context [App.updateProgress ?s1] =>
    destruct (updateProgress_rng s1) as [[-> ->] | [-> ->]]
  end; auto.
Qed.

Lemma processSampleStep_rng sample s :
  (App.rng (App.processSampleStep sample s) = (processSample sample (App.rng s)).1
   /\ App.resets (App.processSampleStep sample s) = App.resets s)
  \/ (App.rng (App.processSampleStep sample s) = newAudioRNG
      /\ App.resets (App.processSampleStep sample s) = S (App.resets s)).
Proof.
  unfold App.processSampleStep.
  destruct (processSample sample (App.rng s)) as [r ev]. cbn [fst].
  destruct (hashedBatches ev); [by left|].
  match goal with |- context [App.afterDigest ?s1] =>
    destruct (afterDigest_rng s1) as [[-> ->] | [-> ->]]
  end; auto.
Qed.

Lemma exec_rng op s :
  (App.resets (App.exec op s) = App.resets s
   /\ (App.rng (App.exec op s) = App.rng s
       \/ exists sample, op = App.Sample sample
            /\ App.rng (App.exec op s) = (processSample sample (App.rng s)).1))
  \/ (App.resets (App.exec op s) = S (App.resets s)
      /\ App.rng (App.exec op s) = newAudioRNG).
Proof.
  destruct op; cbn [App.exec].
  - destruct (processSampleStep_rng sample s) as [[Hr Hn] | [Hr Hn]]; eauto 6.
  - left. eauto.
  - left. eauto.
  - unfold App.generatePassword. repeat case_match; cbn [fst]; eauto.
  - unfold App.generateNumbers. repeat case_match; cbn [fst]; eauto.
  - unfold App.generateFile. repeat case_match; cbn [fst]; eauto.
  - right. eauto.
  - left. eauto.
  - left. eauto.
  - left. eauto.
Qed.

(** C5. An operation of the application either leaves the pool as it was
    or with bytes appended, or it has called [resetDataBuffer] and the pool
    is empty.  Stopping leaves the pool untouched, [resetDataBuffer] empties
    it, and the loop of [processSamples] on its own only appends. *)
Theorem pool_shrinks_only_by_reset (op : App.Op) (s : App.State) :
  let pool := uintArray (App.rng s) in
  let pool' := uintArray (App.rng (App.exec op s)) in
  ((App.resets (App.exec op s) = App.resets s /\ pool `prefix_of` pool')
   \/ (App.resets (App.exec op s) = S (App.resets s) /\ pool' = []))
  /\ (uintArray (App.rng (App.exec App.Stop s)) = pool
      /\ App.resets (App.exec App.Stop s) = App.resets s)
  /\ uintArray (App.rng (App.resetDataBuffer s)) = []
  /\ (forall data r, uintArray r `prefix_of` uintArray (processSamples data r).1).
Proof.
  intros pool pool'. repeat split; [|apply processSamples_pool].
  subst pool pool'.
  destruct (exec_rng op s) as [[Hn [Hr | (sample & _ & Hr)]] | [Hn Hr]].
  - left. by rewrite Hr.
  - left. split; [done|]. rewrite Hr.
    destruct (processSample_pool sample (App.rng s)) as [-> | (d & _ & ->)];
      [done | by apply prefix_app_r].
  - right. by rewrite Hr.
Qed.

(** *** Reachable states are tracked *)

Lemma exec_tracked op s :
  (exists tr, Tracks [] tr (App.rng s)) ->
  exists tr, Tracks [] tr (App.rng (App.exec op s)).
Proof.
  intros [tr Ht].
  destruct (exec_rng op s) as [[_ [Hr | (sample & _ & Hr)]] | [_ Hr]]; rewrite Hr.
  - by exists tr.
  - eexists. by apply Tracks_processSample.
  - exists []. apply (Tracks_start [] []). simpl. lia.
Qed.

Lemma run_tracked ops : forall s,
  (exists tr, Tracks [] tr (App.rng s)) ->
  exists tr, Tracks [] tr (App.rng (App.run ops s)).
Proof.
  induction ops as [|op ops IH]; intros s Hs; [done|].
  cbn [App.run fold_left]. apply IH. by apply exec_tracked.
Qed.

Lemma initial_tracked : exists tr, Tracks [] tr (App.rng App.initial).
Proof. exists []. apply (Tracks_start [] []). simpl. lia. Qed.

(** C10. In every state the application can reach, the length of the pool
    is a multiple of 32, so the check for at least 32 bytes passes exactly
    when the pool is not empty; an operation leaves the pool as it was,
    appends one digest of 32 bytes to it, or leaves it empty, so the check
    first passes on a pool that is exactly one digest.  In [script.js],
    where nothing resets the pool, its length is 32 times the number of
    digests pushed and the check passes exactly when there is one. *)
Theorem pool_length_multiple_of_32 (ops : list App.Op) :
  let s := App.run ops App.initial in
  let pool := uintArray (App.rng s) in
  (exists k, length pool = (32 * k)%nat)
  /\ ((32 <= length pool)%nat <-> pool <> [])
  /\ (forall op,
        let pool' := uintArray (App.rng (App.exec op s)) in
        (pool' = pool \/ pool' = []
         \/ exists digest, length digest = 32%nat /\ pool' = pool ++ digest)
        /\ (pool = [] -> (32 <= length pool')%nat ->
            exists digest, length digest = 32%nat /\ pool' = digest))
  /\ (forall data,
        let call := processSamples data newAudioRNG in
        length (uintArray call.1) = (32 * length (hashedBatches call.2))%nat
        /\ ((length (uintArray call.1) <? 32)%nat = false
            <-> hashedBatches call.2 <> [])).
Proof.
  intros s pool.
  destruct (run_tracked ops App.initial initial_tracked) as [tr Ht].
  fold s in Ht. pose proof (Tracks_pool_length _ _ Ht) as Hlen. fold pool in Hlen.
  assert (Hstep : forall op,
    let pool' := uintArray (App.rng (App.exec op s)) in
    pool' = pool \/ pool' = []
    \/ exists digest, length digest = 32%nat /\ pool' = pool ++ digest).
  { intros op pool'. subst pool'.
    destruct (exec_rng op s) as [[_ [Hr | (sample & _ & Hr)]] | [_ Hr]]; rewrite Hr.
    - by left.
    - destruct (processSample_pool sample (App.rng s)) as [-> | (d & Hd & ->)];
        [by left | right; right; eauto].
    - right. by left. }
  split; [eauto|]. split.
  { split.
    - intros Hge ->. simpl in Hge. lia.
    - intros Hne. destruct pool; [done|]. cbn [length] in *. lia. }
  split.
  - intros op pool'. split; [apply Hstep|].
    intros Hnil Hge. destruct (Hstep op) as [Hp | [Hp | (d & Hd & Hp)]];
      fold pool' in Hp.
    + rewrite Hp, Hnil in Hge. simpl in Hge. lia.
    + rewrite Hp in Hge. simpl in Hge. lia.
    + exists d. split; [done|]. by rewrite Hp, Hnil.
  - intros data call.
    pose proof (Tracks_processSamples data [] [] _
                  (Tracks_start [] [] ltac:(simpl; lia))) as Hc.
    cbn [app] in Hc. fold newAudioRNG in Hc. fold call in Hc.
    pose proof (Tracks_pool_length _ _ Hc) as Hl. split; [done|].
    rewrite Nat.ltb_ge, Hl. split.
    + intros Hge Hnil. rewrite Hnil in Hge. simpl in Hge. lia.
    + intros Hne. destruct (hashedBatches call.2); [done|]. cbn [length]. lia.
Qed.

End PoolTheorems.

(** ** The chunked grid renderer of [script.js] *)

Lemma uint8ArrayToBits_length pool :
  Z.of_nat (length (Grid.uint8ArrayToBits pool)) = 8 * Z.of_nat (length pool).
Proof.
  unfold Grid.uint8ArrayToBits.
  induction pool as [|byte pool IH]; [reflexivity|].
  cbn [flat_map]. rewrite length_app. cbn [length]. lia.
Qed.

Lemma calculateOptimalChunkSize_bounds vm :
  1000 <= Grid.calculateOptimalChunkSize vm <= 3000.
Proof.
  unfold Grid.calculateOptimalChunkSize.
  repeat case_match; change (2000 / 2) with 1000; change (2000 * 3 / 2) with 3000; lia.
Qed.

Lemma updatePerformanceMetrics_interval updateTime vm :
  Grid.updateInterval vm <= 200 ->
  Grid.updateInterval (Grid.updatePerformanceMetrics updateTime vm) <= 200.
Proof.
  intros Hi. unfold Grid.updatePerformanceMetrics. cbn [Grid.updateInterval].
  repeat case_match; lia.
Qed.

(** The cursor never passes the capacity of the matrix. *)
Lemma drawBitMatrix_capped now updateTime pool vm :
  Grid.lastBitCount vm <= Z.max 0 (Grid.matrixWidth vm * Grid.matrixHeight vm) ->
  Grid.lastBitCount (Grid.drawBitMatrix now updateTime pool vm)
    <= Z.max 0 (Grid.matrixWidth vm * Grid.matrixHeight vm)
  /\ Grid.matrixWidth (Grid.drawBitMatrix now updateTime pool vm) = Grid.matrixWidth vm
  /\ Grid.matrixHeight (Grid.drawBitMatrix now updateTime pool vm) = Grid.matrixHeight vm.
Proof.
  intros Hle. unfold Grid.drawBitMatrix.
  repeat case_match; cbn; (split; [lia | done]).
Qed.

Lemma drawRepeatedly_capped invocations pool : forall vm,
  Grid.lastBitCount vm <= Z.max 0 (Grid.matrixWidth vm * Grid.matrixHeight vm) ->
  Grid.lastBitCount (Grid.drawRepeatedly invocations pool vm)
    <= Z.max 0 (Grid.matrixWidth vm * Grid.matrixHeight vm).
Proof.
  induction invocations as [|[now updateTime] invocations IH]; intros vm Hle; [done|].
  cbn [Grid.drawRepeatedly fold_left fst snd].
  destruct (drawBitMatrix_capped now updateTime pool vm Hle) as (Hc & Hw & Hh).
  rewrite <- Hw, <- Hh. apply IH. by rewrite Hw, Hh.
Qed.

Lemma drawBitMatrix_throttled now updateTime pool vm :
  Grid.adaptiveInterval vm = true ->
  now - Grid.updateThrottle vm < Grid.updateInterval vm ->
  Grid.drawBitMatrix now updateTime pool vm = vm.
Proof.
  intros Ha Hsoon. unfold Grid.drawBitMatrix.
  destruct (Grid.hasCanvas vm); [|done]. cbn [negb]. rewrite Ha. cbn [andb].
  by destruct (Z.ltb_spec (now - Grid.updateThrottle vm) (Grid.updateInterval vm));
    [|lia].
Qed.

(** An invocation that runs, on a renderer on its way: the cursor moves by
    one chunk, or to the end of the pool. *)
Lemma drawBitMatrix_step now updateTime pool vm :
  let total := 8 * Z.of_nat (length pool) in
  Fitting total vm ->
  (Grid.adaptiveInterval vm = true ->
   Grid.updateInterval vm <= now - Grid.updateThrottle vm) ->
  let vm' := Grid.drawBitMatrix now updateTime pool vm in
  Fitting total vm'
  /\ Grid.lastBitCount vm'
     = Z.min total (Grid.lastBitCount vm + Grid.calculateOptimalChunkSize vm).
Proof.
  intros total [Hcanvas Hcur Hfits Hcomp] Hnow vm'. subst vm'.
  pose proof (calculateOptimalChunkSize_bounds vm) as Hchunk.
  unfold Grid.drawBitMatrix. rewrite Hcanvas. cbn [negb].
  destruct (Grid.adaptiveInterval vm && _) eqn:Hthr.
  { apply andb_prop in Hthr as [Ha Hlt]. apply Z.ltb_lt in Hlt.
    specialize (Hnow Ha). lia. }
  rewrite uint8ArrayToBits_length. fold total.
  cbn [Grid.matrixWidth Grid.matrixHeight Grid.lastBitCount Grid.setThrottle
       Grid.isMatrixComplete].
  set (cap := Grid.matrixWidth vm * Grid.matrixHeight vm) in *.
  destruct ((cap <=? Grid.lastBitCount vm) && (cap <? total)) eqn:Hrefresh.
  { apply andb_prop in Hrefresh as [_ Hlt]. apply Z.ltb_lt in Hlt. lia. }
  destruct ((total <=? Grid.lastBitCount vm) || Grid.isMatrixComplete vm) eqn:Hdone.
  { assert (Hlast : Grid.lastBitCount vm = total).
    { apply orb_prop in Hdone as [Hle | Hc]; [apply Z.leb_le in Hle; lia|].
      specialize (Hcomp Hc). lia. }
    split; [by split|]. cbn [Grid.lastBitCount Grid.setThrottle]. lia. }
  apply orb_false_elim in Hdone as [Hlt Hc]. apply Z.leb_gt in Hlt.
  change (Grid.calculateOptimalChunkSize (Grid.setThrottle now vm))
    with (Grid.calculateOptimalChunkSize vm).
  set (chunk := Grid.calculateOptimalChunkSize vm) in *.
  set (last := Z.min (Z.min (Grid.lastBitCount vm
                  + Z.min (total - Grid.lastBitCount vm) chunk) cap) total).
  unfold Grid.updatePerformanceMetrics, Grid.setCursor, Grid.updatePixelsBatch,
         Grid.setThrottle;
    cbn [Grid.hasCanvas Grid.lastBitCount Grid.matrixWidth Grid.matrixHeight
         Grid.isMatrixComplete Grid.updateInterval Grid.adaptiveInterval].
  fold cap. fold last.
  split; [|lia].
  split; cbn [Grid.hasCanvas Grid.lastBitCount Grid.matrixWidth Grid.matrixHeight
              Grid.isMatrixComplete]; fold cap; try (done || lia).
  destruct (cap <=? last) eqn:Hcl; [apply Z.leb_le in Hcl; lia|].
  rewrite Hc. done.
Qed.

Lemma drawRepeatedly_steps pool invocations : forall vm,
  let total := 8 * Z.of_nat (length pool) in
  let n := Z.of_nat (length invocations) in
  Fitting total vm ->
  letThrough invocations pool vm ->
  let vm' := Grid.drawRepeatedly invocations pool vm in
  Fitting total vm'
  /\ Z.min total (Grid.lastBitCount vm + 1000 * n) <= Grid.lastBitCount vm'
     <= Z.min total (Grid.lastBitCount vm + 3000 * n).
Proof.
  induction invocations as [|[now updateTime] invocations IH];
    intros vm total n Hfit Hlet vm'.
  - subst vm' n. cbn. pose proof (fit_cursor _ _ Hfit). split; [done|]. lia.
  - destruct Hlet as [Hnow Hlet]. cbn [fst snd] in *.
    destruct (drawBitMatrix_step now updateTime pool vm Hfit Hnow) as [Hfit1 Hstep].
    pose proof (calculateOptimalChunkSize_bounds vm) as Hchunk.
    destruct (IH _ Hfit1 Hlet) as [Hfit2 Hrest].
    subst vm' n. unfold Grid.drawRepeatedly in *. cbn [fold_left fst snd length].
    split; [done|]. fold total in Hstep, Hrest. lia.
Qed.

(** C6, as the code has it.  On a renderer with its canvas and a pool
    whose bits fit the matrix, with no byte appended in between, every
    invocation that the throttle lets through moves [lastBitCount]
    forward by one chunk (1000 to 3000 bits) or to the total bit count of
    the pool; so [n] such invocations bring it at least [1000 * n] and at
    most [3000 * n] bits forward, and to the total exactly once
    [1000 * n] covers what is left.  An invocation that comes sooner than
    [updateInterval] after the last one that ran changes nothing. *)
Theorem grid_cursor_catches_up (pool : list Z) (invocations : list (Z * Q))
    (vm : Grid.VisualizationManager) :
  let total := 8 * Z.of_nat (length pool) in
  let n := Z.of_nat (length invocations) in
  Fitting total vm ->
  letThrough invocations pool vm ->
  let vm' := Grid.drawRepeatedly invocations pool vm in
  Z.min total (Grid.lastBitCount vm + 1000 * n) <= Grid.lastBitCount vm'
    <= Z.min total (Grid.lastBitCount vm + 3000 * n)
  /\ (total <= Grid.lastBitCount vm + 1000 * n -> Grid.lastBitCount vm' = total)
  /\ (forall now updateTime,
        (Grid.adaptiveInterval vm = true ->
         Grid.updateInterval vm <= now - Grid.updateThrottle vm) ->
        Grid.lastBitCount (Grid.drawBitMatrix now updateTime pool vm)
        = Z.min total (Grid.lastBitCount vm + Grid.calculateOptimalChunkSize vm))
  /\ (forall now updateTime,
        Grid.adaptiveInterval vm = true ->
        now - Grid.updateThrottle vm < Grid.updateInterval vm ->
        Grid.drawBitMatrix now updateTime pool vm = vm).
Proof.
  intros total n Hfit Hlet vm'.
  destruct (drawRepeatedly_steps pool invocations vm Hfit Hlet) as [_ Hsteps].
  fold total n vm' in Hsteps.
  split; [exact Hsteps|]. split; [lia|]. split.
  - intros now updateTime Hnow.
    by destruct (drawBitMatrix_step now updateTime pool vm Hfit Hnow) as [_ Hstep].
  - intros now updateTime. apply drawBitMatrix_throttled.
Qed.

Lemma grid_cursor_catches_up_witness :
  let pool := replicate 500 171 in
  let vm := Grid.newVisualizationManager 200 100 in
  Grid.lastBitCount
    (Grid.drawRepeatedly [(50, 1%Q); (100, 1%Q); (150, 1%Q); (200, 1%Q)] pool vm)
  = 4000
  /\ Grid.lastBitCount (Grid.drawBitMatrix 50 1%Q pool vm) = 3000
  /\ Grid.drawBitMatrix 40 1%Q pool vm = vm.
Proof.
  cbn zeta.
  destruct (grid_cursor_catches_up (replicate 500 171)
              [(50, 1%Q); (100, 1%Q); (150, 1%Q); (200, 1%Q)]
              (Grid.newVisualizationManager 200 100))
    as (_ & Hreach & Hstep & Hsoon).
  - split; cbn [Grid.newVisualizationManager Grid.hasCanvas Grid.lastBitCount
                Grid.matrixWidth Grid.matrixHeight Grid.isMatrixComplete];
      rewrite ?length_replicate; (done || lia).
  - vm_compute. repeat split; intros _; discriminate.
  - split; [|split].
    + rewrite Hreach; rewrite length_replicate; [reflexivity|].
      cbn [Grid.newVisualizationManager Grid.lastBitCount length]. lia.
    + rewrite Hstep; [rewrite length_replicate; reflexivity|].
      intros _. cbn [Grid.newVisualizationManager Grid.updateInterval
                     Grid.updateThrottle]. lia.
    + apply Hsoon; [reflexivity|].
      cbn [Grid.newVisualizationManager Grid.updateInterval Grid.updateThrottle]. lia.
Defined.

(** C6, as the claim states it, fails: with a pool of 79 digests (2528
    bytes, 20224 bits) and the matrix of 200 by 100 cells of [script.js],
    no sequence of invocations ever brings [lastBitCount] to 20224; it stays
    at or below the 20000 cells of the matrix. *)
Lemma grid_cursor_stuck_below_pool :
  ~ exists invocations : list (Z * Q),
      Grid.lastBitCount
        (Grid.drawRepeatedly invocations (replicate 2528 0)
           (Grid.newVisualizationManager 200 100))
      = 8 * Z.of_nat (length (replicate 2528 0 : list Z)).
Proof.
  intros [invocations Heq].
  pose proof (drawRepeatedly_capped invocations (replicate 2528 0)
                (Grid.newVisualizationManager 200 100)) as Hcap.
  cbn [Grid.lastBitCount Grid.matrixWidth Grid.matrixHeight
       Grid.newVisualizationManager] in Hcap.
  specialize (Hcap ltac:(lia)).
  rewrite Heq, length_replicate in Hcap. lia.
Qed.

(** ** The waterfall renderer *)

Section Scrolling.
Context {A : Type}.
Implicit Types (g : list A).

Lemma fold_left_seqZ {B} (f : B -> Z -> B) (h : Z) (b : B) :
  fold_left f (seqZ 0 h) b
  = fold_left (fun acc k => f acc (Z.of_nat k)) (seq 0 (Z.to_nat h)) b.
Proof.
  unfold seqZ. generalize (seq 0 (Z.to_nat h)). intros l. revert b.
  induction l as [|k l IH]; intros b; [done|].
  cbn [fmap list_fmap fold_left]. rewrite Z.add_0_r. apply IH.
Qed.

(** Copying rows [0..n-1] onto rows [1..n]: the first row stays. *)
Lemma scroll_down_rows g n :
  (S n <= length g)%nat ->
  fold_left (fun acc k => match g !! k with
                          | Some row => <[S k := row]> acc
                          | None => acc
                          end) (seq 0 n) g
  = take 1 g ++ take n g ++ drop (S n) g.
Proof.
  induction n as [|n IH]; intros Hn.
  - cbn [seq fold_left]. replace (take 0 g) with (@nil A) by done.
    rewrite app_nil_l. by rewrite take_drop.
  - rewrite seq_S, fold_left_app, IH by lia. cbn [Nat.add fold_left].
    destruct (lookup_lt_is_Some_2 g n ltac:(lia)) as [row Hrow]. rewrite Hrow.
    assert (H1 : length (take 1 g) = 1%nat) by (rewrite length_take; lia).
    assert (H2 : length (take n g) = n) by (rewrite length_take; lia).
    rewrite (insert_app_r_alt (take 1 g)) by lia. rewrite H1.
    rewrite (insert_app_r_alt (take n g)) by lia. rewrite H2.
    replace (S n - 1 - n)%nat with 0%nat by lia.
    destruct (drop (S n) g) as [|x rest] eqn:Hd.
    { apply (f_equal length) in Hd. rewrite length_drop in Hd. simpl in Hd. lia. }
    cbn [insert list_insert].
    rewrite (take_S_r g n row Hrow), <- app_assoc. cbn [app].
    do 3 f_equal.
    replace (S (S n)) with (S n + 1)%nat by lia.
    rewrite <- drop_drop, Hd. done.
Qed.

(** Copying rows [1..n] onto rows [0..n-1]: the last row stays. *)
Lemma scroll_up_rows g n :
  (S n <= length g)%nat ->
  fold_left (fun acc k => match g !! S k with
                          | Some row => <[k := row]> acc
                          | None => acc
                          end) (seq 0 n) g
  = take n (drop 1 g) ++ drop n g.
Proof.
  induction n as [|n IH]; intros Hn.
  - done.
  - rewrite seq_S, fold_left_app, IH by lia. cbn [Nat.add fold_left].
    destruct (lookup_lt_is_Some_2 g (S n) ltac:(lia)) as [row Hrow]. rewrite Hrow.
    assert (H1 : length (take n (drop 1 g)) = n).
    { rewrite length_take, length_drop. lia. }
    rewrite insert_app_r_alt by lia. rewrite H1, Nat.sub_diag.
    destruct (drop n g) as [|x rest] eqn:Hd.
    { apply (f_equal length) in Hd. rewrite length_drop in Hd. simpl in Hd. lia. }
    cbn [insert list_insert].
    assert (Hrow' : drop 1 g !! n = Some row).
    { rewrite lookup_drop. exact Hrow. }
    rewrite (take_S_r _ n row Hrow'), <- app_assoc. cbn [app].
    do 2 f_equal.
    replace (S n) with (n + 1)%nat by lia.
    rewrite <- drop_drop, Hd. done.
Qed.

Lemma removelast_take g : removelast g = take (length g - 1) g.
Proof.
  rewrite removelast_firstn_len. f_equal. lia.
Qed.

End Scrolling.

Lemma fold_left_pointwise {A B} (f f' : A -> B -> A) (l : list B) : forall a,
  (forall acc b, f acc b = f' acc b) -> fold_left f l a = fold_left f' l a.
Proof.
  induction l as [|b l IH]; intros a Hf; [done|].
  cbn [fold_left]. rewrite Hf. by apply IH.
Qed.

Lemma drawImageRows_down (g : list (list Waterfall.Color)) :
  (1 <= length g)%nat ->
  Waterfall.drawImageRows 0 1 (Z.of_nat (length g) - 1) g
  = take 1 g ++ removelast g.
Proof.
  intros Hg. unfold Waterfall.drawImageRows. rewrite fold_left_seqZ.
  replace (Z.to_nat (Z.of_nat (length g) - 1)) with (length g - 1)%nat by lia.
  transitivity (take 1 g ++ take (length g - 1) g ++ drop (S (length g - 1)) g).
  2:{ rewrite drop_ge by lia. by rewrite app_nil_r, removelast_take. }
  rewrite <- scroll_down_rows by lia.
  apply fold_left_pointwise. intros acc k. unfold Js.get.
  assert ((0 + Z.of_nat k <? 0) = false) as -> by (apply Z.ltb_ge; lia).
  assert ((1 + Z.of_nat k <? 0) = false) as -> by (apply Z.ltb_ge; lia).
  replace (Z.to_nat (0 + Z.of_nat k)) with k by lia.
  replace (Z.to_nat (1 + Z.of_nat k)) with (S k) by lia.
  done.
Qed.

Lemma drawImageRows_up (g : list (list Waterfall.Color)) :
  (1 <= length g)%nat ->
  Waterfall.drawImageRows 1 0 (Z.of_nat (length g) - 1) g
  = tail g ++ drop (length g - 1) g.
Proof.
  intros Hg. unfold Waterfall.drawImageRows. rewrite fold_left_seqZ.
  replace (Z.to_nat (Z.of_nat (length g) - 1)) with (length g - 1)%nat by lia.
  replace (tail g) with (take (length g - 1) (drop 1 g)).
  2:{ destruct g; [done|]. cbn [drop tail length]. apply take_ge. lia. }
  rewrite <- scroll_up_rows by lia.
  apply fold_left_pointwise. intros acc k. unfold Js.get.
  assert ((1 + Z.of_nat k <? 0) = false) as -> by (apply Z.ltb_ge; lia).
  assert ((0 + Z.of_nat k <? 0) = false) as -> by (apply Z.ltb_ge; lia).
  replace (Z.to_nat (1 + Z.of_nat k)) with (S k) by lia.
  replace (Z.to_nat (0 + Z.of_nat k)) with k by lia.
  done.
Qed.

Lemma commitRow_offscreen vm bitsRow :
  Waterfall.matrixHeight vm = Z.of_nat (length (Waterfall.offscreen vm)) ->
  0 < Waterfall.matrixHeight vm ->
  Waterfall.offscreen (Waterfall.commitRow bitsRow vm)
  = if Waterfall.newestOnTop vm
    then Waterfall.rowPixels vm bitsRow :: removelast (Waterfall.offscreen vm)
    else tail (Waterfall.offscreen vm) ++ [Waterfall.rowPixels vm bitsRow].
Proof.
  intros Hh Hpos. unfold Waterfall.commitRow.
  set (g := Waterfall.offscreen vm) in *.
  assert (Hg : (1 <= length g)%nat) by lia.
  destruct (Waterfall.newestOnTop vm); cbn [Waterfall.offscreen Waterfall.setOffscreen];
    rewrite Hh; unfold Waterfall.putRow.
  - rewrite drawImageRows_down by done. cbn [Z.ltb Z.compare Z.to_nat].
    destruct g as [|row0 g']; [simpl in Hg; lia|]. done.
  - rewrite drawImageRows_up by done.
    assert ((Z.of_nat (length g) - 1 <? 0) = false) as -> by (apply Z.ltb_ge; lia).
    replace (Z.to_nat (Z.of_nat (length g) - 1)) with (length g - 1)%nat by lia.
    assert (Ht : length (tail g) = (length g - 1)%nat).
    { destruct g; simpl; lia. }
    rewrite insert_app_r_alt by lia. rewrite Ht, Nat.sub_diag.
    destruct (drop (length g - 1) g) as [|x rest] eqn:Hd.
    { apply (f_equal length) in Hd. rewrite length_drop in Hd. simpl in Hd. lia. }
    apply (f_equal length) in Hd. rewrite length_drop in Hd. cbn [length] in Hd.
    destruct rest; [done | simpl in Hd; lia].
Qed.

(** C7. A committed row scrolls the grid by one row away from the
    insertion edge, drops the row at the opposite edge, and is written at
    the insertion edge: on top when [newestOnTop], else at the bottom.
    With width 4 and height 2 and the newest row on top, the rows 1,0,1,0
    and then 0,1,0,1 leave the grid, top to bottom, as 0,1,0,1 and 1,0,1,0;
    so does drawing the byte 165, whose bits they are. *)
Theorem waterfall_commit_row (vm : Waterfall.VisualizationManager)
    (bitsRow : list Z) :
  Waterfall.matrixHeight vm = Z.of_nat (length (Waterfall.offscreen vm)) ->
  0 < Waterfall.matrixHeight vm ->
  Waterfall.offscreen (Waterfall.commitRow bitsRow vm)
  = (if Waterfall.newestOnTop vm
     then Waterfall.rowPixels vm bitsRow :: removelast (Waterfall.offscreen vm)
     else tail (Waterfall.offscreen vm) ++ [Waterfall.rowPixels vm bitsRow])
  /\ (let vm0 := Waterfall.setMatrixSize 4 2 2 (Waterfall.newVisualizationManager true) in
      Waterfall.newestOnTop vm0 = true
      /\ Waterfall.gridBits
           (Waterfall.commitRow [0; 1; 0; 1] (Waterfall.commitRow [1; 0; 1; 0] vm0))
         = [[0; 1; 0; 1]; [1; 0; 1; 0]]
      /\ Waterfall.gridBits (Waterfall.drawBitMatrix [165] vm0)
         = [[0; 1; 0; 1]; [1; 0; 1; 0]]).
Proof.
  intros Hh Hpos. split; [by apply commitRow_offscreen|].
  vm_compute. repeat split; reflexivity.
Qed.

Lemma waterfall_commit_row_witness :
  Waterfall.gridBits
    (Waterfall.commitRow [0; 1; 0; 1]
       (Waterfall.commitRow [1; 0; 1; 0]
          (Waterfall.setMatrixSize 4 2 2 (Waterfall.newVisualizationManager true))))
  = [[0; 1; 0; 1]; [1; 0; 1; 0]].
Proof.
  pose proof (waterfall_commit_row
                (Waterfall.setMatrixSize 4 2 2 (Waterfall.newVisualizationManager true))
                [1; 0; 1; 0] eq_refl eq_refl) as [_ (_ & Hgrid & _)].
  exact Hgrid.
Defined.

(** In the waterfall revision one invocation brings the cursor to the
    total bit count of the pool, in either render mode. *)
Lemma waterfall_cursor_catches_up (pool : list Z)
    (vm : Waterfall.VisualizationManager) :
  Waterfall.hasCanvas vm = true ->
  Waterfall.lastBitCount vm <= Z.of_nat (length pool) * 8 ->
  Waterfall.lastBitCount (Waterfall.drawBitMatrix pool vm)
  = Z.of_nat (length pool) * 8.
Proof.
  intros Hc Hle. unfold Waterfall.drawBitMatrix, Waterfall._drawBitWaterfall,
    Waterfall._drawBitGrid.
  rewrite Hc. cbn [negb].
  destruct (Waterfall.renderMode vm);
    destruct (Z.leb_spec (Z.of_nat (length pool) * 8) (Waterfall.lastBitCount vm));
    cbn [Waterfall.lastBitCount Waterfall.setLastBitCount]; lia.
Qed.

Lemma waterfall_cursor_catches_up_witness :
  Waterfall.lastBitCount
    (Waterfall.drawBitMatrix [165; 90] (Waterfall.newVisualizationManager true))
  = 16.
Proof.
  apply (waterfall_cursor_catches_up [165; 90] (Waterfall.newVisualizationManager true)).
  - reflexivity.
  - vm_compute. discriminate.
Defined.

(** ** The consumers of [script.js] *)

Section ConsumerFacts.
Import Consumers.

(** Every value of a field gives a length, a count and a size within the
    bounds: a number other than 0 is clamped to the nearest bound; 0, a
    text that is not a number and a blank field give the default 16, 100
    or 1024. *)
Lemma configuration_clamped (pw : PasswordForm) (nums : NumbersForm)
    (fileSizeEl : Field) :
  8 <= pwLengthOf pw <= 64
  /\ 1 <= numCountOf nums <= 10000
  /\ 1 <= fileSizeOf fileSizeEl <= 10485760
  /\ fileSizeOf fileSizeEl
     = match fileSizeEl with
       | Text (Some n) => if n =? 0 then 1024 else Z.max 1 (Z.min 10485760 n)
       | Text None | Blank => 1024
       end
  /\ pwLengthOf pw
     = match pwLengthEl pw with
       | Text (Some n) => if n =? 0 then 16 else Z.max 8 (Z.min 64 n)
       | Text None | Blank => 16
       end
  /\ numCountOf nums
     = match numCountEl nums with
       | Text (Some n) => if n =? 0 then 100 else Z.max 1 (Z.min 10000 n)
       | Text None | Blank => 100
       end.
Proof.
  unfold pwLengthOf, numCountOf, fileSizeOf.
  repeat split; try lia.
  - by destruct fileSizeEl as [|[[]|]].
  - by destruct (pwLengthEl pw) as [|[[]|]].
  - by destruct (numCountEl nums) as [|[[]|]].
Qed.

(** With nothing ticked, or with [min >= max] as the code reads the fields
    (0 and what is not a number replaced by the defaults 0 and 255), a
    status is shown and nothing is generated. *)
Lemma unsatisfiable_configuration (pw : PasswordForm) (nums : NumbersForm)
    (pool : list Z) :
  (chkUpper pw || chkLower pw || chkNums pw || chkSyms pw = false ->
   generatePassword pw pool
   = if (length pool <? 32)%nat then PwNotEnough else PwNoCharset)
  /\ (numMaxOf nums <= numMinOf nums ->
      generateNumbers nums pool
      = if (length pool <? 32)%nat then NumNotEnough else NumRangeError).
Proof.
  split.
  - intros Hnone. unfold generatePassword, charsetOf.
    destruct (chkUpper pw), (chkLower pw), (chkNums pw), (chkSyms pw);
      try discriminate.
    reflexivity.
  - intros Hle. unfold generateNumbers.
    destruct (length pool <? 32)%nat; [done|].
    destruct (Z.leb_spec (numMaxOf nums) (numMinOf nums)); [done | lia].
Qed.

Lemma unsatisfiable_configuration_witness :
  generatePassword (mkPasswordForm Blank false false false false) (seqZ 0 32)
  = PwNoCharset
  /\ generateNumbers (mkNumbersForm Blank (Text (Some 9)) (Text (Some 4))) (seqZ 0 32)
     = NumRangeError.
Proof.
  destruct (unsatisfiable_configuration
              (mkPasswordForm Blank false false false false)
              (mkNumbersForm Blank (Text (Some 9)) (Text (Some 4)))
              (seqZ 0 32)) as [Hpw Hnum].
  split; [apply Hpw; reflexivity | apply Hnum; vm_compute; discriminate].
Defined.

(** Below the thresholds the code checks a status is shown and nothing is
    generated: below 32 bytes for a password and for numbers; below the
    file size, whatever the pool holds, for a file, whose request then
    waits for that size. *)
Lemma below_threshold_reported (pw : PasswordForm) (nums : NumbersForm)
    (fileSizeEl : Field) (fg : FileGenerator) (pool : list Z) :
  ((length pool < 32)%nat ->
   generatePassword pw pool = PwNotEnough
   /\ generateNumbers nums pool = NumNotEnough)
  /\ (Z.of_nat (length pool) < fileSizeOf fileSizeEl ->
      generateFile fileSizeEl pool fg
      = (mkFileGenerator (generatedFile fg) true (fileSizeOf fileSizeEl),
         FileCollecting)).
Proof.
  unfold generatePassword, generateNumbers, generateFile. split.
  - intros Hlt. by destruct (Nat.ltb_spec (length pool) 32); [|lia].
  - intros Hsize.
    by destruct (Z.ltb_spec (Z.of_nat (length pool)) (fileSizeOf fileSizeEl)); [|lia].
Qed.

Lemma below_threshold_reported_witness :
  (generatePassword (mkPasswordForm Blank true true true true) [7; 7; 7] = PwNotEnough
   /\ generateNumbers (mkNumbersForm Blank Blank Blank) [7; 7; 7] = NumNotEnough)
  /\ generateFile Blank (seqZ 0 40) newFileGenerator
     = (mkFileGenerator None true 1024, FileCollecting).
Proof.
  split.
  - apply (below_threshold_reported (mkPasswordForm Blank true true true true)
             (mkNumbersForm Blank Blank Blank) Blank newFileGenerator [7; 7; 7]).
    simpl. lia.
  - apply (below_threshold_reported (mkPasswordForm Blank true true true true)
             (mkNumbersForm Blank Blank Blank) Blank newFileGenerator (seqZ 0 40)).
    vm_compute. reflexivity.
Defined.

(** When the pool holds fewer bytes than the password is long, the index
    [(i + len - pwLength) % len] is negative for the first characters and
    the text of [undefined] is appended for them. *)
Lemma passwordPiece_undefined charset (pool : list Z) (pwLength i : Z) :
  let len := Z.of_nat (length pool) in
  - len < i + len - pwLength < 0 ->
  passwordPiece charset pool pwLength i = "undefined"%string.
Proof.
  intros len Hneg. unfold passwordPiece, Js.get, Js.rem. fold len.
  assert (Hrem : Z.rem (i + len - pwLength) len = i + len - pwLength).
  { replace (i + len - pwLength) with (- (pwLength - i - len)) by lia.
    rewrite Z.rem_opp_l' by lia. rewrite Z.rem_small by lia. done. }
  rewrite Hrem.
  assert ((i + len - pwLength <? 0) = true) as -> by (apply Z.ltb_lt; lia).
  done.
Qed.

End ConsumerFacts.

Section ConsumerFindings.
Import Consumers.

Lemma string_get_Some (s : string) : forall k : nat,
  (k < String.length s)%nat -> exists c, String.get k s = Some c.
Proof.
  induction s as [|a s IH]; intros k Hk; [simpl in Hk; lia|].
  destruct k as [|k]; [by exists a|].
  cbn [String.get]. apply IH. simpl in Hk. lia.
Qed.

(** When the pool holds at least as many bytes as the password is long,
    every piece is a character of the charset. *)
Lemma passwordPiece_character charset (pool : list Z) (pwLength i : Z) :
  let len := Z.of_nat (length pool) in
  0 <= i < pwLength -> pwLength <= len ->
  Forall (fun b => 0 <= b) pool ->
  String.length charset <> 0%nat ->
  exists (k : nat) (c : ascii),
    String.get k charset = Some c
    /\ passwordPiece charset pool pwLength i = String c EmptyString.
Proof.
  intros len Hi Hlen Hpool Hcs. unfold passwordPiece, Js.get, Js.rem, Js.charAt.
  fold len. rewrite Z.rem_small by lia.
  assert ((i + len - pwLength <? 0) = false) as -> by (apply Z.ltb_ge; lia).
  destruct (lookup_lt_is_Some_2 pool (Z.to_nat (i + len - pwLength)) ltac:(lia))
    as [r Hr].
  rewrite Hr.
  assert (Hr0 : 0 <= r).
  { rewrite Forall_forall in Hpool. apply Hpool.
    apply list_elem_of_In. eapply list_elem_of_lookup_2. exact Hr. }
  set (n := Z.of_nat (String.length charset)).
  pose proof (Z.rem_bound_pos r n Hr0 ltac:(lia)) as Hb.
  assert ((Z.rem r n <? 0) = false) as -> by (apply Z.ltb_ge; lia).
  destruct (string_get_Some charset (Z.to_nat (Z.rem r n)) ltac:(lia)) as [c Hc].
  exists (Z.to_nat (Z.rem r n)), c. by rewrite Hc.
Qed.

(** C8 at the failing input: a pool of 32 bytes, as right after the first
    digest, and a password of 33 characters.  The check for 32 bytes
    passes, no status is reported, and the password starts with the text
    of [undefined]. *)
Theorem password_from_short_pool :
  (length (seqZ 0 32) < 33)%nat
  /\ pwLengthOf (mkPasswordForm (Text (Some 33)) true false false false) = 33
  /\ generatePassword (mkPasswordForm (Text (Some 33)) true false false false)
                      (seqZ 0 32)
     = PwGenerated "undefinedABCDEFGHIJKLMNOPQRSTUVWXYZABCDEF".
Proof.
  split; [vm_compute; lia|]. split; reflexivity.
Qed.

(** The same with the longest password the form allows: 31 of the 64
    pieces are the text of [undefined]. *)
Lemma longest_password_from_short_pool :
  generatePassword (mkPasswordForm (Text (Some 64)) true false false false)
                   (seqZ 0 32)
  = PwGenerated
      (String.append "A"
        (String.append
          (String.concat "" (replicate 31 "undefined"%string))
          "ABCDEFGHIJKLMNOPQRSTUVWXYZABCDEF")).
Proof. vm_compute. reflexivity. Qed.

(** The standalone password page refuses the same request: it checks the
    pool against the password length before it generates. *)
Lemma standalone_needs_more_data :
  Standalone.generatePassword
    (mkPasswordForm (Text (Some 33)) true false false false) (seqZ 0 32)
  = Standalone.NeedMore 32 33.
Proof. reflexivity. Qed.

(** C9 at the failing input: with enough data, a minimum of 5 and a
    maximum of 0, the 0 is read as "no value" and replaced by 255, no error
    is reported and numbers are generated. *)
Theorem numbers_with_zero_maximum :
  numMaxOf (mkNumbersForm (Text (Some 3)) (Text (Some 5)) (Text (Some 0))) = 255
  /\ generateNumbers (mkNumbersForm (Text (Some 3)) (Text (Some 5)) (Text (Some 0)))
                     (seqZ 0 32)
     = NumGenerated [Some 5; Some 6; Some 7].
Proof. split; reflexivity. Qed.

(** The waterfall revision reads the same fields as
    [parseInt(value || "255")]: there the maximum 0 is kept and the range is
    refused. *)
Lemma revised_numbers_with_zero_maximum :
  (App.generateNumbers
     (mkNumbersForm (Text (Some 3)) (Text (Some 5)) (Text (Some 0)))
     (App.mkState (mkAudioRNG [] [] [] (seqZ 0 32))
                  (Waterfall.newVisualizationManager true) newFileGenerator 0)).2
  = NumRangeError.
Proof. reflexivity. Qed.

End ConsumerFindings.

(** ** The grid of [script.js] on the scenario of the scrolling grid *)

(** The grid renderer of [script.js] has no insertion edge: it fills the
    matrix from the top, so the rows 1,0,1,0 and 0,1,0,1 of the byte 165
    stay in the order of arrival. *)
Lemma grid_rows_in_arrival_order :
  Grid.gridRows
    (Grid.drawBitMatrix 1000 1%Q [165] (Grid.newVisualizationManager 4 2))
  = [[1; 0; 1; 0]; [0; 1; 0; 1]].
Proof. vm_compute. reflexivity. Qed.

(** ** The pipeline end to end *)

Section EndToEnd.
Context `{SubtleCrypto}.

(** What is hashed is the UTF-8 text of the batch: a byte below 128 is one
    byte of the message, a byte from 128 on is two. *)
Lemma encoded_batch_length (batch : list Z) :
  Forall (fun b => 0 <= b < 256) batch ->
  (length batch <= length (Js.encode (Js.fromCharCode batch)) <= 2 * length batch)%nat.
Proof.
  induction 1 as [|b batch Hb _ IH]; [simpl; lia|].
  unfold Js.encode, Js.fromCharCode in *. cbn [map flat_map].
  rewrite length_app.
  assert (Hu : (1 <= length (Js.utf8 (b mod 2 ^ 16)) <= 2)%nat).
  { rewrite Z.mod_small by lia. unfold Js.utf8.
    destruct (b <? 128); [simpl; lia|].
    destruct (Z.ltb_spec b 2048); [simpl; lia | lia]. }
  cbn [length]. lia.
Qed.

End EndToEnd.

(** The grid of the waterfall keeps its height. *)
Lemma commitRow_height vm bitsRow :
  Waterfall.matrixHeight vm = Z.of_nat (length (Waterfall.offscreen vm)) ->
  0 < Waterfall.matrixHeight vm ->
  length (Waterfall.offscreen (Waterfall.commitRow bitsRow vm))
  = length (Waterfall.offscreen vm).
Proof.
  intros Hh Hpos. rewrite commitRow_offscreen by done.
  destruct (Waterfall.offscreen vm) as [|row0 g] eqn:Hg; [simpl in Hh; lia|].
  destruct (Waterfall.newestOnTop vm).
  - cbn [length]. rewrite removelast_take, length_take. cbn [length]. lia.
  - cbn [tail]. rewrite length_app. cbn [length]. lia.
Qed.

Lemma passwordPiece_undefined_witness :
  Consumers.passwordPiece "AB" (seqZ 0 32) 33 0 = "undefined"%string.
Proof.
  apply (passwordPiece_undefined "AB" (seqZ 0 32) 33 0).
  vm_compute. split; reflexivity.
Defined.

Lemma passwordPiece_character_witness :
  exists (k : nat) (c : ascii),
    String.get k "AB" = Some c
    /\ Consumers.passwordPiece "AB" [0; 1; 2] 2 0 = String c EmptyString.
Proof.
  apply (passwordPiece_character "AB" [0; 1; 2] 2 0).
  - lia.
  - simpl. lia.
  - repeat constructor; lia.
  - simpl. discriminate.
Defined.

(** ** What the buffers hold, and how much the pipeline can give *)

Lemma list_pair_ind {A} (P : list A -> Prop) :
  P [] -> (forall x, P [x]) -> (forall x y l, P l -> P (x :: y :: l)) ->
  forall l, P l.
Proof.
  intros Hnil Hone Hpair.
  assert (Hboth : forall l, P l /\ forall x, P (x :: l)).
  { induction l as [|y l [IH1 IH2]]; [split; [done | apply Hone]|].
    split; [apply IH2|]. intros x. by apply Hpair. }
  intros l. apply Hboth.
Qed.

Lemma pairOutput_bits b1 b2 : Forall isBit (pairOutput b1 b2).
Proof.
  unfold pairOutput, isBit.
  destruct b1 as [|[]|], b2 as [|[]|]; repeat constructor; lia.
Qed.

Lemma pairOutput_length b1 b2 : (length (pairOutput b1 b2) <= 1)%nat.
Proof.
  unfold pairOutput. destruct b1 as [|[]|], b2 as [|[]|]; simpl; lia.
Qed.

Lemma pairOutput_tests b1 b2 :
  pairOutput b1 b2
  = if (b1 =? 0) && (b2 =? 1) then [0]
    else if (b1 =? 1) && (b2 =? 0) then [1] else [].
Proof.
  unfold pairOutput. destruct b1 as [|[]|], b2 as [|[]|]; reflexivity.
Qed.

Lemma pairOutput_flip b1 b2 :
  pairOutput (1 - b1) (1 - b2) = map (fun b => 1 - b) (pairOutput b1 b2).
Proof.
  rewrite !pairOutput_tests.
  destruct (Z.eqb_spec b1 0), (Z.eqb_spec b1 1), (Z.eqb_spec b2 0),
           (Z.eqb_spec b2 1), (Z.eqb_spec (1 - b1) 0), (Z.eqb_spec (1 - b1) 1),
           (Z.eqb_spec (1 - b2) 0), (Z.eqb_spec (1 - b2) 1);
    try lia; reflexivity.
Qed.

Lemma vonNeumannSpec_bits bits : Forall isBit (vonNeumannSpec bits).
Proof.
  induction bits as [|x|x y l IH] using list_pair_ind; [constructor..|].
  cbn [vonNeumannSpec]. apply Forall_app. split; [apply pairOutput_bits | exact IH].
Qed.

Lemma vonNeumannSpec_length bits :
  (length (vonNeumannSpec bits) <= length bits / 2)%nat.
Proof.
  induction bits as [|x|x y l IH] using list_pair_ind; [simpl; lia..|].
  cbn [vonNeumannSpec length]. rewrite length_app.
  pose proof (pairOutput_length x y).
  replace (S (S (length l))) with (1 * 2 + length l)%nat by lia.
  rewrite Nat.div_add_l by lia. lia.
Qed.

Lemma vonNeumannSpec_flip bits :
  vonNeumannSpec (map (fun b => 1 - b) bits)
  = map (fun b => 1 - b) (vonNeumannSpec bits).
Proof.
  induction bits as [|x|x y l IH] using list_pair_ind; [reflexivity..|].
  cbn [vonNeumannSpec map]. by rewrite map_app, pairOutput_flip, IH.
Qed.

Lemma rawBit_flip sample : rawBit (Z.lxor sample 1) = 1 - rawBit sample.
Proof.
  rewrite !rawBit_mod2. unfold Js.ToInt32.
  assert (Hmod : forall z, ((z + 2 ^ 31) mod 2 ^ 32 - 2 ^ 31) mod 2 = z mod 2).
  { intros z.
    pose proof (Z.div_mod (z + 2 ^ 31) (2 ^ 32) ltac:(lia)) as Hdm.
    replace ((z + 2 ^ 31) mod 2 ^ 32 - 2 ^ 31)
      with (z + (- (2 ^ 31 * ((z + 2 ^ 31) / 2 ^ 32))) * 2) by lia.
    apply Z.mod_add. lia. }
  rewrite !Hmod.
  rewrite <- !Z.bit0_mod, Z.lxor_spec. change (Z.testbit 1 0) with true.
  destruct (Z.testbit sample 0); reflexivity.
Qed.

Lemma bitsToUint8_byte (g : list Z) :
  length g = 8%nat -> Forall isBit g -> isByte (bitsToUint8 g).
Proof.
  intros Hlen Hbits.
  do 9 (destruct g as [|? g]; try discriminate Hlen).
  repeat match goal with
         | H : Forall isBit (_ :: _) |- _ => inversion H; subst; clear H
         end.
  unfold isBit in *.
  repeat match goal with
         | H : _ \/ _ |- _ => destruct H; subst
         end;
    vm_compute; split; congruence.
Qed.

Section PipelineInvariants.
Context `{SubtleCrypto}.

(** From the start, whatever the samples: the carried raw bit and the
    accumulated debiased bits are 0 or 1, the bytes of the batch and of the
    pool are within 0..255. *)
Lemma buffers_hold_bits_and_bytes (data : list Z) :
  let call := processSamples data newAudioRNG in
  Forall isBit (rawBitBuffer call.1)
  /\ Forall isBit (finalBitBuffer call.1)
  /\ Forall isByte (collectedNumbers call.1)
  /\ Forall isByte (uintArray call.1).
Proof.
  intros call.
  pose proof (Tracks_processSamples data [] [] _
                (Tracks_start [] [] ltac:(simpl; lia))) as Ht.
  cbn [app] in Ht. fold newAudioRNG in Ht. fold call in Ht.
  destruct Ht as [_ Hfin Hbytes Hcol Hhash Hpool].
  destruct (processSamples_debiased data newAudioRNG ltac:(simpl; lia)) as [Hdeb _].
  cbn [rawBitBuffer newAudioRNG app] in Hdeb. fold call in Hdeb.
  assert (Hbits : Forall isBit (debiasedBits call.2)).
  { rewrite Hdeb. apply vonNeumannSpec_bits. }
  assert (Hass : Forall isByte (assembledBytes call.2)).
  { rewrite Hbytes. apply Forall_forall. intros v Hv.
    apply in_map_iff in Hv as (g & <- & Hg).
    apply bitsToUint8_byte; [by apply groups_each in Hg|].
    unfold groups in Hg. apply in_map_iff in Hg as (k & <- & _).
    by apply Forall_take, Forall_drop. }
  repeat split.
  - subst call. rewrite (processSamples_carry data newAudioRNG) by (simpl; lia).
    destruct (Nat.even _); constructor; [|constructor].
    cbn [rawBitBuffer newAudioRNG app]. rewrite last_map_rawBit.
    apply rawBit_bit.
  - rewrite Hfin. unfold leftover. by apply Forall_drop.
  - rewrite Hcol. unfold leftover. by apply Forall_drop.
  - rewrite Hpool, Hhash. cbn [app]. rewrite map_map. cbn [snd].
    apply Forall_concat. apply Forall_forall. intros d Hd.
    apply in_map_iff in Hd as (g & <- & _). apply digest_SHA256_bytes.
Qed.

(** The Von Neumann extractor gives at most one bit per two samples, so
    the pool holds at most 32 bytes per 16000 samples processed. *)
Lemma pipeline_yield (data : list Z) :
  let call := processSamples data newAudioRNG in
  (length (debiasedBits call.2) <= length data / 2)%nat
  /\ (length (assembledBytes call.2) <= length data / 16)%nat
  /\ (length (uintArray call.1) <= 32 * (length data / (16 * 1000)))%nat.
Proof.
  intros call.
  pose proof (Tracks_processSamples data [] [] _
                (Tracks_start [] [] ltac:(simpl; lia))) as Ht.
  cbn [app] in Ht. fold newAudioRNG in Ht. fold call in Ht.
  pose proof (Tracks_pool_length _ _ Ht) as Hpool.
  destruct Ht as [_ _ Hbytes _ Hhash _].
  destruct (processSamples_debiased data newAudioRNG ltac:(simpl; lia)) as [Hdeb _].
  cbn [rawBitBuffer newAudioRNG app] in Hdeb. fold call in Hdeb.
  assert (H1 : (length (debiasedBits call.2) <= length data / 2)%nat).
  { rewrite Hdeb. etransitivity; [apply vonNeumannSpec_length|].
    by rewrite length_map. }
  assert (H2 : (length (assembledBytes call.2) <= length data / 16)%nat).
  { rewrite Hbytes, length_map, groups_length.
    change 16%nat with (2 * 8)%nat. rewrite <- Nat.Div0.div_div.
    by apply Nat.Div0.div_le_mono. }
  repeat split; [done..|].
  rewrite Hpool, Hhash, length_map, groups_length.
  apply Nat.mul_le_mono_l.
  rewrite <- Nat.Div0.div_div.
  by apply Nat.Div0.div_le_mono.
Qed.

(** Complementing the low bit of every sample complements every debiased
    bit: the extractor treats 0 and 1 alike. *)
Lemma extractor_symmetric (data final collected pool : list Z) :
  let r := mkAudioRNG [] final collected pool in
  debiasedBits (processSamples (map (fun s => Z.lxor s 1) data) r).2
  = map (fun b => 1 - b) (debiasedBits (processSamples data r).2).
Proof.
  intros r.
  destruct (processSamples_debiased data r ltac:(simpl; lia)) as [-> _].
  destruct (processSamples_debiased (map (fun s => Z.lxor s 1) data) r
              ltac:(simpl; lia)) as [-> _].
  cbn [rawBitBuffer r app]. rewrite <- vonNeumannSpec_flip. f_equal.
  rewrite !map_map. apply map_ext. intros s. apply rawBit_flip.
Qed.

End PipelineInvariants.

(** ** Bits and bytes, there and back *)

Lemma forall_bytes (P : Z -> bool) :
  forallb P (seqZ 0 256) = true -> forall b, isByte b -> P b = true.
Proof.
  intros Hall b Hb. rewrite forallb_forall in Hall. apply Hall.
  apply list_elem_of_In, elem_of_seqZ. unfold isByte in Hb. lia.
Qed.

Lemma uint8ArrayToBits_cons byte pool :
  Grid.uint8ArrayToBits (byte :: pool)
  = Grid.uint8ArrayToBits [byte] ++ Grid.uint8ArrayToBits pool.
Proof. reflexivity. Qed.

Lemma uint8ArrayToBits_one_length byte :
  length (Grid.uint8ArrayToBits [byte]) = 8%nat.
Proof. reflexivity. Qed.

Lemma bitsToUint8_uint8ArrayToBits_one b :
  isByte b -> bitsToUint8 (Grid.uint8ArrayToBits [b]) = b.
Proof.
  intros Hb. apply Z.eqb_eq.
  apply (forall_bytes (fun b => bitsToUint8 (Grid.uint8ArrayToBits [b]) =? b));
    [vm_compute; reflexivity | exact Hb].
Qed.

Lemma groups_cons_group {A} (n : nat) (g l : list A) :
  n <> 0%nat -> length g = n -> groups n (g ++ l) = g :: groups n l.
Proof.
  intros Hn Hg. unfold groups. rewrite length_app, Hg.
  replace (n + length l)%nat with (1 * n + length l)%nat by lia.
  rewrite Nat.div_add_l by done.
  cbn [Nat.add seq map]. f_equal.
  - change (0 * n)%nat with 0%nat. rewrite drop_0.
    rewrite take_app_le by lia. apply take_ge. lia.
  - rewrite <- seq_shift, map_map. apply map_ext. intros k.
    replace (S k * n)%nat with (length g + k * n)%nat by lia.
    by rewrite drop_app_add.
Qed.

(** Unpacking the bytes of the pool into bits and packing the bits again,
    eight at a time, gives the bytes back; packing eight bits and unpacking
    the byte gives the bits back, in the same order. *)
Lemma bits_and_bytes_round_trip (pool : list Z) (b0 b1 b2 b3 b4 b5 b6 b7 : bool) :
  Forall isByte pool ->
  map bitsToUint8 (groups 8 (Grid.uint8ArrayToBits pool)) = pool
  /\ (let bits := map Z.b2z [b0; b1; b2; b3; b4; b5; b6; b7] in
      Grid.uint8ArrayToBits [bitsToUint8 bits] = bits).
Proof.
  intros Hpool. split.
  - induction Hpool as [|b pool Hb _ IH]; [reflexivity|].
    rewrite uint8ArrayToBits_cons, groups_cons_group by done.
    cbn [map]. by rewrite bitsToUint8_uint8ArrayToBits_one, IH.
  - destruct b0, b1, b2, b3, b4, b5, b6, b7; reflexivity.
Qed.

Lemma bits_and_bytes_round_trip_witness :
  map bitsToUint8 (groups 8 (Grid.uint8ArrayToBits [178; 0; 255])) = [178; 0; 255].
Proof.
  apply (bits_and_bytes_round_trip [178; 0; 255] true false true true false false true false).
  repeat constructor; unfold isByte; lia.
Defined.

Lemma flat_map_lookup_8 {A} (f : A -> list Z) (l : list A) : forall (q r : nat),
  (forall x, length (f x) = 8%nat) -> (r < 8)%nat ->
  flat_map f l !! (8 * q + r)%nat
  = match l !! q with Some x => f x !! r | None => None end.
Proof.
  induction l as [|x l IH]; intros q r Hf Hr; [done|].
  cbn [flat_map]. destruct q as [|q].
  - rewrite Nat.mul_0_r, Nat.add_0_l. cbn [lookup list_lookup].
    rewrite lookup_app_l by (rewrite Hf; lia). done.
  - rewrite lookup_app_r by (rewrite Hf; lia). rewrite Hf.
    replace (8 * S q + r - 8)%nat with (8 * q + r)%nat by lia.
    rewrite IH by done. done.
Qed.

Lemma byte_bit_lookup b (r : nat) :
  isByte b -> (r < 8)%nat ->
  Grid.uint8ArrayToBits [b] !! r = Some (Js.band (Js.shr b (7 - Z.of_nat r)) 1).
Proof.
  intros Hb Hr.
  assert (Hsmall : Js.ToInt32 b = b) by (apply ToInt32_small; unfold isByte in Hb; lia).
  do 8 (destruct r as [|r]; [try reflexivity|]); [|lia].
  cbn [Grid.uint8ArrayToBits flat_map app lookup list_lookup].
  unfold Js.band, Js.shr. cbn [Z.of_nat Pos.of_succ_nat Pos.succ Z.sub Z.add Z.opp Z.pos_sub
    Z.succ_double Z.pred_double Z.double Pos.pred_double].
  change (0 mod 32) with 0. rewrite Z.shiftr_0_r. by rewrite !Hsmall.
Qed.

(** Bit [i] of the pool as [pullBit] reads it is element [i] of what
    [uint8ArrayToBits] gives. *)
Lemma pullBit_lookup (pool : list Z) (i : Z) :
  Forall isByte pool ->
  0 <= i < 8 * Z.of_nat (length pool) ->
  8 * Z.of_nat (length pool) < 2 ^ 31 ->
  Grid.uint8ArrayToBits pool !! Z.to_nat i = Some (Waterfall.pullBit pool i).
Proof.
  intros Hpool Hi Hsize.
  set (q := Z.to_nat (i / 8)). set (r := Z.to_nat (i mod 8)).
  pose proof (Z.div_mod i 8 ltac:(lia)) as Hdm.
  pose proof (Z.mod_pos_bound i 8 ltac:(lia)) as Hr.
  assert (Hq : 0 <= i / 8 < Z.of_nat (length pool)).
  { split; [apply Z.div_pos; lia | apply Z.div_lt_upper_bound; lia]. }
  replace (Z.to_nat i) with (8 * q + r)%nat by lia.
  unfold Grid.uint8ArrayToBits.
  rewrite flat_map_lookup_8 by (done || lia).
  destruct (lookup_lt_is_Some_2 pool q ltac:(lia)) as [b Hb]. rewrite Hb.
  assert (Hbyte : isByte b).
  { rewrite Forall_forall in Hpool. apply Hpool.
    apply list_elem_of_In. eapply list_elem_of_lookup_2. exact Hb. }
  change (flat_map _ [b]) with (Grid.uint8ArrayToBits [b]) || idtac.
  pose proof (byte_bit_lookup b r Hbyte ltac:(lia)) as Hbit.
  unfold Grid.uint8ArrayToBits in Hbit. cbn [flat_map] in Hbit.
  rewrite app_nil_r in Hbit. rewrite Hbit. f_equal.
  unfold Waterfall.pullBit.
  assert (Hshr : Js.shr i 3 = i / 8).
  { unfold Js.shr. rewrite ToInt32_small by lia.
    change (3 mod 32) with 3. by rewrite Z.shiftr_div_pow2. }
  assert (Hband : Js.band i 7 = i mod 8).
  { unfold Js.band. rewrite !ToInt32_small by lia.
    change 7 with (Z.ones 3). by rewrite Z.land_ones. }
  rewrite Hshr, Hband. unfold Js.get.
  assert ((i / 8 <? 0) = false) as -> by (apply Z.ltb_ge; lia).
  fold q. rewrite Hb. cbn [default]. subst r. f_equal. f_equal. lia.
Qed.


(** ** What the waterfall shows *)

Lemma waterfallPicture_length {A} top h (blank : A) rows :
  length (waterfallPicture top h blank rows) = h.
Proof.
  unfold waterfallPicture. destruct top.
  - rewrite length_take, length_app, length_replicate. lia.
  - rewrite length_drop, length_app, length_replicate. lia.
Qed.

Lemma waterfallPicture_nil {A} top h (blank : A) :
  waterfallPicture top h blank [] = replicate h blank.
Proof.
  unfold waterfallPicture. destruct top; cbn [rev app length drop].
  - apply take_ge. by rewrite length_replicate.
  - by rewrite app_nil_r.
Qed.

(** One more row: the picture scrolls away from the insertion edge. *)
Lemma waterfallPicture_snoc {A} top h (blank : A) rows row :
  (0 < h)%nat ->
  waterfallPicture top h blank (rows ++ [row])
  = if top then row :: removelast (waterfallPicture top h blank rows)
    else tail (waterfallPicture top h blank rows) ++ [row].
Proof.
  intros Hh. unfold waterfallPicture. destruct top.
  - rewrite rev_unit. destruct h as [|h]; [lia|].
    cbn [take app]. f_equal.
    rewrite removelast_firstn; [done|].
    rewrite length_app, length_replicate. lia.
  - rewrite length_app. cbn [length].
    replace (length rows + 1)%nat with (S (length rows)) by lia.
    rewrite app_assoc.
    rewrite drop_app_le by (rewrite length_app, length_replicate; lia).
    f_equal.
    generalize (replicate h blank ++ rows). intros l.
    generalize (length rows). intros n. revert l.
    induction n as [|n IH]; intros [|x l]; try done.
    cbn [drop]. apply IH.
Qed.

Lemma rowPixels_settings vm vm0 bitsRow :
  Waterfall.colorZero vm = Waterfall.colorZero vm0 ->
  Waterfall.colorOne vm = Waterfall.colorOne vm0 ->
  Waterfall.rowPixels vm bitsRow = Waterfall.rowPixels vm0 bitsRow.
Proof. intros H0 H1. unfold Waterfall.rowPixels. by rewrite H0, H1. Qed.

Lemma consumeBit_shows pool vm0 bits vm i :
  0 < Waterfall.matrixWidth vm0 -> 0 < Waterfall.matrixHeight vm0 ->
  WaterfallShows vm0 bits vm ->
  WaterfallShows vm0 (bits ++ [Waterfall.pullBit pool i]) (Waterfall.consumeBit pool vm i).
Proof.
  intros Hw Hh [Hc Hwd Hht Hm Hd Hz Ho Hcap Hacc Hoff].
  set (W := Z.to_nat (Waterfall.matrixWidth vm0)) in *.
  set (b := Waterfall.pullBit pool i).
  assert (HW : W <> 0%nat) by lia.
  pose proof (leftover_lt W bits HW) as Hlt.
  unfold Waterfall.consumeBit. fold b. rewrite Hacc, Hwd.
  rewrite length_app. cbn [length].
  destruct (Z.leb_spec (Waterfall.matrixWidth vm0)
              (Z.of_nat (length (leftover W bits) + 1))) as [Hfull|Hpart].
  - assert (Heq : (length (leftover W bits) + 1 = W)%nat) by lia.
    destruct (groups_snoc_eq W bits b Heq) as [Hg Hl].
    fold W.
    rewrite take_ge by (rewrite length_app; cbn [length]; lia).
    rewrite drop_ge by (rewrite length_app; cbn [length]; lia).
    set (vm1 := Waterfall.setRowAccumulator [] vm).
    assert (Hoff1 : Waterfall.offscreen
                      (Waterfall.commitRow (leftover W bits ++ [b]) vm1)
            = if Waterfall.newestOnTop vm1
              then Waterfall.rowPixels vm1 (leftover W bits ++ [b])
                   :: removelast (Waterfall.offscreen vm1)
              else tail (Waterfall.offscreen vm1)
                   ++ [Waterfall.rowPixels vm1 (leftover W bits ++ [b])]).
    { apply commitRow_offscreen.
      - cbn [vm1 Waterfall.setRowAccumulator Waterfall.matrixHeight Waterfall.offscreen].
        rewrite Hoff, waterfallPicture_length, Hht. lia.
      - cbn [vm1 Waterfall.setRowAccumulator Waterfall.matrixHeight]. lia. }
    split.
    1-8: unfold Waterfall.commitRow;
         destruct (Waterfall.newestOnTop vm1); cbn; assumption.
    + unfold Waterfall.commitRow;
        destruct (Waterfall.newestOnTop vm1);
        cbn [Waterfall.rowAccumulator Waterfall.setOffscreen vm1
             Waterfall.setRowAccumulator]; symmetry; exact Hl.
    + fold W. rewrite Hoff1, Hg, map_app. cbn [map].
      rewrite waterfallPicture_snoc by lia.
      cbn [vm1 Waterfall.setRowAccumulator Waterfall.newestOnTop Waterfall.offscreen].
      rewrite Hd, Hoff.
      rewrite (rowPixels_settings _ vm0) by (cbn; assumption).
      done.
  - assert (Hlt' : (length (leftover W bits) + 1 < W)%nat) by lia.
    destruct (groups_snoc_lt W bits b Hlt') as [Hg Hl].
    split; cbn [Waterfall.hasCanvas Waterfall.matrixWidth Waterfall.matrixHeight
                Waterfall.renderMode Waterfall.newestOnTop Waterfall.colorZero
                Waterfall.colorOne Waterfall.capacity Waterfall.rowAccumulator
                Waterfall.offscreen Waterfall.setRowAccumulator]; try assumption.
    + symmetry; exact Hl.
    + fold W. by rewrite Hg.
Qed.

Lemma consumeBits_show pool vm0 allbits (n : nat) : forall (a : nat) vm,
  0 < Waterfall.matrixWidth vm0 -> 0 < Waterfall.matrixHeight vm0 ->
  (a + n <= length allbits)%nat ->
  (forall k : nat, (k < length allbits)%nat ->
     allbits !! k = Some (Waterfall.pullBit pool (Z.of_nat k))) ->
  WaterfallShows vm0 (take a allbits) vm ->
  WaterfallShows vm0 (take (a + n) allbits)
    (fold_left (Waterfall.consumeBit pool) (seqZ (Z.of_nat a) (Z.of_nat n)) vm).
Proof.
  induction n as [|n IH]; intros a vm Hw Hh Hn Hbits Hshows.
  - rewrite Nat.add_0_r. exact Hshows.
  - rewrite seqZ_S, fold_left_app. cbn [fold_left].
    replace (a + S n)%nat with (S (a + n)) by lia.
    rewrite (take_S_r allbits (a + n)
               (Waterfall.pullBit pool (Z.of_nat (a + n)))) by (apply Hbits; lia).
    replace (Z.of_nat a + Z.of_nat n) with (Z.of_nat (a + n)) by lia.
    apply consumeBit_shows; [done..|].
    apply IH; (done || lia).
Qed.

Lemma uint8ArrayToBits_app p1 p2 :
  Grid.uint8ArrayToBits (p1 ++ p2)
  = Grid.uint8ArrayToBits p1 ++ Grid.uint8ArrayToBits p2.
Proof. apply flat_map_app. Qed.

Lemma pullBit_all pool :
  Forall isByte pool -> 8 * Z.of_nat (length pool) < 2 ^ 31 ->
  forall k : nat, (k < length (Grid.uint8ArrayToBits pool))%nat ->
  Grid.uint8ArrayToBits pool !! k = Some (Waterfall.pullBit pool (Z.of_nat k)).
Proof.
  intros Hpool Hsize k Hk. pose proof (uint8ArrayToBits_length pool) as Hlen.
  rewrite <- (pullBit_lookup pool (Z.of_nat k)) by (done || lia).
  by rewrite Nat2Z.id.
Qed.

Lemma setLastBitCount_shows vm0 bits count vm :
  WaterfallShows vm0 bits vm ->
  WaterfallShows vm0 bits (Waterfall.setLastBitCount count vm).
Proof. intros []. split; assumption. Qed.

Lemma _drawBitWaterfall_shows vm0 p1 p2 vm :
  0 < Waterfall.matrixWidth vm0 -> 0 < Waterfall.matrixHeight vm0 ->
  Waterfall.hasCanvas vm0 = true ->
  Forall isByte (p1 ++ p2) ->
  8 * Z.of_nat (length (p1 ++ p2)) < 2 ^ 31 ->
  WaterfallShows vm0 (Grid.uint8ArrayToBits p1) vm ->
  Waterfall.lastBitCount vm = Z.of_nat (length p1) * 8 ->
  WaterfallShows vm0 (Grid.uint8ArrayToBits (p1 ++ p2))
    (Waterfall._drawBitWaterfall (p1 ++ p2) vm)
  /\ Waterfall.lastBitCount (Waterfall._drawBitWaterfall (p1 ++ p2) vm)
     = Z.of_nat (length (p1 ++ p2)) * 8.
Proof.
  intros Hw Hh Hc Hbytes Hsize Hshows Hlast.
  unfold Waterfall._drawBitWaterfall.
  rewrite (shows_canvas _ _ _ Hshows), Hc. cbn [negb]. rewrite Hlast.
  rewrite length_app in *.
  destruct (Z.leb_spec ((Z.of_nat (length p1 + length p2)) * 8)
              (Z.of_nat (length p1) * 8)) as [Hle|Hgt].
  - assert (p2 = []) as -> by (destruct p2; [done | simpl in Hle; lia]).
    rewrite app_nil_r. split; [done|]. rewrite Hlast. simpl. lia.
  - split; [|cbn [Waterfall.lastBitCount Waterfall.setLastBitCount]; lia].
    apply setLastBitCount_shows.
    set (allbits := Grid.uint8ArrayToBits (p1 ++ p2)).
    assert (Hall : length allbits = (8 * (length p1 + length p2))%nat).
    { pose proof (uint8ArrayToBits_length (p1 ++ p2)) as Hl.
      fold allbits in Hl. rewrite length_app in Hl. lia. }
    pose proof (uint8ArrayToBits_length p1) as Hlen1.
    replace (Z.of_nat (length p1) * 8) with (Z.of_nat (8 * length p1)) by lia.
    replace (Z.of_nat (length p1 + length p2) * 8 - Z.of_nat (8 * length p1))
      with (Z.of_nat (8 * length p2)) by lia.
    replace allbits with (take (8 * length p1 + 8 * length p2) allbits)
      by (apply take_ge; lia).
    apply consumeBits_show; [done | done | lia | |].
    + intros k Hk. apply pullBit_all; [done | rewrite length_app; lia | done].
    + unfold allbits. rewrite uint8ArrayToBits_app.
      rewrite take_app_length' by lia. done.
Qed.

Lemma resetBitMatrix_shows vm :
  WaterfallShows vm [] (Waterfall.resetBitMatrix vm).
Proof.
  split; try reflexivity.
  - cbn [Waterfall.resetBitMatrix Waterfall.rowAccumulator]. by rewrite leftover_nil.
  - cbn [Waterfall.resetBitMatrix Waterfall.offscreen].
    rewrite groups_nil. cbn [map]. by rewrite waterfallPicture_nil.
Qed.

Lemma drawGrowing_shows vm0 chunks : forall pool vm,
  0 < Waterfall.matrixWidth vm0 -> 0 < Waterfall.matrixHeight vm0 ->
  Waterfall.hasCanvas vm0 = true ->
  Waterfall.renderMode vm0 = Waterfall.ModeWaterfall ->
  Forall isByte (pool ++ concat chunks) ->
  8 * Z.of_nat (length (pool ++ concat chunks)) < 2 ^ 31 ->
  WaterfallShows vm0 (Grid.uint8ArrayToBits pool) vm ->
  Waterfall.lastBitCount vm = Z.of_nat (length pool) * 8 ->
  WaterfallShows vm0 (Grid.uint8ArrayToBits (pool ++ concat chunks))
    (drawGrowing pool chunks vm)
  /\ Waterfall.lastBitCount (drawGrowing pool chunks vm)
     = Z.of_nat (length (pool ++ concat chunks)) * 8.
Proof.
  induction chunks as [|chunk chunks IH];
    intros pool vm Hw Hh Hc Hm Hbytes Hsize Hshows Hlast.
  - cbn [concat drawGrowing]. rewrite app_nil_r. done.
  - cbn [concat drawGrowing]. cbn [concat] in Hbytes, Hsize.
    rewrite app_assoc in *.
    assert (Hb1 : Forall isByte (pool ++ chunk)).
    { apply Forall_app in Hbytes. tauto. }
    assert (Hs1 : 8 * Z.of_nat (length (pool ++ chunk)) < 2 ^ 31).
    { rewrite length_app in Hsize. lia. }
    unfold Waterfall.drawBitMatrix.
    rewrite (shows_mode _ _ _ Hshows), Hm.
    destruct (_drawBitWaterfall_shows vm0 pool chunk vm Hw Hh Hc Hb1 Hs1 Hshows Hlast)
      as [Hshows' Hlast'].
    by apply IH.
Qed.

(** Drawn after each growth of the pool, from a cleared matrix, the
    waterfall shows the bits of the pool in rows of [matrixWidth]: the
    latest [matrixHeight] whole rows are on the canvas, the newest at the
    insertion edge and white rows where none has arrived; the bits of the
    unfinished row wait in the accumulator; the cursor is at the end of
    the pool.  How the pool was cut into chunks does not matter. *)
Theorem waterfall_shows_latest_rows (chunks : list (list Z))
    (vm : Waterfall.VisualizationManager) :
  Waterfall.hasCanvas vm = true ->
  Waterfall.renderMode vm = Waterfall.ModeWaterfall ->
  0 < Waterfall.matrixWidth vm -> 0 < Waterfall.matrixHeight vm ->
  Forall isByte (concat chunks) ->
  8 * Z.of_nat (length (concat chunks)) < 2 ^ 31 ->
  let vm' := drawGrowing [] chunks (Waterfall.resetBitMatrix vm) in
  let bits := Grid.uint8ArrayToBits (concat chunks) in
  let w := Z.to_nat (Waterfall.matrixWidth vm) in
  Waterfall.rowAccumulator vm' = leftover w bits
  /\ Waterfall.offscreen vm'
     = waterfallPicture (Waterfall.newestOnTop vm)
         (Z.to_nat (Waterfall.matrixHeight vm))
         (replicate w Waterfall.white)
         (map (Waterfall.rowPixels vm) (groups w bits))
  /\ Waterfall.lastBitCount vm' = Z.of_nat (length (concat chunks)) * 8.
Proof.
  intros Hc Hm Hw Hh Hbytes Hsize.
  destruct (drawGrowing_shows vm chunks [] (Waterfall.resetBitMatrix vm))
    as [Hshows Hlast]; try done.
  - apply resetBitMatrix_shows.
  - cbn zeta. destruct Hshows. done.
Qed.

Lemma waterfall_shows_latest_rows_witness :
  let vm := Waterfall.setMatrixSize 4 2 2 (Waterfall.newVisualizationManager true) in
  let vm' := drawGrowing [] [[165]; [90; 60]] (Waterfall.resetBitMatrix vm) in
  Waterfall.rowAccumulator vm' = []
  /\ Waterfall.gridBits vm' = [[1; 1; 0; 0]; [0; 0; 1; 1]]
  /\ Waterfall.lastBitCount vm' = 24.
Proof.
  pose proof (waterfall_shows_latest_rows [[165]; [90; 60]]
                (Waterfall.setMatrixSize 4 2 2 (Waterfall.newVisualizationManager true))
                eq_refl eq_refl eq_refl eq_refl) as Hshow.
  cbn zeta in *.
  destruct Hshow as (Hacc & Hoff & Hlast).
  - repeat constructor; unfold isByte; lia.
  - vm_compute. reflexivity.
  - split; [exact Hacc|]. split; [|exact Hlast].
    unfold Waterfall.gridBits. rewrite Hoff. vm_compute. reflexivity.
Defined.


(** ** What the grid of [script.js] shows *)

(** [pullBit] over all the indices of the pool is [uint8ArrayToBits]: the
    waterfall and the grid read the same bits in the same order. *)
Lemma renderers_read_the_same_bits (pool : list Z) :
  Forall isByte pool -> 8 * Z.of_nat (length pool) < 2 ^ 31 ->
  map (Waterfall.pullBit pool) (seqZ 0 (Z.of_nat (length pool) * 8))
  = Grid.uint8ArrayToBits pool.
Proof.
  intros Hpool Hsize. pose proof (uint8ArrayToBits_length pool) as Hlen.
  apply list_eq. intros k. rewrite list_lookup_fmap.
  destruct (decide (k < length (Grid.uint8ArrayToBits pool))%nat) as [Hk|Hk].
  - rewrite lookup_seqZ_lt by lia. cbn [fmap option_fmap option_map].
    rewrite Z.add_0_l. symmetry. by apply pullBit_all.
  - rewrite lookup_seqZ_ge by lia. cbn [fmap option_fmap option_map].
    symmetry. apply lookup_ge_None. lia.
Qed.

Lemma renderers_read_the_same_bits_witness :
  map (Waterfall.pullBit [165; 90]) (seqZ 0 (Z.of_nat (length [165; 90]) * 8))
  = Grid.uint8ArrayToBits [165; 90].
Proof.
  apply (renderers_read_the_same_bits [165; 90]).
  - repeat constructor; unfold isByte; lia.
  - simpl. lia.
Defined.

Lemma updatePixel_insert vm bits data i v :
  0 < Grid.matrixWidth vm -> 0 <= i ->
  bits !! Z.to_nat i = Some v ->
  Grid.updatePixel vm bits data i = <[Z.to_nat i := v]> data.
Proof.
  intros Hw Hi Hv. unfold Grid.updatePixel.
  pose proof (lookup_lt_Some _ _ _ Hv) as Hlt.
  assert ((i <? Z.of_nat (length bits)) = true) as -> by (apply Z.ltb_lt; lia).
  assert (Hget : Js.get bits i = Some v).
  { unfold Js.get.
    assert ((i <? 0) = false) as -> by (apply Z.ltb_ge; lia). done. }
  rewrite Hget. cbn [default].
  assert (Hidx : i / Grid.matrixWidth vm * Grid.matrixWidth vm
                 + Js.rem i (Grid.matrixWidth vm) = i).
  { unfold Js.rem. rewrite Z.rem_mod_nonneg by lia.
    pose proof (Z.div_mod i (Grid.matrixWidth vm) ltac:(lia)). lia. }
  rewrite Hidx.
  case_decide as Hsame; [|done].
  unfold Js.get in Hsame.
  assert ((i <? 0) = false) as Hneg by (apply Z.ltb_ge; lia).
  rewrite Hneg in Hsame. symmetry. by apply list_insert_id.
Qed.

Lemma updatePixels_fill vm bits cap (n : nat) : forall (start : nat),
  0 < Grid.matrixWidth vm ->
  (start + n <= length bits)%nat -> (start + n <= cap)%nat ->
  fold_left (Grid.updatePixel vm bits) (seqZ (Z.of_nat start) (Z.of_nat n))
    (take start bits ++ replicate (cap - start) 0)
  = take (start + n) bits ++ replicate (cap - (start + n)) 0.
Proof.
  induction n as [|n IH]; intros start Hw Hbits Hcap.
  - by rewrite Nat.add_0_r.
  - rewrite seqZ_S, fold_left_app, IH by lia. cbn [fold_left].
    destruct (lookup_lt_is_Some_2 bits (start + n) ltac:(lia)) as [v Hv].
    rewrite (updatePixel_insert _ _ _ _ v); [|done|lia|].
    2:{ replace (Z.to_nat (Z.of_nat start + Z.of_nat n)) with (start + n)%nat by lia.
        done. }
    replace (Z.to_nat (Z.of_nat start + Z.of_nat n)) with (start + n)%nat by lia.
    assert (Ht : length (take (start + n) bits) = (start + n)%nat).
    { rewrite length_take. lia. }
    rewrite insert_app_r_alt by lia. rewrite Ht, Nat.sub_diag.
    replace (cap - (start + n))%nat with (S (cap - (start + S n))) by lia.
    cbn [replicate insert list_insert].
    replace (start + S n)%nat with (S (start + n)) by lia.
    rewrite (take_S_r bits (start + n) v Hv), <- app_assoc. done.
Qed.

Lemma GridShows_grow w h pool chunk vm :
  GridShows w h pool vm -> GridShows w h (pool ++ chunk) vm.
Proof.
  intros [Hw Hh Hc Hcur Hdata]. split; try assumption.
  - rewrite length_app. lia.
  - rewrite Hdata, uint8ArrayToBits_app. f_equal.
    rewrite take_app_le; [done|].
    pose proof (uint8ArrayToBits_length pool). lia.
Qed.

Lemma drawBitMatrix_shows w h now updateTime pool vm :
  0 < w -> 0 <= h ->
  GridShows w h pool vm ->
  GridShows w h pool (Grid.drawBitMatrix now updateTime pool vm).
Proof.
  intros Hwpos Hhpos Hshows. pose proof Hshows as [Hw Hh Hc Hcur Hdata].
  pose proof (uint8ArrayToBits_length pool) as Hlen.
  unfold Grid.drawBitMatrix. rewrite Hc. cbn [negb].
  destruct (Grid.adaptiveInterval vm
            && (now - Grid.updateThrottle vm <? Grid.updateInterval vm)); [done|].
  cbn [Grid.setThrottle Grid.matrixWidth Grid.matrixHeight Grid.lastBitCount
       Grid.isMatrixComplete].
  rewrite Hw, Hh, Hlen.
  destruct ((w * h <=? Grid.lastBitCount vm)
            && (w * h <? 8 * Z.of_nat (length pool))) eqn:Hrefresh.
  { apply andb_true_iff in Hrefresh as [H1 H2].
    apply Z.leb_le in H1. apply Z.ltb_lt in H2.
    split; cbn [Grid.performFullRefresh Grid.setThrottle Grid.matrixWidth
                Grid.matrixHeight Grid.hasCanvas Grid.lastBitCount
                Grid.bitMatrixData]; try (assumption || lia).
    rewrite Hdata, length_app, length_take, length_replicate.
    change (Z.to_nat 0) with 0%nat. rewrite take_0, app_nil_l. f_equal. lia. }
  destruct ((8 * Z.of_nat (length pool) <=? Grid.lastBitCount vm)
            || Grid.isMatrixComplete vm) eqn:Hidle.
  { split; cbn [Grid.setThrottle Grid.matrixWidth Grid.matrixHeight Grid.hasCanvas
                Grid.lastBitCount Grid.bitMatrixData]; assumption. }
  apply orb_false_iff in Hidle as [Hmore _]. apply Z.leb_gt in Hmore.
  set (vm1 := Grid.setThrottle now vm).
  pose proof (calculateOptimalChunkSize_bounds vm1) as Hchunk.
  set (chunk := Grid.calculateOptimalChunkSize vm1) in *.
  set (last := Grid.lastBitCount vm) in *.
  set (total := 8 * Z.of_nat (length pool)) in *.
  set (e := Z.min (last + Z.min (total - last) chunk) (w * h)).
  assert (He : last <= e <= Z.min (w * h) total) by lia.
  assert (Hmin : Z.min e total = e) by lia.
  rewrite Hmin.
  split;
    unfold Grid.updatePerformanceMetrics, Grid.setCursor, Grid.updatePixelsBatch;
    cbn [Grid.matrixWidth Grid.matrixHeight Grid.hasCanvas Grid.lastBitCount
         Grid.bitMatrixData vm1 Grid.setThrottle]; try (assumption || lia).
  rewrite Hdata. fold last.
  replace (Z.to_nat (w * h - last)) with (Z.to_nat (w * h) - Z.to_nat last)%nat by lia.
  replace last with (Z.of_nat (Z.to_nat last)) at 1 by lia.
  replace (e - last) with (Z.of_nat (Z.to_nat (e - last))) by lia.
  rewrite (fold_left_pointwise _ (Grid.updatePixel vm (Grid.uint8ArrayToBits pool)))
    by done.
  rewrite updatePixels_fill by lia.
  f_equal; f_equal; lia.
Qed.

Lemma gridDrawGrowing_shows w h invocations : forall pool vm,
  0 < w -> 0 <= h ->
  GridShows w h pool vm ->
  GridShows w h (pool ++ concat (map snd invocations))
    (gridDrawGrowing pool invocations vm).
Proof.
  induction invocations as [|[[now updateTime] chunk] invocations IH];
    intros pool vm Hw Hh Hshows.
  - cbn [map concat gridDrawGrowing]. by rewrite app_nil_r.
  - cbn [map concat gridDrawGrowing snd]. rewrite app_assoc.
    apply IH; [done..|].
    apply drawBitMatrix_shows; [done..|]. by apply GridShows_grow.
Qed.

Lemma newVisualizationManager_shows w h :
  0 <= w * h -> GridShows w h [] (Grid.newVisualizationManager w h).
Proof.
  intros Hcap. split; cbn [Grid.newVisualizationManager Grid.matrixWidth
    Grid.matrixHeight Grid.hasCanvas Grid.lastBitCount Grid.bitMatrixData length];
    try (done || lia).
  cbn [Z.to_nat take app]. by rewrite Z.sub_0_r.
Qed.

(** However the invocations of [drawBitMatrix] of [script.js] fall while
    the pool grows (throttled or not, chunked, refreshed in full), the
    matrix holds the bits of the pool up to the cursor, in order, and 0 in
    every cell after it; the cursor never passes the capacity nor the end
    of the pool. *)
Theorem grid_shows_pool_prefix (w h : Z) (invocations : list (Z * Q * list Z)) :
  0 < w -> 0 <= h ->
  let pool := concat (map snd invocations) in
  let vm := gridDrawGrowing [] invocations (Grid.newVisualizationManager w h) in
  let cursor := Grid.lastBitCount vm in
  0 <= cursor <= Z.min (w * h) (8 * Z.of_nat (length pool))
  /\ Grid.bitMatrixData vm
     = take (Z.to_nat cursor) (Grid.uint8ArrayToBits pool)
       ++ replicate (Z.to_nat (w * h - cursor)) 0.
Proof.
  intros Hw Hh. cbn zeta.
  destruct (gridDrawGrowing_shows w h invocations [] (Grid.newVisualizationManager w h))
    as [_ _ _ Hcur Hdata]; try done.
  apply newVisualizationManager_shows. nia.
Qed.

Lemma grid_shows_pool_prefix_witness :
  let vm := gridDrawGrowing [] [(100, 1%Q, [165]); (120, 1%Q, [90]); (200, 1%Q, [])]
              (Grid.newVisualizationManager 4 3) in
  Grid.bitMatrixData vm = [1; 0; 1; 0; 0; 1; 0; 1; 0; 1; 0; 1].
Proof.
  pose proof (grid_shows_pool_prefix 4 3
                [(100, 1%Q, [165]); (120, 1%Q, [90]); (200, 1%Q, [])]
                eq_refl ltac:(discriminate)) as [_ Hdata].
  cbn zeta. rewrite Hdata. vm_compute. reflexivity.
Defined.


(** ** What the consumers of [script.js] make of the pool *)

Section ConsumerResults.
Import Consumers.

Lemma list_ascii_of_string_append (s1 s2 : string) :
  list_ascii_of_string (String.append s1 s2)
  = list_ascii_of_string s1 ++ list_ascii_of_string s2.
Proof. induction s1 as [|c s1 IH]; [done|]. cbn. by rewrite IH. Qed.

Lemma list_ascii_of_string_length (s : string) :
  length (list_ascii_of_string s) = String.length s.
Proof. induction s as [|c s IH]; [done|]. cbn. by rewrite IH. Qed.

Lemma string_get_In (s : string) : forall (k : nat) c,
  String.get k s = Some c -> In c (list_ascii_of_string s).
Proof.
  induction s as [|a s IH]; intros k c Hk; [done|].
  destruct k as [|k]; cbn in *; [left; congruence | right; eauto].
Qed.

Lemma charOf_In charset r :
  String.length charset <> 0%nat -> In (charOf charset r) (list_ascii_of_string charset).
Proof.
  intros Hcs. unfold charOf.
  pose proof (Z.mod_pos_bound r (Z.of_nat (String.length charset)) ltac:(lia)) as Hb.
  destruct (string_get_Some charset
              (Z.to_nat (r mod Z.of_nat (String.length charset))) ltac:(lia))
    as [c Hc].
  rewrite Hc. cbn [default]. by eapply string_get_In.
Qed.

Lemma passwordPiece_charOf charset (pool : list Z) (pwLength : Z) (i : nat) r :
  Z.of_nat i < pwLength -> pwLength <= Z.of_nat (length pool) ->
  String.length charset <> 0%nat ->
  drop (length pool - Z.to_nat pwLength) pool !! i = Some r -> 0 <= r ->
  passwordPiece charset pool pwLength (Z.of_nat i)
  = String (charOf charset r) EmptyString.
Proof.
  intros Hi Hlen Hcs Hr Hr0. rewrite lookup_drop in Hr.
  unfold passwordPiece, Js.get, Js.rem, Js.charAt.
  set (len := Z.of_nat (length pool)).
  rewrite Z.rem_small by lia.
  assert ((Z.of_nat i + len - pwLength <? 0) = false) as -> by (apply Z.ltb_ge; lia).
  replace (Z.to_nat (Z.of_nat i + len - pwLength))
    with (length pool - Z.to_nat pwLength + i)%nat by lia.
  rewrite Hr.
  set (n := Z.of_nat (String.length charset)).
  pose proof (Z.rem_bound_pos r n Hr0 ltac:(lia)) as Hb.
  assert ((Z.rem r n <? 0) = false) as -> by (apply Z.ltb_ge; lia).
  rewrite Z.rem_mod_nonneg by lia.
  unfold charOf. fold n.
  destruct (string_get_Some charset (Z.to_nat (r mod n))) as [c Hc].
  { rewrite <- Z.rem_mod_nonneg by lia. lia. }
  by rewrite Hc.
Qed.

Lemma buildPassword_steps charset pool pwLength (bytes : list Z) (n : nat) :
  (forall (i : nat) r, (i < n)%nat -> bytes !! i = Some r ->
     passwordPiece charset pool pwLength (Z.of_nat i)
     = String (charOf charset r) EmptyString) ->
  (n <= length bytes)%nat ->
  list_ascii_of_string
    (fold_left (fun password i =>
                  String.append password (passwordPiece charset pool pwLength i))
               (seqZ 0 (Z.of_nat n)) EmptyString)
  = map (charOf charset) (take n bytes).
Proof.
  induction n as [|n IH]; intros Hpiece Hn; [done|].
  rewrite seqZ_S, fold_left_app. cbn [fold_left].
  rewrite list_ascii_of_string_append, IH by (eauto with lia || lia).
  destruct (lookup_lt_is_Some_2 bytes n ltac:(lia)) as [r Hr].
  rewrite Z.add_0_l, (Hpiece n r) by (done || lia).
  rewrite (take_S_r bytes n r Hr), map_app. done.
Qed.

(** When the pool holds at least as many bytes as the password is long, the
    password is made of the last [pwLength] bytes of the pool, in order,
    one character per byte: the character of the charset at the byte's
    value modulo the size of the charset.  It has exactly [pwLength]
    characters, all from the charset. *)
Theorem password_from_last_bytes (form : PasswordForm) (pool : list Z) :
  Forall isByte pool ->
  (32 <= length pool)%nat ->
  String.length (charsetOf form) <> 0%nat ->
  pwLengthOf form <= Z.of_nat (length pool) ->
  exists password,
    generatePassword form pool = PwGenerated password
    /\ list_ascii_of_string password
       = map (charOf (charsetOf form))
             (drop (length pool - Z.to_nat (pwLengthOf form)) pool)
    /\ Z.of_nat (String.length password) = pwLengthOf form
    /\ Forall (fun c => In c (list_ascii_of_string (charsetOf form)))
              (list_ascii_of_string password).
Proof.
  intros Hbytes Hpool Hcs Hlen.
  assert (Hpw : 8 <= pwLengthOf form <= 64) by (unfold pwLengthOf; lia).
  set (bytes := drop (length pool - Z.to_nat (pwLengthOf form)) pool).
  assert (Hbl : length bytes = Z.to_nat (pwLengthOf form)).
  { unfold bytes. rewrite length_drop. lia. }
  assert (Hchars : list_ascii_of_string
                     (buildPassword (charsetOf form) pool (pwLengthOf form))
                   = map (charOf (charsetOf form)) bytes).
  { unfold buildPassword.
    pose proof (buildPassword_steps (charsetOf form) pool (pwLengthOf form) bytes
                  (Z.to_nat (pwLengthOf form))) as Hsteps.
    rewrite Z2Nat.id in Hsteps by lia. rewrite Hsteps.
    - f_equal. apply take_ge. lia.
    - intros i r Hi Hr. apply passwordPiece_charOf; [lia | done | done | exact Hr |].
      unfold bytes in Hr. rewrite lookup_drop in Hr.
      apply list_elem_of_lookup_2, list_elem_of_In in Hr.
      rewrite Forall_forall in Hbytes. apply Hbytes in Hr.
      unfold isByte in Hr. lia.
    - lia. }
  exists (buildPassword (charsetOf form) pool (pwLengthOf form)).
  unfold generatePassword.
  destruct (Nat.ltb_spec (length pool) 32) as [|_]; [lia|].
  destruct (Nat.eqb_spec (String.length (charsetOf form)) 0) as [|_]; [done|].
  split; [done|]. split; [exact Hchars|]. split.
  - rewrite <- list_ascii_of_string_length, Hchars, length_map. lia.
  - rewrite Hchars. apply Forall_forall. intros c Hc.
    apply in_map_iff in Hc as (r & <- & _). by apply charOf_In.
Qed.

Lemma password_from_last_bytes_witness :
  exists password,
    generatePassword (mkPasswordForm (Text (Some 8)) false false true false)
                     (seqZ 0 32) = PwGenerated password
    /\ password = "45678901"%string.
Proof.
  destruct (password_from_last_bytes
              (mkPasswordForm (Text (Some 8)) false false true false) (seqZ 0 32))
    as (password & Hgen & Hchars & _).
  - apply Forall_seqZ. unfold isByte. lia.
  - vm_compute. lia.
  - vm_compute. discriminate.
  - vm_compute. discriminate.
  - exists password. split; [exact Hgen|].
    rewrite <- (string_of_list_ascii_of_string password), Hchars.
    vm_compute. reflexivity.
Defined.

Lemma scaledValue_numberAt (pool : list Z) (min max : Z) (i : nat) :
  Forall isByte pool -> pool <> [] -> min < max ->
  scaledValue pool min max (Z.of_nat i) = Some (numberAt pool min max i)
  /\ min <= numberAt pool min max i <= Z.min max (min + 255).
Proof.
  intros Hbytes Hne Hrange.
  assert (Hlen : (0 < length pool)%nat) by (destruct pool; [done | simpl; lia]).
  pose proof (Nat.mod_upper_bound i (length pool) ltac:(lia)) as Hi.
  destruct (lookup_lt_is_Some_2 pool (i mod length pool) Hi) as [r Hr].
  assert (Hbyte : isByte r).
  { rewrite Forall_forall in Hbytes. apply Hbytes.
    apply list_elem_of_In. eapply list_elem_of_lookup_2. exact Hr. }
  unfold isByte in Hbyte.
  unfold scaledValue, numberAt, Js.rem, Js.get.
  rewrite Z.rem_mod_nonneg by lia. rewrite <- Nat2Z.inj_mod.
  assert ((Z.of_nat (i mod length pool) <? 0) = false) as -> by (apply Z.ltb_ge; lia).
  rewrite Nat2Z.id, Hr. unfold default. cbn [id].
  rewrite Z.rem_mod_nonneg by lia.
  pose proof (Z.mod_pos_bound r (max - min + 1) ltac:(lia)).
  pose proof (Z.mod_le r (max - min + 1) ltac:(lia) ltac:(lia)).
  split; [done | lia].
Qed.

(** With a pool of at least 32 bytes and a minimum below the maximum (as
    the code reads them, both within -2^53 .. 2^53, where the sums of
    JavaScript numbers are those of the integers), [generateNumbers]
    produces exactly [count] numbers; number [i] comes from byte
    [i mod pool.length], so the numbers repeat with the period of the
    pool; every number lies between the minimum and the maximum, and never
    above the minimum plus 255. *)
Theorem numbers_within_range (form : NumbersForm) (pool : list Z) :
  Forall isByte pool ->
  (32 <= length pool)%nat ->
  numMinOf form < numMaxOf form ->
  - 2 ^ 53 <= numMinOf form ->
  numMaxOf form <= 2 ^ 53 ->
  let min := numMinOf form in
  let max := numMaxOf form in
  generateNumbers form pool
  = NumGenerated (map (fun i => Some (numberAt pool min max i))
                      (seq 0 (Z.to_nat (numCountOf form))))
  /\ (forall i, min <= numberAt pool min max i <= Z.min max (min + 255))
  /\ (forall i, numberAt pool min max (i + length pool) = numberAt pool min max i).
Proof.
  intros Hbytes Hpool Hrange _ _ min max.
  assert (Hne : pool <> []) by (destruct pool; [simpl in Hpool; lia | done]).
  split; [|split].
  - unfold generateNumbers.
    destruct (Nat.ltb_spec (length pool) 32) as [|_]; [lia|].
    fold min max.
    destruct (Z.leb_spec max min) as [|_]; [lia|].
    f_equal. unfold seqZ. rewrite <- list_fmap_compose.
    apply map_ext. intros i. cbn [compose]. rewrite Z.add_0_r.
    by apply scaledValue_numberAt.
  - intros i. by apply scaledValue_numberAt.
  - intros i. unfold numberAt.
    replace (i + length pool)%nat with (i + 1 * length pool)%nat by lia.
    by rewrite Nat.Div0.mod_add.
Qed.

Lemma numbers_within_range_witness :
  generateNumbers (mkNumbersForm (Text (Some 3)) (Text (Some 10)) (Text (Some 12)))
                  (seqZ 100 32)
  = NumGenerated [Some 11; Some 12; Some 10].
Proof.
  destruct (numbers_within_range
              (mkNumbersForm (Text (Some 3)) (Text (Some 10)) (Text (Some 12)))
              (seqZ 100 32)) as (Hgen & _).
  - apply Forall_seqZ. unfold isByte. lia.
  - vm_compute. lia.
  - vm_compute. reflexivity.
  - vm_compute. discriminate.
  - vm_compute. discriminate.
  - rewrite Hgen. vm_compute. reflexivity.
Defined.

Lemma fileDataOf_take (pool : list Z) (size : Z) :
  Forall isByte pool -> 0 <= size <= Z.of_nat (length pool) ->
  fileDataOf pool size = take (Z.to_nat size) pool.
Proof.
  intros Hbytes Hsize. unfold fileDataOf. apply list_eq. intros k.
  rewrite list_lookup_fmap.
  destruct (decide (Z.of_nat k < size)) as [Hk|Hk].
  - rewrite lookup_seqZ_lt by lia. cbn [fmap option_fmap option_map].
    rewrite lookup_take_lt by lia. rewrite Z.add_0_l. unfold Js.get.
    assert ((Z.of_nat k <? 0) = false) as -> by (apply Z.ltb_ge; lia).
    rewrite Nat2Z.id.
    destruct (lookup_lt_is_Some_2 pool k ltac:(lia)) as [r Hr].
    rewrite Hr. cbn [default]. f_equal. apply Z.mod_small.
    rewrite Forall_forall in Hbytes. apply Hbytes.
    apply list_elem_of_In. eapply list_elem_of_lookup_2. exact Hr.
  - rewrite lookup_seqZ_ge by lia. cbn [fmap option_fmap option_map].
    symmetry. apply lookup_take_ge. lia.
Qed.

(** The generated file is the first [fileSize] bytes of the pool, in
    order.  With enough bytes it is made at once.  Otherwise the request
    waits, the file of an earlier request staying in place; [updateProgress]
    leaves the request waiting while the pool is too short and makes the
    file as soon as the pool holds [fileSize] bytes; after [stop] it makes
    nothing. *)
Theorem file_is_pool_prefix (fileSizeEl : Field) (pool later : list Z)
    (fg : FileGenerator) :
  Forall isByte (pool ++ later) ->
  let size := fileSizeOf fileSizeEl in
  let request := generateFile fileSizeEl pool fg in
  (size <= Z.of_nat (length pool) ->
     request.2 = FileGenerated
     /\ generatedFile request.1 = Some (take (Z.to_nat size) pool)
     /\ isGenerating request.1 = false)
  /\ (Z.of_nat (length pool) < size ->
        request.2 = FileCollecting
        /\ generatedFile request.1 = generatedFile fg
        /\ isGenerating request.1 = true
        /\ (Z.of_nat (length (pool ++ later)) < size ->
              updateProgress (pool ++ later) request.1 = request.1)
        /\ (size <= Z.of_nat (length (pool ++ later)) ->
              generatedFile (updateProgress (pool ++ later) request.1)
              = Some (take (Z.to_nat size) (pool ++ later))
              /\ isGenerating (updateProgress (pool ++ later) request.1) = false)
        /\ updateProgress (pool ++ later) (stopFileGenerator request.1)
           = stopFileGenerator request.1).
Proof.
  intros Hbytes size request.
  assert (Hsize : 1 <= size <= 10485760) by (unfold size, fileSizeOf; lia).
  assert (Hpool : Forall isByte pool) by (apply Forall_app in Hbytes; tauto).
  subst request. unfold generateFile. fold size.
  destruct (Z.ltb_spec (Z.of_nat (length pool)) size) as [Hshort|Henough];
    cbn [fst snd]; (split; [intros Hle | intros Hlt]); try lia.
  - split; [done|]. split; [done|]. split; [done|].
    unfold updateProgress, stopFileGenerator.
    cbn [isGenerating requiredDataSize generatedFile negb orb].
    assert ((size =? 0) = false) as -> by (apply Z.eqb_neq; lia).
    split; [|split].
    + intros Hstill.
      by destruct (Z.leb_spec size (Z.of_nat (length (pool ++ later)))); [lia|].
    + intros Hnow.
      destruct (Z.leb_spec size (Z.of_nat (length (pool ++ later)))); [|lia].
      cbn [createFileFromData generatedFile isGenerating].
      split; [|done]. f_equal. apply fileDataOf_take; [done | lia].
    + done.
  - cbn [createFileFromData generatedFile isGenerating].
    split; [done|]. split; [|done]. f_equal. apply fileDataOf_take; [done | lia].
Qed.

Lemma file_is_pool_prefix_witness :
  generatedFile
    (updateProgress (seqZ 0 32 ++ seqZ 32 32)
       (generateFile (Text (Some 40)) (seqZ 0 32) newFileGenerator).1)
  = Some (seqZ 0 40).
Proof.
  destruct (file_is_pool_prefix (Text (Some 40)) (seqZ 0 32) (seqZ 32 32)
              newFileGenerator) as [_ Hwait].
  - apply Forall_app. split; apply Forall_seqZ; unfold isByte; lia.
  - destruct Hwait as (_ & _ & _ & _ & Hmade & _); [vm_compute; reflexivity|].
    destruct Hmade as [Hfile _]; [vm_compute; discriminate|].
    rewrite Hfile. vm_compute. reflexivity.
Defined.

End ConsumerResults.


(** ** The standalone password page *)

Section StandaloneResults.
Import Consumers.

Lemma lookup_byte (pool : list Z) (j : Z) :
  Forall isByte pool -> 0 <= j < Z.of_nat (length pool) ->
  exists r, Js.get pool j = Some r /\ isByte r.
Proof.
  intros Hbytes Hj. unfold Js.get.
  assert ((j <? 0) = false) as -> by (apply Z.ltb_ge; lia).
  destruct (lookup_lt_is_Some_2 pool (Z.to_nat j) ltac:(lia)) as [r Hr].
  exists r. split; [done|].
  rewrite Forall_forall in Hbytes. apply Hbytes.
  apply list_elem_of_In. eapply list_elem_of_lookup_2. exact Hr.
Qed.

Lemma pickCharacter_wellformed charset (pool : list Z) password randomIndex i :
  Forall isByte pool -> pool <> [] -> String.length charset <> 0%nat ->
  0 <= i ->
  0 <= randomIndex < Z.of_nat (length pool) ->
  exists c randomIndex',
    Standalone.PasswordGenerator.pickCharacter charset pool
      (password, Some randomIndex) i
    = (String.append password (String c EmptyString), Some randomIndex')
    /\ In c (list_ascii_of_string charset)
    /\ 0 <= randomIndex' < Z.of_nat (length pool).
Proof.
  intros Hbytes Hne Hcs Hi Hri.
  set (len := Z.of_nat (length pool)) in *.
  assert (Hlen : 0 < len) by (destruct pool; [done | unfold len; simpl; lia]).
  unfold Standalone.PasswordGenerator.pickCharacter. fold len.
  cbn [Standalone.addN Standalone.remN Standalone.getN]. unfold Js.rem.
  pose proof (Z.rem_bound_pos randomIndex len ltac:(lia) Hlen) as H1.
  pose proof (Z.rem_bound_pos (randomIndex + 1) len ltac:(lia) Hlen) as H2.
  pose proof (Z.rem_bound_pos (randomIndex + 2) len ltac:(lia) Hlen) as H3.
  destruct (lookup_byte pool _ Hbytes H1) as (r1 & -> & Hr1).
  destruct (lookup_byte pool _ Hbytes H2) as (r2 & -> & Hr2).
  destruct (lookup_byte pool _ Hbytes H3) as (r3 & -> & Hr3).
  unfold isByte in *.
  cbn [Standalone.addN Standalone.remN Standalone.charN].
  set (n := Z.of_nat (String.length charset)).
  pose proof (Z.rem_bound_pos (r1 + r2 + r3 + i + randomIndex) n ltac:(lia) ltac:(lia))
    as Hk.
  unfold Js.charAt, Js.rem.
  assert ((Z.rem (r1 + r2 + r3 + i + randomIndex) n <? 0) = false) as ->
    by (apply Z.ltb_ge; lia).
  destruct (string_get_Some charset
              (Z.to_nat (Z.rem (r1 + r2 + r3 + i + randomIndex) n)) ltac:(lia))
    as [c Hc].
  rewrite Hc. eexists c, _. split; [reflexivity|]. split.
  - by eapply string_get_In.
  - pose proof (Z.rem_bound_pos r1 13 ltac:(lia) ltac:(lia)).
    pose proof (Z.rem_bound_pos r2 7 ltac:(lia) ltac:(lia)).
    apply Z.rem_bound_pos; lia.
Qed.

Lemma pickCharacters_wellformed charset (pool : list Z) (n : nat) :
  Forall isByte pool -> pool <> [] -> String.length charset <> 0%nat ->
  forall randomIndex, 0 <= randomIndex < Z.of_nat (length pool) ->
  exists password randomIndex',
    fold_left (Standalone.PasswordGenerator.pickCharacter charset pool)
              (seqZ 0 (Z.of_nat n)) (EmptyString, Some randomIndex)
    = (password, Some randomIndex')
    /\ String.length password = n
    /\ Forall (fun c => In c (list_ascii_of_string charset))
              (list_ascii_of_string password)
    /\ 0 <= randomIndex' < Z.of_nat (length pool).
Proof.
  intros Hbytes Hne Hcs randomIndex Hri.
  induction n as [|n (password & ri & Hfold & Hlen & Hchars & Hri')].
  - exists EmptyString, randomIndex. repeat split; (done || lia || constructor).
  - rewrite seqZ_S, fold_left_app, Hfold. cbn [fold_left].
    destruct (pickCharacter_wellformed charset pool password ri (0 + Z.of_nat n)
                Hbytes Hne Hcs ltac:(lia) Hri') as (c & ri2 & -> & Hc & Hri2).
    exists (String.append password (String c EmptyString)), ri2.
    split; [done|]. split; [|split; [|done]].
    + rewrite <- list_ascii_of_string_length, list_ascii_of_string_append,
        length_app, list_ascii_of_string_length, Hlen. simpl. lia.
    + rewrite list_ascii_of_string_append. apply Forall_app. split; [done|].
      by repeat constructor.
Qed.

(** A click on the standalone page either reports and leaves the pool as
    it is, or, when a character set is ticked and the pool holds at least
    32 bytes and at least as many as the requested length, empties the
    pool and shows a password of exactly the clamped length, every
    character from the charset: wherever [Math.random] starts in the
    pool ([randomIndex] is [Math.floor(Math.random() * length)]), no index
    leaves it. *)
Theorem standalone_click (form : PasswordForm) (randomIndex : Z)
    (randomData : list Z) :
  Forall isByte randomData ->
  0 <= randomIndex < Z.max 1 (Z.of_nat (length randomData)) ->
  let requested := orElse (parseInt (pwLengthEl form)) 16 in
  let ready :=
    String.length (charsetOf form) <> 0%nat
    /\ Z.max 32 requested <= Z.of_nat (length randomData) in
  (ready ->
     exists password,
       Standalone.click form randomIndex randomData = ([], Some (PwGenerated password))
       /\ Z.of_nat (String.length password) = pwLengthOf form
       /\ Forall (fun c => In c (list_ascii_of_string (charsetOf form)))
                 (list_ascii_of_string password))
  /\ (~ ready -> Standalone.click form randomIndex randomData = (randomData, None)).
Proof.
  intros Hbytes Hri requested ready. unfold Standalone.click, Standalone.generatePassword.
  fold requested. split.
  - intros [Hcs Hlen].
    destruct (Nat.eqb_spec (String.length (charsetOf form)) 0) as [|_]; [done|].
    destruct (Nat.ltb_spec (length randomData) 32) as [|_]; [lia|].
    destruct (Z.ltb_spec (Z.of_nat (length randomData)) (Z.max 32 requested))
      as [|_]; [lia|].
    unfold Standalone.PasswordGenerator.generatePassword.
    destruct (Nat.ltb_spec (length randomData) 32) as [|_]; [lia|].
    destruct (Nat.eqb_spec (String.length (charsetOf form)) 0) as [|_]; [done|].
    assert (Hpw : 8 <= pwLengthOf form <= 64) by (unfold pwLengthOf; lia).
    assert (Hne : randomData <> []) by (intros ->; simpl in *; lia).
    destruct (pickCharacters_wellformed (charsetOf form) randomData
                (Z.to_nat (pwLengthOf form)) Hbytes Hne ltac:(done) randomIndex
                ltac:(lia))
      as (password & ri & Hfold & Hlength & Hchars & _).
    rewrite Z2Nat.id in Hfold by lia. rewrite Hfold. cbn [fst].
    exists password. split; [done|]. split; [lia | done].
  - intros Hnot.
    destruct (Nat.eqb_spec (String.length (charsetOf form)) 0) as [|Hcs]; [done|].
    destruct (Nat.ltb_spec (length randomData) 32) as [|Hlen]; [done|].
    destruct (Z.ltb_spec (Z.of_nat (length randomData)) (Z.max 32 requested))
      as [|Hreq]; [done|].
    exfalso. apply Hnot. split; [done | lia].
Qed.

Lemma standalone_click_witness :
  exists password,
    Standalone.click (mkPasswordForm (Text (Some 8)) false false true false) 5
                     (seqZ 0 32)
    = ([], Some (PwGenerated password))
    /\ String.length password = 8%nat.
Proof.
  destruct (standalone_click (mkPasswordForm (Text (Some 8)) false false true false)
              5 (seqZ 0 32)) as [Hready _].
  - apply Forall_seqZ. unfold isByte. lia.
  - vm_compute. split; [discriminate | reflexivity].
  - destruct Hready as (password & Hclick & Hlen & _).
    + split; [vm_compute; discriminate | vm_compute; discriminate].
    + exists password. split; [exact Hclick|].
      change (pwLengthOf (mkPasswordForm (Text (Some 8)) false false true false))
        with 8 in Hlen. lia.
Defined.

End StandaloneResults.


(** ** What is hashed, and what is displayed *)

Lemma forall_below (n : Z) (P : Z -> bool) :
  forallb P (seqZ 0 n) = true -> forall d, 0 <= d < n -> P d = true.
Proof.
  intros Hall d Hd. rewrite forallb_forall in Hall. apply Hall.
  apply list_elem_of_In, elem_of_seqZ. lia.
Qed.

Lemma utf8_byte_cases b :
  isByte b ->
  (b < 128 /\ Js.utf8 (b mod 2 ^ 16) = [b])
  \/ (exists x y, Js.utf8 (b mod 2 ^ 16) = [x; y]
                  /\ 128 <= x /\ (x - 192) * 64 + (y - 128) = b).
Proof.
  intros Hb.
  pose proof (forall_bytes
    (fun b => match Js.utf8 (b mod 2 ^ 16) with
              | [x] => (x =? b) && (b <? 128)
              | [x; y] => (128 <=? x) && ((x - 192) * 64 + (y - 128) =? b)
              | _ => false
              end) ltac:(vm_compute; reflexivity) b Hb) as Hcheck.
  cbv beta in Hcheck.
  destruct (Js.utf8 (b mod 2 ^ 16)) as [|x [|y [|z rest]]]; try discriminate.
  - apply andb_true_iff in Hcheck as [Hx Hlt].
    apply Z.eqb_eq in Hx. apply Z.ltb_lt in Hlt. left. by subst.
  - apply andb_true_iff in Hcheck as [Hx Hv].
    apply Z.leb_le in Hx. apply Z.eqb_eq in Hv. right. by exists x, y.
Qed.

Lemma string_concat_cons (x : string) (xs : list string) :
  String.concat "" (x :: xs) = String.append x (String.concat "" xs).
Proof.
  destruct xs as [|y ys]; cbn [String.concat].
  - induction x as [|c x IH]; [done|]. cbn. by rewrite <- IH.
  - done.
Qed.

Lemma hex_byte b :
  isByte b ->
  exists hi lo,
    Js.padStart 2 "0" (Js.toString 16 b) = String hi (String lo EmptyString)
    /\ digitValue hi * 16 + digitValue lo = b
    /\ isLowerHex hi /\ isLowerHex lo.
Proof.
  intros Hb.
  pose proof (forall_bytes
    (fun b => match Js.padStart 2 "0" (Js.toString 16 b) with
              | String hi (String lo EmptyString) =>
                  (digitValue hi * 16 + digitValue lo =? b)
                  && existsb (Ascii.eqb hi) (list_ascii_of_string "0123456789abcdef")
                  && existsb (Ascii.eqb lo) (list_ascii_of_string "0123456789abcdef")
              | _ => false
              end) ltac:(vm_compute; reflexivity) b Hb) as Hcheck.
  cbv beta in Hcheck.
  destruct (Js.padStart 2 "0" (Js.toString 16 b)) as [|hi [|lo [|c rest]]];
    try discriminate.
  apply andb_true_iff in Hcheck as [Hcheck Hlo].
  apply andb_true_iff in Hcheck as [Hv Hhi].
  apply Z.eqb_eq in Hv.
  apply existsb_exists in Hhi as (h & Hh & Heq). apply Ascii.eqb_eq in Heq. subst h.
  apply existsb_exists in Hlo as (l & Hl & Heq). apply Ascii.eqb_eq in Heq. subst l.
  by exists hi, lo.
Qed.

Section HashDisplay.
Context `{SubtleCrypto}.

(** The text that [buf2hex] displays has two hexadecimal digits for each
    byte, all of them lower-case, without separators, and reads back as
    the buffer; for a digest it has 64 digits. *)
Theorem hash_display_reads_back (buffer batch : list Z) :
  Forall isByte buffer ->
  hexPairs (list_ascii_of_string (buf2hex buffer)) = buffer
  /\ Forall isLowerHex (list_ascii_of_string (buf2hex buffer))
  /\ String.length (buf2hex buffer) = (2 * length buffer)%nat
  /\ String.length (buf2hex (digestOf batch)) = 64%nat.
Proof.
  assert (Hround : forall l, Forall isByte l ->
            hexPairs (list_ascii_of_string (buf2hex l)) = l
            /\ Forall isLowerHex (list_ascii_of_string (buf2hex l))
            /\ String.length (buf2hex l) = (2 * length l)%nat).
  { induction 1 as [|b l Hb _ (IH1 & IH2 & IH3)]; [by repeat split|].
    unfold buf2hex in *. cbn [map]. rewrite string_concat_cons.
    destruct (hex_byte b Hb) as (hi & lo & -> & Hv & Hhi & Hlo).
    cbn [String.append list_ascii_of_string hexPairs String.length length].
    rewrite IH1, IH3, Hv. split; [done|]. split; [|lia].
    constructor; [exact Hhi|]. constructor; [exact Hlo | exact IH2]. }
  intros Hbuffer. destruct (Hround buffer Hbuffer) as (H1 & H2 & H3).
  split; [done|]. split; [done|]. split; [done|].
  destruct (Hround (digestOf batch)) as (_ & _ & ->).
  - apply digest_SHA256_bytes.
  - by rewrite digestOf_length.
Qed.

End HashDisplay.

Lemma hash_display_reads_back_witness :
  hexPairs (list_ascii_of_string (buf2hex [0; 10; 255])) = [0; 10; 255]
  /\ Forall isLowerHex (list_ascii_of_string (buf2hex [0; 10; 255]))
  /\ buf2hex [0; 10; 255] = "000aff"%string.
Proof.
  destruct (@hash_display_reads_back sumCrypto [0; 10; 255] []) as (Hread & Hlower & _).
  - repeat constructor; unfold isByte; lia.
  - split; [exact Hread|]. split; [exact Hlower | reflexivity].
Defined.

(** *** The formats of the numbers *)

Lemma digitValue_digitChar d : 0 <= d < 36 -> digitValue (Js.digitChar d) = d.
Proof.
  intros Hd. apply Z.eqb_eq.
  apply (forall_below 36 (fun d => digitValue (Js.digitChar d) =? d));
    [vm_compute; reflexivity | done].
Qed.

Lemma digitValue_upper c : digitValue (Js.upper c) = digitValue c.
Proof.
  destruct c as [[] [] [] [] [] [] [] []]; vm_compute; reflexivity.
Qed.

Lemma readNumber_digits radix (fuel : nat) :
  2 <= radix <= 36 ->
  forall n acc, 0 <= n < radix ^ (Z.of_nat fuel + 1) ->
  fold_left (fun v c => v * radix + digitValue c)
            (list_ascii_of_string (Js.digits fuel radix n acc)) 0
  = fold_left (fun v c => v * radix + digitValue c) (list_ascii_of_string acc) n.
Proof.
  intros Hr. induction fuel as [|fuel IH]; intros n acc Hn.
  - cbn [Js.digits list_ascii_of_string fold_left].
    change (Z.of_nat 0 + 1) with 1 in Hn. rewrite Z.pow_1_r in Hn.
    rewrite Z.mod_small by lia. rewrite digitValue_digitChar by lia.
    f_equal.
  - cbn [Js.digits].
    pose proof (Z.mod_pos_bound n radix ltac:(lia)) as Hm.
    pose proof (Z.div_mod n radix ltac:(lia)) as Hdm.
    destruct (Z.eqb_spec (n / radix) 0) as [Hz|Hnz].
    + cbn [list_ascii_of_string fold_left].
      rewrite digitValue_digitChar by lia. f_equal. lia.
    + rewrite IH.
      * cbn [list_ascii_of_string fold_left].
        rewrite digitValue_digitChar by lia. f_equal. lia.
      * split; [apply Z.div_pos; lia|].
        apply Z.div_lt_upper_bound; [lia|].
        replace (Z.of_nat (S fuel) + 1) with (Z.succ (Z.of_nat fuel + 1)) in Hn by lia.
        rewrite Z.pow_succ_r in Hn by lia. lia.
Qed.

Lemma readNumber_toString radix n :
  2 <= radix <= 36 -> 0 <= n -> readNumber radix (Js.toString radix n) = n.
Proof.
  intros Hr Hn. unfold readNumber, Js.toString.
  assert ((n <? 0) = false) as -> by (apply Z.ltb_ge; lia).
  rewrite readNumber_digits; [done | done |].
  split; [done|]. rewrite Z2Nat.id by apply Z.log2_nonneg.
  destruct (decide (n = 0)) as [->|Hpos].
  - change (Z.log2 0 + 1) with 1. lia.
  - pose proof (Z.log2_spec n ltac:(lia)) as [_ Hlt].
    eapply Z.lt_le_trans; [exact Hlt|].
    apply Z.pow_le_mono_l. pose proof (Z.log2_nonneg n). lia.
Qed.

Lemma readNumber_padStart radix target s :
  readNumber radix (Js.padStart target "0" s) = readNumber radix s.
Proof.
  unfold readNumber, Js.padStart.
  rewrite list_ascii_of_string_append, list_ascii_of_string_of_list_ascii,
    fold_left_app.
  f_equal. induction (target - String.length s)%nat as [|k IH]; [done|].
  cbn [replicate fold_left]. exact IH.
Qed.

Lemma readNumber_toUpperCase radix s :
  readNumber radix (Js.toUpperCase s) = readNumber radix s.
Proof.
  unfold readNumber. generalize 0.
  induction s as [|c s IH]; intros v; [done|].
  cbn [Js.toUpperCase list_ascii_of_string fold_left].
  by rewrite digitValue_upper, IH.
Qed.

(** In each format a number from 0 to 2^53 (where JavaScript prints the
    digits of the integer) is printed as the prefix of the format followed
    by a numeral that reads back, in the radix of the format, as the
    number; for a byte the numeral has exactly two digits in hexadecimal
    and eight in binary. *)
Theorem formatted_number_reads_back (numHex numDecimal numBinary : bool) (n : Z) :
  0 <= n <= 2 ^ 53 ->
  let format := Consumers.getSelectedFormat numHex numDecimal numBinary in
  exists numeral,
    Consumers.formatNumber format (Some n)
    = String.append (prefixOf format) numeral
    /\ readNumber (radixOf format) numeral = n
    /\ (isByte n ->
        match format with
        | Consumers.Hex => String.length numeral = 2%nat
        | Consumers.Binary => String.length numeral = 8%nat
        | Consumers.Decimal => (String.length numeral <= 3)%nat
        end).
Proof.
  intros [Hn _] format.
  assert (Hwidth : isByte n ->
            String.length (Js.padStart 2 "0" (Js.toUpperCase (Js.toString 16 n))) = 2%nat
            /\ String.length (Js.padStart 8 "0" (Js.toString 2 n)) = 8%nat
            /\ (String.length (Js.toString 10 n) <= 3)%nat).
  { intros Hb.
    pose proof (forall_bytes
      (fun n =>
         (String.length (Js.padStart 2 "0" (Js.toUpperCase (Js.toString 16 n))) =? 2)%nat
         && (String.length (Js.padStart 8 "0" (Js.toString 2 n)) =? 8)%nat
         && (String.length (Js.toString 10 n) <=? 3)%nat)
      ltac:(vm_compute; reflexivity) n Hb) as Hcheck.
    cbv beta in Hcheck.
    apply andb_true_iff in Hcheck as [Hcheck H3].
    apply andb_true_iff in Hcheck as [H1 H2].
    apply Nat.eqb_eq in H1, H2. apply Nat.leb_le in H3. done. }
  destruct format; cbn [Consumers.formatNumber Consumers.toStringN prefixOf radixOf].
  - eexists. split; [reflexivity|]. split.
    + rewrite readNumber_padStart, readNumber_toUpperCase.
      apply readNumber_toString; lia.
    + intros Hb. by destruct (Hwidth Hb) as (? & ? & ?).
  - eexists. split; [reflexivity|]. split.
    + apply readNumber_toString; lia.
    + intros Hb. by destruct (Hwidth Hb) as (? & ? & ?).
  - eexists. split; [reflexivity|]. split.
    + rewrite readNumber_padStart. apply readNumber_toString; lia.
    + intros Hb. by destruct (Hwidth Hb) as (? & ? & ?).
Qed.

Lemma formatted_number_reads_back_witness :
  exists numeral,
    Consumers.formatNumber Consumers.Hex (Some 171) = String.append "0x" numeral
    /\ readNumber 16 numeral = 171.
Proof.
  destruct (formatted_number_reads_back true false false 171 ltac:(lia))
    as (numeral & Hfmt & Hread & _).
  exists numeral. split; [exact Hfmt | exact Hread].
Defined.


(** *** The histogram *)

Lemma totalCount_app h1 h2 : totalCount (h1 ++ h2) = totalCount h1 + totalCount h2.
Proof.
  unfold totalCount. induction h1 as [|c h1 IH]; [done|].
  cbn [app fold_right]. rewrite IH. lia.
Qed.

Lemma totalCount_insert h (i : nat) c :
  h !! i = Some (Some c) ->
  totalCount (<[i := Some (c + 1)]> h) = totalCount h + 1.
Proof.
  intros Hi. pose proof (lookup_lt_Some _ _ _ Hi) as Hlt.
  rewrite <- (take_drop_middle h i (Some c) Hi) at 2.
  rewrite insert_take_drop by done.
  rewrite !totalCount_app. unfold totalCount at 2 4. cbn [fold_right default].
  unfold id. lia.
Qed.

Lemma occurrences_snoc v pool b :
  occurrences v (pool ++ [b]) = occurrences v pool + (if decide (b = v) then 1 else 0).
Proof.
  unfold occurrences. rewrite list.filter_app, length_app.
  rewrite filter_cons, filter_nil. destruct (decide (b = v)); simpl; lia.
Qed.

Lemma histogramOf_snoc pool b :
  Grid.histogramOf (pool ++ [b]) = Grid.bump (Grid.histogramOf pool) b.
Proof. unfold Grid.histogramOf. by rewrite fold_left_app. Qed.

(** The histogram counts every byte of the pool once: entry [v] is the
    number of occurrences of [v] in the pool, there are 256 entries, and
    the counts add up to the length of the pool. *)
Theorem histogram_counts (pool : list Z) :
  Forall isByte pool ->
  length (Grid.histogramOf pool) = 256%nat
  /\ (forall v, isByte v ->
        Grid.histogramOf pool !! Z.to_nat v = Some (Some (occurrences v pool)))
  /\ totalCount (Grid.histogramOf pool) = Z.of_nat (length pool).
Proof.
  induction pool as [|b pool IH] using rev_ind; intros Hbytes.
  - split; [done|]. split; [|done].
    intros v Hv. unfold Grid.histogramOf. cbn [fold_left].
    rewrite lookup_replicate_2 by (unfold isByte in Hv; lia). done.
  - apply Forall_app in Hbytes as [Hpool Hb].
    apply Forall_inv in Hb.
    destruct (IH Hpool) as (Hlen & Hcount & Htotal).
    rewrite histogramOf_snoc. unfold Grid.bump.
    pose proof Hb as Hb'. unfold isByte in Hb'.
    assert ((b <? 0) = false) as -> by (apply Z.ltb_ge; lia).
    rewrite (Hcount b Hb). cbn [fmap option_fmap option_map].
    split; [by rewrite length_insert|]. split.
    + intros v Hv. rewrite occurrences_snoc.
      destruct (decide (b = v)) as [->|Hne].
      * rewrite list_lookup_insert_eq; [done|].
        rewrite Hlen. unfold isByte in Hv. lia.
      * rewrite list_lookup_insert_ne by (unfold isByte in Hv; lia).
        rewrite Hcount by done. by rewrite Z.add_0_r.
    + rewrite (totalCount_insert _ _ _ (Hcount b Hb)), Htotal, length_app.
      simpl. lia.
Qed.

Lemma histogram_counts_witness :
  Grid.histogramOf [7; 3; 7] !! Z.to_nat 7 = Some (Some 2).
Proof.
  destruct (histogram_counts [7; 3; 7]) as (_ & Hcount & _).
  - repeat constructor; unfold isByte; lia.
  - rewrite (Hcount 7) by (unfold isByte; lia). reflexivity.
Defined.


(** ** What the application displays *)

Lemma WaterfallShows_settings vm0 bits vm :
  WaterfallShows vm0 bits vm -> WaterfallShows vm bits vm.
Proof.
  intros [Hc Hw Hh Hm Hd Hz Ho Hcap Hacc Hoff]. split; try reflexivity.
  - by rewrite Hw.
  - rewrite Hw, Hh, Hd, Hoff. unfold Waterfall.rowPixels. by rewrite Hz, Ho.
Qed.

Lemma resetBitMatrix_shows_nothing vm :
  WaterfallShows (Waterfall.resetBitMatrix vm) [] (Waterfall.resetBitMatrix vm).
Proof. eapply WaterfallShows_settings. apply resetBitMatrix_shows. Qed.

Section DisplayFacts.
Context `{SubtleCrypto}.

Lemma hashNumbers_appends r :
  (hashedBatches (hashNumbers r).2 = [] /\ uintArray (hashNumbers r).1 = uintArray r)
  \/ (hashedBatches (hashNumbers r).2 <> []
      /\ exists digest, length digest = 32%nat /\ Forall isByte digest
           /\ uintArray (hashNumbers r).1 = uintArray r ++ digest).
Proof.
  unfold hashNumbers. destruct (1000 <=? length (collectedNumbers r))%nat.
  - right. split; [done|]. eexists. split; [apply digest_SHA256_length|].
    split; [apply digest_SHA256_bytes | reflexivity].
  - by left.
Qed.

Lemma assembleByte_appends r :
  (hashedBatches (assembleByte r).2 = [] /\ uintArray (assembleByte r).1 = uintArray r)
  \/ (hashedBatches (assembleByte r).2 <> []
      /\ exists digest, length digest = 32%nat /\ Forall isByte digest
           /\ uintArray (assembleByte r).1 = uintArray r ++ digest).
Proof.
  unfold assembleByte. destruct (length (finalBitBuffer r) =? 8)%nat; [|by left].
  match goal with |- context [hashNumbers ?r1] =>
    pose proof (hashNumbers_appends r1) as Hp; destruct (hashNumbers r1) as [r2 ev]
  end.
  exact Hp.
Qed.

Lemma vonNeumann_appends b1 b2 r :
  hashedBatches (vonNeumann b1 b2 r).2 = []
  /\ uintArray (vonNeumann b1 b2 r).1 = uintArray r.
Proof. unfold vonNeumann. by repeat case_match. Qed.

Lemma processSample_appends sample r :
  (hashedBatches (processSample sample r).2 = []
   /\ uintArray (processSample sample r).1 = uintArray r)
  \/ (hashedBatches (processSample sample r).2 <> []
      /\ exists digest, length digest = 32%nat /\ Forall isByte digest
           /\ uintArray (processSample sample r).1 = uintArray r ++ digest).
Proof.
  unfold processSample.
  destruct (rawBitBuffer r ++ [rawBit sample]) as [|b1 [|b2 rest]]; [by left..|].
  match goal with |- context [vonNeumann b1 b2 ?r0] =>
    pose proof (vonNeumann_appends b1 b2 r0) as [Hve Hv];
    destruct (vonNeumann b1 b2 r0) as [r1 e1]
  end.
  pose proof (assembleByte_appends r1) as Ha.
  destruct (assembleByte r1) as [r2 e2]. cbn [fst snd uintArray] in *.
  rewrite hashedBatches_app, Hve, app_nil_l. by rewrite Hv in Ha.
Qed.

Lemma resetDataBuffer_follows s :
  DisplayFollows s -> DisplayFollows (App.resetDataBuffer s).
Proof.
  intros [Hc Hm Hw Hh Hb _]. split; cbn; try done.
  exists []. split; [by left|]. split; [done|].
  apply resetBitMatrix_shows_nothing.
Qed.

Lemma DisplayFollows_fileGenerator s fg :
  DisplayFollows s ->
  DisplayFollows (App.mkState (App.rng s) (App.visualizationManager s) fg
                              (App.resets s)).
Proof. intros []. by split. Qed.

Lemma updateProgress_follows s :
  DisplayFollows s -> DisplayFollows (App.updateProgress s).
Proof.
  intros Hs. unfold App.updateProgress, App.createFileFromData.
  repeat case_match; try done.
  apply resetDataBuffer_follows. by apply DisplayFollows_fileGenerator.
Qed.

Lemma afterDigest_follows pool digest s :
  uintArray (App.rng s) = pool ++ digest ->
  Forall isByte digest ->
  8 * Z.of_nat (length (pool ++ digest)) < 2 ^ 31 ->
  DisplayFollows (App.mkState (mkAudioRNG [] [] [] pool) (App.visualizationManager s)
                              (App.fileGenerator s) (App.resets s)) ->
  DisplayFollows (App.afterDigest s).
Proof.
  intros Hpool Hdigest Hsize [Hc Hm Hw Hh Hb (shown & Hshown & Hlast & Hshows)].
  cbn [App.visualizationManager App.rng uintArray] in *.
  assert (Hbytes : Forall isByte (pool ++ digest)) by (by apply Forall_app).
  set (vm := App.visualizationManager s) in *.
  assert (Hdraw : WaterfallShows vm (Grid.uint8ArrayToBits (pool ++ digest))
                    (Waterfall._drawBitWaterfall (pool ++ digest) vm)
                  /\ Waterfall.lastBitCount (Waterfall._drawBitWaterfall (pool ++ digest) vm)
                     = Z.of_nat (length (pool ++ digest)) * 8).
  { destruct Hshown as [-> | ->].
    - apply (_drawBitWaterfall_shows vm [] (pool ++ digest) vm); done.
    - by apply (_drawBitWaterfall_shows vm pool digest vm). }
  destruct Hdraw as [Hshows' Hlast'].
  assert (Hfollows : DisplayFollows
            (App.mkState (App.rng s) (Waterfall.drawBitMatrix (uintArray (App.rng s)) vm)
                         (App.fileGenerator s) (App.resets s))).
  { unfold Waterfall.drawBitMatrix. rewrite Hm, Hpool.
    pose proof Hshows' as [Hc' Hw' Hh' Hm' _ _ _ _ _ _].
    split; cbn [App.visualizationManager App.rng]; try congruence.
    exists (pool ++ digest). split; [right; by rewrite Hpool|].
    split; [done|]. by eapply WaterfallShows_settings. }
  unfold App.afterDigest. fold vm. cbn [App.fileGenerator].
  destruct (Consumers.isGenerating (App.fileGenerator s)); [|done].
  by apply updateProgress_follows.
Qed.

Lemma exec_follows op s :
  keepsWaterfall op = true ->
  8 * (Z.of_nat (length (uintArray (App.rng s))) + 32) < 2 ^ 31 ->
  DisplayFollows s -> DisplayFollows (App.exec op s).
Proof.
  intros Hop Hsize Hs. destruct op; try discriminate; cbn [App.exec].
  - unfold App.processSampleStep.
    pose proof (processSample_appends sample (App.rng s)) as Happ.
    destruct (processSample sample (App.rng s)) as [r ev]. cbn [fst snd] in Happ.
    destruct Happ as [[-> Hpool] | [Hev (digest & Hlen & Hdigest & Hpool)]].
    + destruct Hs as [Hc Hm Hw Hh Hb Hshows]. split; cbn; try done; by rewrite Hpool.
    + destruct (hashedBatches ev) as [|e evs]; [done|].
      apply (afterDigest_follows (uintArray (App.rng s)) digest); cbn; try done.
      * rewrite length_app, Hlen. lia.
      * destruct Hs as [Hc Hm Hw Hh Hb Hshows]. by split.
  - destruct Hs as [Hc Hm Hw Hh Hb _]. split; cbn; try done.
    exists []. split; [by left|]. split; [done|]. apply resetBitMatrix_shows_nothing.
  - destruct Hs. by split.
  - unfold App.generatePassword. repeat case_match; cbn [fst]; try done;
      by apply resetDataBuffer_follows.
  - unfold App.generateNumbers. repeat case_match; cbn [fst]; try done;
      by apply resetDataBuffer_follows.
  - unfold App.generateFile, App.createFileFromData.
    repeat case_match; cbn [fst];
      first [ apply resetDataBuffer_follows; by apply DisplayFollows_fileGenerator
            | by apply DisplayFollows_fileGenerator ].
  - by apply resetDataBuffer_follows.
  - destruct Hs as [Hc Hm Hw Hh Hb _]. split; cbn; try (done || lia).
    exists []. split; [by left|]. split; [done|].
    apply resetBitMatrix_shows_nothing.
Qed.

Lemma exec_pool_length op s :
  (length (uintArray (App.rng (App.exec op s)))
   <= length (uintArray (App.rng s)) + 32)%nat.
Proof.
  destruct (exec_rng op s) as [[_ [-> | (sample & _ & ->)]] | [_ ->]].
  - lia.
  - destruct (processSample_pool sample (App.rng s)) as [-> | (d & Hd & ->)];
      [lia | rewrite length_app; lia].
  - simpl. lia.
Qed.

Lemma run_follows ops : forall s,
  forallb keepsWaterfall ops = true ->
  8 * (Z.of_nat (length (uintArray (App.rng s))) + 32 * Z.of_nat (length ops)) < 2 ^ 31 ->
  DisplayFollows s -> DisplayFollows (App.run ops s).
Proof.
  induction ops as [|op ops IH]; intros s Hops Hsize Hs; [done|].
  cbn [forallb] in Hops. apply andb_true_iff in Hops as [Hop Hops].
  cbn [length] in Hsize.
  unfold App.run. cbn [fold_left]. apply IH; [done| |].
  - pose proof (exec_pool_length op s). lia.
  - apply exec_follows; [done | lia | done].
Qed.

Lemma initial_follows : DisplayFollows App.initial.
Proof.
  split; cbn; try done.
  exists []. split; [by left|]. split; [done|].
  apply (resetBitMatrix_shows_nothing (Waterfall.newVisualizationManager true)).
Qed.

End DisplayFacts.



(** ** What the grid mode of the revision shows *)

Lemma concat_insert_cell {A} (w : nat) (c : A) (g : list (list A)) :
  forall (y x : nat) row,
  Forall (fun row => length row = w) g ->
  g !! y = Some row -> (x < w)%nat ->
  concat (<[y := <[x := c]> row]> g) = <[(y * w + x)%nat := c]> (concat g).
Proof.
  induction g as [|row0 g IH]; intros y x row Hreg Hy Hx; [done|].
  apply list.Forall_cons in Hreg as [Hrow0 Hreg].
  destruct y as [|y].
  - cbn in Hy. injection Hy as ->.
    change (concat (<[0%nat := <[x := c]> row]> (row :: g)))
      with (<[x := c]> row ++ concat g).
    change (concat (row :: g)) with (row ++ concat g).
    cbn [Nat.mul Nat.add]. by rewrite insert_app_l by lia.
  - cbn in Hy.
    change (concat (<[S y := <[x := c]> row]> (row0 :: g)))
      with (row0 ++ concat (<[y := <[x := c]> row]> g)).
    rewrite (IH y x row Hreg Hy Hx).
    replace (S y * w + x)%nat with (length row0 + (y * w + x))%nat by lia.
    change (concat (row0 :: g)) with (row0 ++ concat g).
    by rewrite insert_app_r.
Qed.

Lemma concat_length_regular {A} (w : nat) (g : list (list A)) :
  Forall (fun row => length row = w) g -> length (concat g) = (length g * w)%nat.
Proof.
  induction 1 as [|row g Hrow _ IH]; [done|].
  cbn [concat length]. rewrite length_app, IH, Hrow. lia.
Qed.

Lemma paintOne_flat vm (g : list (list Waterfall.Color)) (pos bit : Z) :
  0 < Waterfall.matrixWidth vm ->
  Forall (fun row => length row = Z.to_nat (Waterfall.matrixWidth vm)) g ->
  0 <= pos < Waterfall.matrixWidth vm * Z.of_nat (length g) ->
  concat (Waterfall.paintOne vm g pos bit)
  = <[Z.to_nat pos := if bit =? 0 then Waterfall.colorZero vm
                      else Waterfall.colorOne vm]> (concat g)
  /\ length (Waterfall.paintOne vm g pos bit) = length g
  /\ Forall (fun row => length row = Z.to_nat (Waterfall.matrixWidth vm))
            (Waterfall.paintOne vm g pos bit).
Proof.
  intros Hw Hreg Hpos. unfold Waterfall.paintOne.
  set (w := Waterfall.matrixWidth vm) in *.
  pose proof (Z.div_mod pos w ltac:(lia)) as Hdm.
  pose proof (Z.mod_pos_bound pos w ltac:(lia)) as Hm.
  assert (Hy : 0 <= pos / w < Z.of_nat (length g)).
  { split; [apply Z.div_pos; lia | apply Z.div_lt_upper_bound; lia]. }
  unfold Js.get.
  assert ((pos / w <? 0) = false) as -> by (apply Z.ltb_ge; lia).
  destruct (lookup_lt_is_Some_2 g (Z.to_nat (pos / w)) ltac:(lia)) as [row Hrow].
  rewrite Hrow.
  assert ((pos - pos / w * w <? 0) = false) as -> by (apply Z.ltb_ge; lia).
  split; [|split].
  - rewrite (concat_insert_cell (Z.to_nat w)) by (done || lia).
    f_equal. nia.
  - by rewrite length_insert.
  - apply Forall_insert; [done|]. rewrite length_insert.
    rewrite Forall_forall in Hreg. apply Hreg.
    apply list_elem_of_In. eapply list_elem_of_lookup_2. exact Hrow.
Qed.

Lemma gridPicture_snoc vm bits b :
  let cap := Z.to_nat (Waterfall.matrixWidth vm * Waterfall.matrixHeight vm) in
  (0 < cap)%nat ->
  gridPicture vm (bits ++ [b])
  = <[(length bits mod cap)%nat :=
        if b =? 0 then Waterfall.colorZero vm else Waterfall.colorOne vm]>
      (gridPicture vm bits).
Proof.
  intros cap Hcap. unfold gridPicture. fold cap.
  apply list_eq. intros p.
  pose proof (Nat.mod_upper_bound (length bits) cap ltac:(lia)) as Hmod.
  destruct (decide (p < cap)%nat) as [Hp|Hp].
  2:{ rewrite list_lookup_insert_ne by lia.
      rewrite !list_lookup_fmap.
      by rewrite !(proj2 (lookup_ge_None _ _)) by (rewrite length_seq; lia). }
  rewrite list_lookup_fmap, lookup_seq_lt by done.
  cbn [fmap option_fmap option_map Nat.add].
  rewrite length_app. cbn [length].
  replace (length bits + 1)%nat with (S (length bits)) by lia.
  cbn [latestAt].
  destruct (decide ((length bits mod cap)%nat = p)) as [Heq|Hne].
  - subst p. rewrite list_lookup_insert_eq by (rewrite length_map, length_seq; lia).
    rewrite lookup_app_r by lia. rewrite Nat.sub_diag. done.
  - rewrite list_lookup_insert_ne by done.
    rewrite list_lookup_fmap, lookup_seq_lt by done.
    cbn [fmap option_fmap option_map Nat.add].
    assert (Hlatest : forall n i, latestAt cap p n = Some i -> (i < n)%nat).
    { induction n as [|n IHn]; intros i Hi; [done|].
      cbn [latestAt] in Hi. case_decide; [injection Hi as <-; lia|].
      apply IHn in Hi. lia. }
    destruct (latestAt cap p (length bits)) as [i|] eqn:Hi; [|done].
    apply Hlatest in Hi. by rewrite lookup_app_l by done.
Qed.

Lemma paintBits_show pool vm0 allbits (n : nat) : forall (a : nat) g,
  0 < Waterfall.matrixWidth vm0 -> 0 < Waterfall.matrixHeight vm0 ->
  Waterfall.capacity vm0 = Waterfall.matrixWidth vm0 * Waterfall.matrixHeight vm0 ->
  (a + n <= length allbits)%nat ->
  (forall k : nat, (k < length allbits)%nat ->
     allbits !! k = Some (Waterfall.pullBit pool (Z.of_nat k))) ->
  length g = Z.to_nat (Waterfall.matrixHeight vm0) ->
  Forall (fun row => length row = Z.to_nat (Waterfall.matrixWidth vm0)) g ->
  concat g = gridPicture vm0 (take a allbits) ->
  let g' := fold_left
              (fun g next => Waterfall.paintOne vm0 g (Js.rem next (Waterfall.capacity vm0))
                               (Waterfall.pullBit pool next))
              (seqZ (Z.of_nat a) (Z.of_nat n)) g in
  length g' = Z.to_nat (Waterfall.matrixHeight vm0)
  /\ Forall (fun row => length row = Z.to_nat (Waterfall.matrixWidth vm0)) g'
  /\ concat g' = gridPicture vm0 (take (a + n) allbits).
Proof.
  induction n as [|n IH]; intros a g Hw Hh Hcap Hn Hbits Hrows Hcols Hcells.
  - cbn zeta. rewrite Nat.add_0_r. done.
  - cbn zeta. rewrite seqZ_S, fold_left_app. cbn [fold_left].
    destruct (IH a g Hw Hh Hcap ltac:(lia) Hbits Hrows Hcols Hcells)
      as (Hrows' & Hcols' & Hcells').
    set (g1 := fold_left _ (seqZ (Z.of_nat a) (Z.of_nat n)) g) in *.
    set (cap := Waterfall.matrixWidth vm0 * Waterfall.matrixHeight vm0).
    assert (Hcappos : 0 < cap) by (unfold cap; nia).
    rewrite Hcap. fold cap.
    replace (Z.of_nat a + Z.of_nat n) with (Z.of_nat (a + n)) by lia.
    unfold Js.rem. rewrite Z.rem_mod_nonneg by lia.
    pose proof (Z.mod_pos_bound (Z.of_nat (a + n)) cap Hcappos) as Hmod.
    destruct (paintOne_flat vm0 g1 (Z.of_nat (a + n) mod cap)
                (Waterfall.pullBit pool (Z.of_nat (a + n))) Hw Hcols')
      as (Hflat & Hlen & Hreg).
    { rewrite Hrows'. unfold cap in *. lia. }
    split; [by rewrite Hlen|]. split; [done|].
    rewrite Hflat, Hcells'.
    replace (a + S n)%nat with (S (a + n)) by lia.
    rewrite (take_S_r allbits (a + n)
               (Waterfall.pullBit pool (Z.of_nat (a + n)))) by (apply Hbits; lia).
    rewrite gridPicture_snoc by (fold cap; lia). fold cap.
    rewrite length_take, Nat.min_l by lia.
    f_equal. rewrite <- (Z2Nat.id cap) at 1 by lia.
    rewrite <- Nat2Z.inj_mod. lia.
Qed.

Lemma _drawBitGrid_shows vm0 p1 p2 vm :
  0 < Waterfall.matrixWidth vm0 -> 0 < Waterfall.matrixHeight vm0 ->
  Waterfall.capacity vm0 = Waterfall.matrixWidth vm0 * Waterfall.matrixHeight vm0 ->
  Waterfall.hasCanvas vm0 = true ->
  Forall isByte (p1 ++ p2) ->
  8 * Z.of_nat (length (p1 ++ p2)) < 2 ^ 31 ->
  GridModeShows vm0 (Grid.uint8ArrayToBits p1) vm ->
  Waterfall.lastBitCount vm = Z.of_nat (length p1) * 8 ->
  GridModeShows vm0 (Grid.uint8ArrayToBits (p1 ++ p2))
    (Waterfall._drawBitGrid (p1 ++ p2) vm)
  /\ Waterfall.lastBitCount (Waterfall._drawBitGrid (p1 ++ p2) vm)
     = Z.of_nat (length (p1 ++ p2)) * 8.
Proof.
  intros Hw Hh Hcap Hc Hbytes Hsize Hshows Hlast.
  pose proof Hshows as [Hc' Hw' Hh' Hm' Hz' Ho' Hcap' Hrows Hcols Hcells].
  unfold Waterfall._drawBitGrid.
  rewrite Hc', Hc. cbn [negb]. rewrite Hlast.
  rewrite length_app in *.
  destruct (Z.leb_spec ((Z.of_nat (length p1 + length p2)) * 8)
              (Z.of_nat (length p1) * 8)) as [Hle|Hgt].
  - assert (p2 = []) as -> by (destruct p2; [done | simpl in Hle; lia]).
    rewrite app_nil_r. split; [done|]. rewrite Hlast. simpl. lia.
  - split; [|cbn [Waterfall.lastBitCount Waterfall.setLastBitCount
                  Waterfall.setOffscreen]; lia].
    set (allbits := Grid.uint8ArrayToBits (p1 ++ p2)).
    assert (Hall : length allbits = (8 * (length p1 + length p2))%nat).
    { pose proof (uint8ArrayToBits_length (p1 ++ p2)) as Hl.
      fold allbits in Hl. rewrite length_app in Hl. lia. }
    pose proof (uint8ArrayToBits_length p1) as Hlen1.
    replace (Z.of_nat (length p1) * 8) with (Z.of_nat (8 * length p1)) by lia.
    replace (Z.of_nat (length p1 + length p2) * 8 - Z.of_nat (8 * length p1))
      with (Z.of_nat (8 * length p2)) by lia.
    rewrite (fold_left_pointwise _
               (fun g next => Waterfall.paintOne vm0 g
                                (Js.rem next (Waterfall.capacity vm0))
                                (Waterfall.pullBit (p1 ++ p2) next))).
    2:{ intros g next. unfold Waterfall.paintOne. by rewrite Hw', Hz', Ho', Hcap'. }
    destruct (paintBits_show (p1 ++ p2) vm0 allbits (8 * length p2) (8 * length p1)
                (Waterfall.offscreen vm) Hw Hh Hcap ltac:(lia))
      as (Hrows2 & Hcols2 & Hcells2); [| done | done | |].
    + intros k Hk. apply pullBit_all; [done | rewrite length_app; lia | done].
    + rewrite Hcells. unfold allbits. rewrite uint8ArrayToBits_app.
      rewrite take_app_length' by lia. done.
    + split; cbn [Waterfall.setLastBitCount Waterfall.setOffscreen
                  Waterfall.hasCanvas Waterfall.matrixWidth Waterfall.matrixHeight
                  Waterfall.renderMode Waterfall.colorZero Waterfall.colorOne
                  Waterfall.capacity Waterfall.offscreen]; try done.
      rewrite Hcells2. f_equal. apply take_ge. lia.
Qed.

Lemma map_const_seq {A} (c : A) (n : nat) : forall a,
  map (fun _ => c) (seq a n) = replicate n c.
Proof. induction n as [|n IH]; intros a; [done|]. cbn. by rewrite IH. Qed.

Lemma concat_replicate_replicate {A} (c : A) (h w : nat) :
  concat (replicate h (replicate w c)) = replicate (h * w) c.
Proof.
  induction h as [|h IH]; [done|].
  cbn [replicate concat Nat.mul]. by rewrite IH, replicate_add.
Qed.

Lemma resetBitMatrix_shows_grid vm :
  0 <= Waterfall.matrixWidth vm -> 0 <= Waterfall.matrixHeight vm ->
  GridModeShows vm [] (Waterfall.resetBitMatrix vm).
Proof.
  intros Hw Hh. split; try reflexivity.
  - cbn [Waterfall.resetBitMatrix Waterfall.offscreen].
    unfold Waterfall.clearedOffscreen. by rewrite length_replicate.
  - cbn [Waterfall.resetBitMatrix Waterfall.offscreen].
    unfold Waterfall.clearedOffscreen. apply Forall_replicate.
    by rewrite length_replicate.
  - cbn [Waterfall.resetBitMatrix Waterfall.offscreen].
    unfold Waterfall.clearedOffscreen, gridPicture.
    change (length (@nil Z)) with 0%nat. cbn [latestAt].
    rewrite map_const_seq, concat_replicate_replicate. f_equal. nia.
Qed.

Lemma drawGrowing_shows_grid vm0 chunks : forall pool vm,
  0 < Waterfall.matrixWidth vm0 -> 0 < Waterfall.matrixHeight vm0 ->
  Waterfall.capacity vm0 = Waterfall.matrixWidth vm0 * Waterfall.matrixHeight vm0 ->
  Waterfall.hasCanvas vm0 = true ->
  Waterfall.renderMode vm0 = Waterfall.ModeGrid ->
  Forall isByte (pool ++ concat chunks) ->
  8 * Z.of_nat (length (pool ++ concat chunks)) < 2 ^ 31 ->
  GridModeShows vm0 (Grid.uint8ArrayToBits pool) vm ->
  Waterfall.lastBitCount vm = Z.of_nat (length pool) * 8 ->
  GridModeShows vm0 (Grid.uint8ArrayToBits (pool ++ concat chunks))
    (drawGrowing pool chunks vm)
  /\ Waterfall.lastBitCount (drawGrowing pool chunks vm)
     = Z.of_nat (length (pool ++ concat chunks)) * 8.
Proof.
  induction chunks as [|chunk chunks IH];
    intros pool vm Hw Hh Hcap Hc Hm Hbytes Hsize Hshows Hlast.
  - cbn [concat drawGrowing]. rewrite app_nil_r. done.
  - cbn [concat drawGrowing]. cbn [concat] in Hbytes, Hsize.
    rewrite app_assoc in *.
    assert (Hb1 : Forall isByte (pool ++ chunk)).
    { apply Forall_app in Hbytes. tauto. }
    assert (Hs1 : 8 * Z.of_nat (length (pool ++ chunk)) < 2 ^ 31).
    { rewrite length_app in Hsize. lia. }
    unfold Waterfall.drawBitMatrix.
    rewrite (gshows_mode _ _ _ Hshows), Hm.
    destruct (_drawBitGrid_shows vm0 pool chunk vm Hw Hh Hcap Hc Hb1 Hs1 Hshows Hlast)
      as [Hshows' Hlast'].
    by apply IH.
Qed.

(** In the grid mode of the revision, drawn after each growth of the pool
    from a cleared matrix, cell [i mod capacity] (cells are counted row
    after row) shows bit [i] of the pool, a later bit replacing an earlier
    one on the same cell, and a cell no bit has reached is white.  The
    canvas keeps [matrixHeight] rows of [matrixWidth] cells, and the
    cursor is at the end of the pool. *)
Theorem revised_grid_shows_latest_bits (chunks : list (list Z))
    (vm : Waterfall.VisualizationManager) :
  Waterfall.hasCanvas vm = true ->
  Waterfall.renderMode vm = Waterfall.ModeGrid ->
  0 < Waterfall.matrixWidth vm -> 0 < Waterfall.matrixHeight vm ->
  Waterfall.capacity vm = Waterfall.matrixWidth vm * Waterfall.matrixHeight vm ->
  Forall isByte (concat chunks) ->
  8 * Z.of_nat (length (concat chunks)) < 2 ^ 31 ->
  let vm' := drawGrowing [] chunks (Waterfall.resetBitMatrix vm) in
  concat (Waterfall.offscreen vm')
  = gridPicture vm (Grid.uint8ArrayToBits (concat chunks))
  /\ length (Waterfall.offscreen vm') = Z.to_nat (Waterfall.matrixHeight vm)
  /\ Forall (fun row => length row = Z.to_nat (Waterfall.matrixWidth vm))
            (Waterfall.offscreen vm')
  /\ Waterfall.lastBitCount vm' = Z.of_nat (length (concat chunks)) * 8.
Proof.
  intros Hc Hm Hw Hh Hcap Hbytes Hsize.
  destruct (drawGrowing_shows_grid vm chunks [] (Waterfall.resetBitMatrix vm))
    as [Hshows Hlast]; try done.
  - apply resetBitMatrix_shows_grid; lia.
  - cbn zeta. destruct Hshows. done.
Qed.

Lemma revised_grid_shows_latest_bits_witness :
  let vm := Waterfall.setRenderMode true
              (Waterfall.setMatrixSize 4 3 2 (Waterfall.newVisualizationManager true)) in
  let vm' := drawGrowing [] [[165]; [15]] (Waterfall.resetBitMatrix vm) in
  concat (Waterfall.offscreen vm') = gridPicture vm (Grid.uint8ArrayToBits [165; 15])
  /\ Waterfall.gridBits vm' = [[1; 1; 1; 1]; [0; 1; 0; 1]; [0; 0; 0; 0]].
Proof.
  cbn zeta. split; [|vm_compute; reflexivity].
  apply (revised_grid_shows_latest_bits [[165]; [15]]
           (Waterfall.setRenderMode true
              (Waterfall.setMatrixSize 4 3 2 (Waterfall.newVisualizationManager true)))).
  - reflexivity.
  - reflexivity.
  - reflexivity.
  - reflexivity.
  - reflexivity.
  - repeat constructor; unfold isByte; lia.
  - vm_compute. reflexivity.
Defined.


(** ** Bounded work in the grid of [script.js] *)

(** One invocation of [drawBitMatrix] of [script.js] paints at most 3000
    cells, keeps the adaptive interval between 30 and 200 milliseconds
    whatever the measured durations, and does nothing at all when it comes
    sooner than the interval after the last one that ran. *)
Theorem grid_work_bounded (now : Z) (updateTime : Q) (pool : list Z)
    (vm : Grid.VisualizationManager) :
  30 <= Grid.updateInterval vm <= 200 ->
  0 <= Grid.lastBitCount vm ->
  let vm' := Grid.drawBitMatrix now updateTime pool vm in
  30 <= Grid.updateInterval vm' <= 200
  /\ Grid.lastBitCount vm' <= Grid.lastBitCount vm + 3000
  /\ (Grid.adaptiveInterval vm = true ->
      now - Grid.updateThrottle vm < Grid.updateInterval vm -> vm' = vm).
Proof.
  intros Hint Hlast vm'. subst vm'. unfold Grid.drawBitMatrix.
  destruct (Grid.hasCanvas vm); cbn [negb]; [|by repeat split; try lia].
  destruct (Grid.adaptiveInterval vm) eqn:Hadaptive; cbn [andb].
  - destruct (Z.ltb_spec (now - Grid.updateThrottle vm) (Grid.updateInterval vm))
      as [Hsoon|Hlate]; [by repeat split; try lia|].
    cbn [Grid.setThrottle Grid.matrixWidth Grid.matrixHeight Grid.lastBitCount
         Grid.isMatrixComplete].
    repeat case_match;
      unfold Grid.updatePerformanceMetrics, Grid.setCursor, Grid.updatePixelsBatch,
        Grid.performFullRefresh;
      cbn [Grid.setThrottle Grid.updateInterval Grid.lastBitCount
           Grid.adaptiveInterval];
      try rewrite Hadaptive;
      repeat case_match;
      (split; [lia|]; split; [|lia]);
      try lia;
      match goal with
      | |- context [Grid.calculateOptimalChunkSize ?v] =>
          pose proof (calculateOptimalChunkSize_bounds v); lia
      end.
  - cbn [Grid.setThrottle Grid.matrixWidth Grid.matrixHeight Grid.lastBitCount
         Grid.isMatrixComplete].
    repeat case_match;
      unfold Grid.updatePerformanceMetrics, Grid.setCursor, Grid.updatePixelsBatch,
        Grid.performFullRefresh;
      cbn [Grid.setThrottle Grid.updateInterval Grid.lastBitCount
           Grid.adaptiveInterval];
      try rewrite Hadaptive;
      (split; [lia|]; split; [|done]);
      try lia;
      match goal with
      | |- context [Grid.calculateOptimalChunkSize ?v] =>
          pose proof (calculateOptimalChunkSize_bounds v); lia
      end.
Qed.

Lemma grid_work_bounded_witness :
  Grid.lastBitCount
    (Grid.drawBitMatrix 1000 1%Q (replicate 2000 255) (Grid.newVisualizationManager 200 100))
  <= 0 + 3000.
Proof.
  destruct (grid_work_bounded 1000 1%Q (replicate 2000 255)
              (Grid.newVisualizationManager 200 100)) as (_ & Hwork & _).
  - cbn. lia.
  - cbn. lia.
  - exact Hwork.
Defined.

(** ** The loop of the application is the pipeline *)

Section AppPipeline.
Context `{SubtleCrypto}.

Lemma consumeBits_canvas pool (l : list Z) : forall vm,
  Waterfall.hasCanvas (fold_left (Waterfall.consumeBit pool) l vm)
  = Waterfall.hasCanvas vm.
Proof.
  induction l as [|i l IH]; intros vm; [done|].
  cbn [fold_left]. rewrite IH.
  unfold Waterfall.consumeBit, Waterfall.commitRow. by repeat case_match.
Qed.

Lemma drawBitMatrix_cursor pool vm :
  Waterfall.hasCanvas vm = true ->
  Waterfall.lastBitCount vm <= Z.of_nat (length pool) * 8 ->
  Waterfall.lastBitCount (Waterfall.drawBitMatrix pool vm)
  = Z.of_nat (length pool) * 8
  /\ Waterfall.hasCanvas (Waterfall.drawBitMatrix pool vm) = true.
Proof.
  intros Hc Hle. unfold Waterfall.drawBitMatrix, Waterfall._drawBitWaterfall,
    Waterfall._drawBitGrid.
  rewrite Hc. cbn [negb].
  destruct (Waterfall.renderMode vm);
    destruct (Z.leb_spec (Z.of_nat (length pool) * 8) (Waterfall.lastBitCount vm));
    cbn [Waterfall.lastBitCount Waterfall.setLastBitCount Waterfall.hasCanvas
         Waterfall.setOffscreen]; (split; [lia|]); try done.
  by rewrite consumeBits_canvas.
Qed.

Lemma processSampleStep_pipeline sample s :
  Consumers.isGenerating (App.fileGenerator s) = false ->
  Waterfall.hasCanvas (App.visualizationManager s) = true ->
  Waterfall.lastBitCount (App.visualizationManager s)
  = Z.of_nat (length (uintArray (App.rng s))) * 8 ->
  let s' := App.processSampleStep sample s in
  App.rng s' = (processSample sample (App.rng s)).1
  /\ App.resets s' = App.resets s
  /\ App.fileGenerator s' = App.fileGenerator s
  /\ Waterfall.hasCanvas (App.visualizationManager s') = true
  /\ Waterfall.lastBitCount (App.visualizationManager s')
     = Z.of_nat (length (uintArray (App.rng s'))) * 8.
Proof.
  intros Hfg Hc Hlast. cbn zeta. unfold App.processSampleStep.
  pose proof (processSample_appends sample (App.rng s)) as Happ.
  destruct (processSample sample (App.rng s)) as [r ev]. cbn [fst snd] in *.
  destruct Happ as [[-> Hpool] | [Hev (digest & Hlen & _ & Hpool)]].
  - cbn. by rewrite Hpool.
  - destruct (hashedBatches ev) as [|e evs]; [done|].
    unfold App.afterDigest. cbn [App.fileGenerator App.rng App.visualizationManager
                                  App.resets].
    rewrite Hfg.
    destruct (drawBitMatrix_cursor (uintArray r) (App.visualizationManager s) Hc)
      as [Hlast' Hc'].
    { rewrite Hlast, Hpool, length_app. lia. }
    cbn. done.
Qed.

(** Fed with samples only, from its initial state, the application holds
    exactly the buffers that [processSamples] leaves on these samples;
    nothing has been reset, and the cursor of the display is at the end of
    the pool. *)
Theorem app_runs_the_pipeline (data : list Z) :
  let s := App.run (map App.Sample data) App.initial in
  App.rng s = (processSamples data newAudioRNG).1
  /\ App.resets s = 0%nat
  /\ Waterfall.lastBitCount (App.visualizationManager s)
     = Z.of_nat (length (uintArray (App.rng s))) * 8.
Proof.
  cbn zeta.
  assert (Hgen : forall data s,
            Consumers.isGenerating (App.fileGenerator s) = false ->
            Waterfall.hasCanvas (App.visualizationManager s) = true ->
            Waterfall.lastBitCount (App.visualizationManager s)
            = Z.of_nat (length (uintArray (App.rng s))) * 8 ->
            let s' := App.run (map App.Sample data) s in
            App.rng s' = (processSamples data (App.rng s)).1
            /\ App.resets s' = App.resets s
            /\ Waterfall.lastBitCount (App.visualizationManager s')
               = Z.of_nat (length (uintArray (App.rng s'))) * 8).
  { clear data. induction data as [|sample data IH]; intros s Hfg Hc Hlast; [done|].
    cbn zeta. unfold App.run. cbn [map fold_left App.exec].
    destruct (processSampleStep_pipeline sample s Hfg Hc Hlast)
      as (Hrng & Hres & Hfg' & Hc' & Hlast').
    destruct (IH (App.processSampleStep sample s)) as (Hrng2 & Hres2 & Hlast2);
      [congruence | done | done |].
    unfold App.run in *. split; [|split; [|exact Hlast2]].
    - by rewrite Hrng2, Hrng, processSamples_cons.
    - by rewrite Hres2, Hres. }
  by apply (Hgen data App.initial).
Qed.

End AppPipeline.


(** ** The pool of the revision serves once *)

Section ServesOnce.
Import Consumers.

Lemma empty_pool_serves_nothing (pw : PasswordForm) (nums : NumbersForm)
    (fileSizeEl : Field) (s : App.State) :
  uintArray (App.rng s) = [] ->
  (App.generatePassword pw s).2 = PwNotEnough
  /\ (App.generateNumbers nums s).2 = NumNotEnough
  /\ ((App.generateFile fileSizeEl s).2 = FileCollecting
      \/ App.parseOr fileSizeEl 1024 = None).
Proof.
  intros Hpool. unfold App.generatePassword, App.generateNumbers, App.generateFile.
  rewrite Hpool. cbn [length Nat.ltb Nat.leb fst snd].
  split; [done|]. split; [done|].
  destruct (App.parseOr fileSizeEl 1024) as [size|]; [left | by right].
  cbn [App.clamp]. change (Z.of_nat 0) with 0.
  destruct (Z.ltb_spec 0 (Z.max 1 (Z.min 10485760 size))); [done | lia].
Qed.

(** In the revision a pool serves one result.  A request that produces a
    password, numbers or a file leaves the four buffers empty, so that
    whatever is requested next reports that there is not enough data (a
    file request waits, unless its size field is not a number); a request
    that only reports leaves the buffers as they were. *)
Theorem revised_pool_serves_once (pw pw' : PasswordForm) (nums nums' : NumbersForm)
    (fileSizeEl fileSizeEl' : Field) (s : App.State) :
  let served (s' : App.State) :=
    App.rng s' = newAudioRNG
    /\ (App.generatePassword pw' s').2 = PwNotEnough
    /\ (App.generateNumbers nums' s').2 = NumNotEnough
    /\ ((App.generateFile fileSizeEl' s').2 = FileCollecting
        \/ App.parseOr fileSizeEl' 1024 = None) in
  match (App.generatePassword pw s).2 with
  | PwGenerated _ => served (App.generatePassword pw s).1
  | _ => (App.generatePassword pw s).1 = s
  end
  /\ match (App.generateNumbers nums s).2 with
     | NumGenerated _ => served (App.generateNumbers nums s).1
     | _ => (App.generateNumbers nums s).1 = s
     end
  /\ match (App.generateFile fileSizeEl s).2 with
     | FileGenerated => served (App.generateFile fileSizeEl s).1
     | FileCollecting => App.rng (App.generateFile fileSizeEl s).1 = App.rng s
     end.
Proof.
  intros served.
  assert (Hserved : forall s', App.rng s' = newAudioRNG -> served s').
  { intros s' Hrng. split; [done|].
    apply empty_pool_serves_nothing. by rewrite Hrng. }
  split; [|split].
  - unfold App.generatePassword. repeat case_match; cbn [fst snd]; try done.
    by apply Hserved.
  - unfold App.generateNumbers. repeat case_match; cbn [fst snd]; try done;
      by apply Hserved.
  - unfold App.generateFile. repeat case_match; cbn [fst snd]; try done;
      by apply Hserved.
Qed.

End ServesOnce.


Section RevisedNumbers.
Import Consumers.

(** [generateNumbers] of the revision reads a field with
    [parseInt(value || "d")]: a 0 is kept, so the range check sees the
    numbers as typed; a field that is not a number passes the range check
    (a comparison with [NaN] is false) and every number of the result is
    [NaN].  The numbers typed lie within -2^53 .. 2^53, where the sums of
    JavaScript numbers are those of the integers. *)
Theorem revised_numbers_as_typed (form : NumbersForm) (s : App.State) :
  Forall isByte (uintArray (App.rng s)) ->
  (32 <= length (uintArray (App.rng s)))%nat ->
  (forall min, App.parseOr (numMinEl form) 0 = Some min -> - 2 ^ 53 <= min <= 2 ^ 53) ->
  (forall max, App.parseOr (numMaxEl form) 255 = Some max -> - 2 ^ 53 <= max <= 2 ^ 53) ->
  let pool := uintArray (App.rng s) in
  let count := Z.to_nat (default 0 (App.clamp 1 10000 (App.parseOr (numCountEl form) 100))) in
  (App.generateNumbers form s).2
  = match App.parseOr (numMinEl form) 0, App.parseOr (numMaxEl form) 255 with
    | Some min, Some max =>
        if max <=? min then NumRangeError
        else NumGenerated (map (fun i => Some (numberAt pool min max i)) (seq 0 count))
    | _, _ => NumGenerated (replicate count None)
    end.
Proof.
  intros Hbytes Hpool _ _ pool count. unfold App.generateNumbers. fold pool.
  destruct (Nat.ltb_spec (length pool) 32) as [|_]; [unfold pool in *; lia|].
  assert (Hne : pool <> []) by (intros Heq; unfold pool in *; rewrite Heq in Hpool;
                                 simpl in Hpool; lia).
  assert (Hnan : map (fun _ : Z => @None Z)
                     (seqZ 0 (default 0 (App.clamp 1 10000
                                           (App.parseOr (numCountEl form) 100))))
                 = replicate count None).
  { unfold seqZ. rewrite <- list_fmap_compose. fold count.
    unfold compose. apply (map_const_seq (@None Z)). }
  destruct (App.parseOr (numMinEl form) 0) as [min|],
           (App.parseOr (numMaxEl form) 255) as [max|]; cbn [snd]; try (by rewrite Hnan).
  destruct (Z.leb_spec max min) as [|Hlt]; [done|]. cbn [snd]. f_equal.
  unfold seqZ. rewrite <- list_fmap_compose. fold count.
  apply map_ext. intros i. cbn [compose]. rewrite Z.add_0_r.
  by apply scaledValue_numberAt.
Qed.

End RevisedNumbers.

Lemma revised_numbers_as_typed_witness :
  let s := App.mkState (mkAudioRNG [] [] [] (seqZ 0 32))
             (Waterfall.newVisualizationManager true) Consumers.newFileGenerator 0 in
  (App.generateNumbers
     (Consumers.mkNumbersForm (Consumers.Text (Some 2)) (Consumers.Text None)
        (Consumers.Text (Some 0))) s).2
  = Consumers.NumGenerated [None; None]
  /\ (App.generateNumbers
        (Consumers.mkNumbersForm (Consumers.Text (Some 2)) (Consumers.Text (Some 5))
           (Consumers.Text (Some 0))) s).2
     = Consumers.NumRangeError
  /\ (App.generateNumbers
        (Consumers.mkNumbersForm (Consumers.Text (Some 2)) (Consumers.Text (Some 0))
           (Consumers.Text (Some 1))) s).2
     = Consumers.NumGenerated [Some 0; Some 1].
Proof.
  cbn zeta. split; [|split].
  - rewrite (revised_numbers_as_typed
               (Consumers.mkNumbersForm (Consumers.Text (Some 2)) (Consumers.Text None)
                  (Consumers.Text (Some 0)))).
    + reflexivity.
    + apply Forall_seqZ. unfold isByte. lia.
    + vm_compute. lia.
    + intros min Hmin. discriminate Hmin.
    + intros max [= <-]. split; vm_compute; discriminate.
  - rewrite (revised_numbers_as_typed
               (Consumers.mkNumbersForm (Consumers.Text (Some 2))
                  (Consumers.Text (Some 5)) (Consumers.Text (Some 0)))).
    + reflexivity.
    + apply Forall_seqZ. unfold isByte. lia.
    + vm_compute. lia.
    + intros min [= <-]. split; vm_compute; discriminate.
    + intros max [= <-]. split; vm_compute; discriminate.
  - rewrite (revised_numbers_as_typed
               (Consumers.mkNumbersForm (Consumers.Text (Some 2))
                  (Consumers.Text (Some 0)) (Consumers.Text (Some 1)))).
    + vm_compute. reflexivity.
    + apply Forall_seqZ. unfold isByte. lia.
    + vm_compute. lia.
    + intros min [= <-]. split; vm_compute; discriminate.
    + intros max [= <-]. split; vm_compute; discriminate.
Defined.


(** ** Short accumulators, and the validated length *)

Section Accumulators.
Context `{SubtleCrypto}.

(** Whatever the application has been asked to do, the accumulators stay
    short: at most one raw bit is carried, fewer than 8 debiased bits and
    fewer than 1000 bytes wait for their group to fill. *)
Theorem accumulators_stay_short (ops : list App.Op) :
  let r := App.rng (App.run ops App.initial) in
  (length (rawBitBuffer r) <= 1)%nat
  /\ (length (finalBitBuffer r) < 8)%nat
  /\ (length (collectedNumbers r) < 1000)%nat.
Proof.
  cbn zeta.
  destruct (run_tracked ops App.initial initial_tracked) as [tr [Hraw Hfin _ Hcol _ _]].
  split; [done|]. split.
  - rewrite Hfin. by apply leftover_lt.
  - rewrite Hcol. by apply leftover_lt.
Qed.

End Accumulators.

Section ValidatedLength.
Import Consumers.

(** Once [validatePasswordLength] has run on the length field, the length
    that the controller of the standalone page checks against the pool is
    the length of the password that is generated (without it the
    controller reads the field unclamped); the field then holds a number
    from 8 to 64, which validating again leaves alone, and a field that
    already held such a number is not touched. *)
Theorem validated_length_is_used (form : PasswordForm) :
  let el := Standalone.validatePasswordLength (pwLengthEl form) in
  let form' := mkPasswordForm el (chkUpper form) (chkLower form) (chkNums form)
                 (chkSyms form) in
  orElse (parseInt el) 16 = pwLengthOf form'
  /\ 8 <= pwLengthOf form' <= 64
  /\ Standalone.validatePasswordLength el = el
  /\ (forall v, parseInt (pwLengthEl form) = Some v -> 8 <= v <= 64 ->
        el = pwLengthEl form).
Proof.
  cbn zeta. unfold Standalone.validatePasswordLength, pwLengthOf.
  cbn [pwLengthEl].
  destruct (parseInt (pwLengthEl form)) as [value|] eqn:Hparse.
  - destruct (Z.ltb_spec value 8) as [Hlow|Hlow].
    + cbn. repeat split; try lia. intros v [= <-] Hv. lia.
    + destruct (Z.ltb_spec 64 value) as [Hhigh|Hhigh].
      * cbn. repeat split; try lia. intros v [= <-] Hv. lia.
      * rewrite Hparse.
        assert ((value <? 8) = false) as -> by (apply Z.ltb_ge; lia).
        assert ((64 <? value) = false) as -> by (apply Z.ltb_ge; lia).
        unfold orElse. destruct value; try lia; repeat split; try lia; done.
  - cbn. repeat split; try lia. intros v Hv. discriminate.
Qed.

End ValidatedLength.


(** ** What is hashed *)

Lemma utf8_byte b :
  isByte b ->
  Js.utf8 (b mod 2 ^ 16)
  = if b <? 128 then [b] else [192 + b / 64; 128 + b mod 64].
Proof.
  intros Hb.
  pose proof (forall_bytes
    (fun b => match Js.utf8 (b mod 2 ^ 16),
                    (if b <? 128 then [b] else [192 + b / 64; 128 + b mod 64]) with
              | [x], [x'] => x =? x'
              | [x; y], [x'; y'] => (x =? x') && (y =? y')
              | _, _ => false
              end) ltac:(vm_compute; reflexivity) b Hb) as Hcheck.
  cbv beta in Hcheck.
  destruct (Js.utf8 (b mod 2 ^ 16)) as [|x [|y [|z rest]]],
           (b <? 128); try discriminate.
  - apply Z.eqb_eq in Hcheck. by subst.
  - apply andb_true_iff in Hcheck as [Hx Hy].
    apply Z.eqb_eq in Hx, Hy. by subst.
Qed.

Lemma encode_utf8Text batch :
  Forall isByte batch -> Js.encode (Js.fromCharCode batch) = utf8Text batch.
Proof.
  induction 1 as [|b batch Hb _ IH]; [done|].
  unfold Js.encode, Js.fromCharCode, utf8Text in *. cbn [map flat_map].
  by rewrite IH, utf8_byte.
Qed.

Lemma utf8Decode_utf8Text batch :
  Forall isByte batch -> utf8Decode (utf8Text batch) = batch.
Proof.
  induction 1 as [|b batch Hb _ IH]; [done|].
  unfold utf8Text in *. cbn [flat_map]. unfold isByte in Hb.
  destruct (Z.ltb_spec b 128) as [Hlt|Hge].
  - cbn [app utf8Decode].
    assert ((b <? 128) = true) as -> by (apply Z.ltb_lt; lia). by rewrite IH.
  - cbn [app utf8Decode].
    pose proof (Z.div_mod b 64 ltac:(lia)) as Hdm.
    pose proof (Z.mod_pos_bound b 64 ltac:(lia)) as Hm.
    assert (Hq : 0 <= b / 64) by (apply Z.div_pos; lia).
    assert ((192 + b / 64 <? 128) = false) as -> by (apply Z.ltb_ge; lia).
    rewrite IH. f_equal. lia.
Qed.

Lemma groups_Forall {A} (P : A -> Prop) (n : nat) (l : list A) :
  Forall P l -> Forall (Forall P) (groups n l).
Proof.
  intros Hl. unfold groups. apply Forall_forall. intros g Hg.
  apply in_map_iff in Hg as (k & <- & _). by apply Forall_take, Forall_drop.
Qed.

Lemma assembled_bytes (bits : list Z) :
  Forall isBit bits -> Forall isByte (map bitsToUint8 (groups 8 bits)).
Proof.
  intros Hbits. apply Forall_forall. intros v Hv.
  apply in_map_iff in Hv as (g & <- & Hg).
  apply bitsToUint8_byte; [by apply groups_each in Hg|].
  pose proof (groups_Forall isBit 8 bits Hbits) as Hgs.
  rewrite Forall_forall in Hgs. by apply Hgs.
Qed.

Section Hashing.
Context `{SubtleCrypto}.

(** [sha256String] on the text of a batch of bytes hands SHA-256 the
    message [utf8Text] of the batch. *)
Lemma sha256String_digestOf batch :
  Forall isByte batch -> sha256String (Js.fromCharCode batch) = digestOf batch.
Proof.
  intros Hb. unfold sha256String, digestOf. by rewrite encode_utf8Text.
Qed.

Lemma hashed_as_digestOf (batches : list (list Z)) :
  Forall (Forall isByte) batches ->
  map (fun b => (b, sha256String (Js.fromCharCode b))) batches
  = map (fun b => (b, digestOf b)) batches.
Proof.
  induction 1 as [|b batches Hb _ IH]; [done|].
  cbn [map]. by rewrite IH, sha256String_digestOf.
Qed.

(** From empty accumulators the bytes assembled are bytes, and what is
    hashed is the digest of each full group of them. *)
Lemma hashed_batches_from_start (data pool0 : list Z) :
  let call := processSamples data (mkAudioRNG [] [] [] pool0) in
  Forall isByte (assembledBytes call.2)
  /\ hashedBatches call.2
     = map (fun batch => (batch, digestOf batch))
           (groups 1000 (assembledBytes call.2)).
Proof.
  intros call.
  pose proof (Tracks_processSamples data pool0 [] _
                (Tracks_start pool0 [] ltac:(simpl; lia))) as Ht.
  cbn [app] in Ht. destruct Ht as [_ _ Hbytes _ Hhash _].
  fold call in Hbytes, Hhash.
  destruct (processSamples_debiased data (mkAudioRNG [] [] [] pool0)
              ltac:(simpl; lia)) as [Hdeb _].
  fold call in Hdeb.
  assert (Hass : Forall isByte (assembledBytes call.2)).
  { rewrite Hbytes. apply assembled_bytes. rewrite Hdeb. apply vonNeumannSpec_bits. }
  split; [done|]. rewrite Hhash. apply hashed_as_digestOf. by apply groups_Forall.
Qed.

(** C4. Over a whole run from empty accumulators, the batches hashed are
    exactly the successive full groups of 1000 assembled bytes.  Each is
    hashed into a digest of 32 bytes: SHA-256 of the UTF-8 text of exactly
    those 1000 bytes, a message that reads back as the batch.  The bytes
    after the last full group, fewer than 1000, stay in the batch, which
    is empty right after a hash; and the pool is what it was, followed by
    the digests in order.  No batch of another size is ever hashed. *)
Theorem batch_hashing (data pool0 : list Z) :
  let call := processSamples data (mkAudioRNG [] [] [] pool0) in
  hashedBatches call.2
  = map (fun batch => (batch, digest_SHA256 (utf8Text batch)))
        (groups 1000 (assembledBytes call.2))
  /\ Forall (fun bd => length bd.1 = 1000%nat /\ length bd.2 = 32%nat
                       /\ utf8Decode (utf8Text bd.1) = bd.1)
            (hashedBatches call.2)
  /\ collectedNumbers call.1 = leftover 1000 (assembledBytes call.2)
  /\ (length (collectedNumbers call.1) < 1000)%nat
  /\ uintArray call.1 = pool0 ++ concat (map snd (hashedBatches call.2)).
Proof.
  intros call.
  pose proof (Tracks_processSamples data pool0 [] _
                (Tracks_start pool0 [] ltac:(simpl; lia))) as Ht.
  cbn [app] in Ht. destruct Ht as [_ _ _ Hcol _ Hpool].
  fold call in Hcol, Hpool.
  destruct (hashed_batches_from_start data pool0) as [Hass Hhash].
  fold call in Hass, Hhash.
  split; [exact Hhash|]. split; [|split; [done|split; [|done]]].
  - rewrite Hhash. apply Forall_forall. intros [b d] Hin.
    apply in_map_iff in Hin as (g & Heq & Hg).
    inversion Heq; subst. cbn [fst snd].
    split; [by apply groups_each in Hg|]. split; [apply digest_SHA256_length|].
    apply utf8Decode_utf8Text.
    pose proof (groups_Forall isByte 1000 _ Hass) as Hgs.
    rewrite Forall_forall in Hgs. by apply Hgs.
  - rewrite Hcol. apply leftover_lt. lia.
Qed.

(** From the start, the pool is the digests, in order, of the successive
    groups of 1000 bytes assembled from the successive groups of 8 bits that
    the Von Neumann extractor gives on the raw bits of the samples; the
    digest of a group is SHA-256 of its UTF-8 text. *)
Lemma pipeline_end_to_end (data : list Z) :
  uintArray (processSamples data newAudioRNG).1
  = concat (map (fun batch => digest_SHA256 (utf8Text batch))
      (groups 1000 (map bitsToUint8
         (groups 8 (vonNeumannSpec (map rawBit data)))))).
Proof.
  pose proof (Tracks_processSamples data [] [] _
                (Tracks_start [] [] ltac:(simpl; lia))) as Ht.
  cbn [app] in Ht. fold newAudioRNG in Ht.
  destruct Ht as [_ _ Hbytes _ _ Hpool].
  destruct (hashed_batches_from_start data []) as [_ Hhash].
  fold newAudioRNG in Hhash.
  destruct (processSamples_debiased data newAudioRNG ltac:(simpl; lia)) as [Hdeb _].
  cbn [rawBitBuffer newAudioRNG app] in Hdeb.
  rewrite Hpool, Hhash, Hbytes, Hdeb. cbn [app].
  rewrite map_map. cbn [snd]. done.
Qed.

(** When the batch holds 1000 bytes, [hashNumbers] hands SHA-256 the UTF-8
    text of the first 1000 of them, appends the digest to the pool and
    empties the batch.  The text reads back as the batch, so two
    different batches are never hashed as the same message. *)
Theorem hashed_message_determines_batch (r : AudioRNG) (other : list Z) :
  Forall isByte (collectedNumbers r) ->
  (1000 <= length (collectedNumbers r))%nat ->
  let batch := take 1000 (collectedNumbers r) in
  let digest := digest_SHA256 (utf8Text batch) in
  hashNumbers r
  = (mkAudioRNG (rawBitBuffer r) (finalBitBuffer r) [] (uintArray r ++ digest),
     [Hashed batch digest])
  /\ utf8Decode (utf8Text batch) = batch
  /\ (Forall isByte other -> utf8Text other = utf8Text batch -> other = batch).
Proof.
  intros Hbytes Hlen batch digest.
  assert (Hbatch : Forall isByte batch) by (by apply Forall_take).
  split; [|split].
  - unfold hashNumbers.
    destruct (Nat.leb_spec 1000 (length (collectedNumbers r))) as [_|]; [|lia].
    fold batch. by rewrite (sha256String_digestOf batch Hbatch).
  - by apply utf8Decode_utf8Text.
  - intros Hother Heq.
    rewrite <- (utf8Decode_utf8Text other Hother), Heq.
    by apply utf8Decode_utf8Text.
Qed.

End Hashing.

Lemma hashed_message_determines_batch_witness :
  let r := mkAudioRNG [] [] (replicate 1000 200) [] in
  (@hashNumbers sumCrypto r).2
  = [Hashed (replicate 1000 200)
       (@digest_SHA256 sumCrypto (utf8Text (replicate 1000 200)))].
Proof.
  cbn zeta.
  destruct (@hashed_message_determines_batch sumCrypto
              (mkAudioRNG [] [] (replicate 1000 200) []) [])
    as (Hhash & _).
  - cbn [collectedNumbers]. apply Forall_replicate. unfold isByte. lia.
  - cbn [collectedNumbers]. rewrite length_replicate. lia.
  - rewrite Hhash. cbn [snd collectedNumbers].
    rewrite take_ge by (rewrite length_replicate; lia). reflexivity.
Defined.


(** ** The display is up to date *)

Section DisplayUpToDate.
Context `{SubtleCrypto}.

(** What an operation does to the display and the pool: nothing, or it
    leaves the display at the end of the pool, or it clears the display
    and leaves the pool. *)
Lemma exec_display op s :
  keepsWaterfall op = true ->
  DisplayFollows s ->
  let vm := App.visualizationManager s in
  let pool := uintArray (App.rng s) in
  let vm' := App.visualizationManager (App.exec op s) in
  let pool' := uintArray (App.rng (App.exec op s)) in
  (vm' = vm /\ pool' = pool)
  \/ Waterfall.lastBitCount vm' = Z.of_nat (length pool') * 8
  \/ (clearsDisplay op = true /\ Waterfall.lastBitCount vm' = 0 /\ pool' = pool).
Proof.
  intros Hop [Hc _ _ _ _ (shown & Hshown & Hlast & _)]. cbn zeta.
  assert (Hle : Waterfall.lastBitCount (App.visualizationManager s)
                <= Z.of_nat (length (uintArray (App.rng s))) * 8).
  { rewrite Hlast. destruct Hshown as [-> | ->]; simpl; lia. }
  destruct op; try discriminate; cbn [App.exec].
  - unfold App.processSampleStep.
    pose proof (processSample_appends sample (App.rng s)) as Happ.
    destruct (processSample sample (App.rng s)) as [r ev]. cbn [fst snd] in Happ.
    destruct Happ as [[-> Hpool] | [Hev (digest & Hlen & _ & Hpool)]].
    + left. by cbn.
    + destruct (hashedBatches ev) as [|e evs]; [done|].
      right. left. unfold App.afterDigest.
      cbn [App.fileGenerator App.rng App.visualizationManager App.resets].
      destruct (drawBitMatrix_cursor (uintArray r) (App.visualizationManager s) Hc)
        as [Hlast' _].
      { rewrite Hpool, length_app. lia. }
      destruct (Consumers.isGenerating (App.fileGenerator s)); [|by cbn].
      unfold App.updateProgress, App.createFileFromData.
      cbn [App.fileGenerator App.rng App.visualizationManager App.resets].
      repeat case_match; by cbn.
  - right. right. by cbn.
  - left. by cbn.
  - unfold App.generatePassword. repeat case_match; cbn [fst];
      first [by left | right; left; by cbn].
  - unfold App.generateNumbers. repeat case_match; cbn [fst];
      first [by left | right; left; by cbn].
  - unfold App.generateFile, App.createFileFromData. repeat case_match; cbn [fst];
      first [left; by cbn | right; left; by cbn].
  - right. left. by cbn.
  - right. right. by cbn.
Qed.

Lemma run_snoc ops op s : App.run (ops ++ [op]) s = App.exec op (App.run ops s).
Proof. unfold App.run. by rewrite fold_left_app. Qed.

Lemma run_follows_initial ops :
  forallb keepsWaterfall ops = true ->
  Z.of_nat (length ops) < 2 ^ 23 ->
  DisplayFollows (App.run ops App.initial).
Proof.
  intros Hops Hlen. apply run_follows; [done| |apply initial_follows].
  change (Z.of_nat (length (uintArray (App.rng App.initial)))) with 0. lia.
Qed.

Lemma run_up_to_date ops :
  forallb keepsWaterfall ops = true ->
  Z.of_nat (length ops) < 2 ^ 23 ->
  existsb clearsDisplay ops = false ->
  Waterfall.lastBitCount (App.visualizationManager (App.run ops App.initial))
  = Z.of_nat (length (uintArray (App.rng (App.run ops App.initial)))) * 8.
Proof.
  induction ops as [|op ops IH] using rev_ind; intros Hops Hlen Hclear; [done|].
  rewrite forallb_app in Hops. apply andb_true_iff in Hops as [Hops Hop].
  cbn [forallb] in Hop. rewrite andb_true_r in Hop.
  rewrite existsb_app in Hclear. apply orb_false_iff in Hclear as [Hclear Hc].
  cbn [existsb] in Hc. rewrite orb_false_r in Hc.
  rewrite length_app in Hlen. cbn [length] in Hlen.
  specialize (IH Hops ltac:(lia) Hclear).
  rewrite run_snoc.
  destruct (exec_display op (App.run ops App.initial) Hop
              (run_follows_initial ops Hops ltac:(lia)))
    as [[-> ->] | [Hup | (Hcl & _)]]; [done | done | congruence].
Qed.

(** Whatever the application has been asked to do (short of turning the
    waterfall around in mid-stream or switching to the grid mode), its
    waterfall shows the whole pool, or nothing, and never anything else.
    It shows the whole pool after every operation that changed the pool,
    after every operation other than a clearing of the display on a
    display that showed the whole pool, and in every state reached
    without clearing the display: only [start] and [setMatrixSize] leave
    it blank in front of a pool, until the next digest.  What it shows is
    laid out in rows of [matrixWidth] bits, the latest [matrixHeight]
    whole rows on the canvas, the unfinished row in the accumulator. *)
Theorem display_shows_whole_pool_or_nothing (ops : list App.Op) (op : App.Op) :
  forallb keepsWaterfall (ops ++ [op]) = true ->
  Z.of_nat (length (ops ++ [op])) < 2 ^ 23 ->
  let s := App.run ops App.initial in
  let s' := App.exec op s in
  let pool := uintArray (App.rng s) in
  let pool' := uintArray (App.rng s') in
  let vm' := App.visualizationManager s' in
  let w := Z.to_nat (Waterfall.matrixWidth vm') in
  exists shown,
    (shown = [] \/ shown = pool')
    /\ (pool' <> pool -> shown = pool')
    /\ (clearsDisplay op = false ->
        Waterfall.lastBitCount (App.visualizationManager s)
        = Z.of_nat (length pool) * 8 ->
        shown = pool')
    /\ (existsb clearsDisplay (ops ++ [op]) = false -> shown = pool')
    /\ (clearsDisplay op = true -> pool <> [] -> shown = [] /\ pool' = pool)
    /\ Waterfall.lastBitCount vm' = Z.of_nat (length shown) * 8
    /\ Waterfall.rowAccumulator vm' = leftover w (Grid.uint8ArrayToBits shown)
    /\ Waterfall.offscreen vm'
       = waterfallPicture (Waterfall.newestOnTop vm')
           (Z.to_nat (Waterfall.matrixHeight vm'))
           (replicate w Waterfall.white)
           (map (Waterfall.rowPixels vm') (groups w (Grid.uint8ArrayToBits shown))).
Proof.
  intros Hall Hlen. cbn zeta.
  pose proof Hall as Hops. rewrite forallb_app in Hops.
  apply andb_true_iff in Hops as [Hops Hop].
  cbn [forallb] in Hop. rewrite andb_true_r in Hop.
  pose proof Hlen as Hlen'. rewrite length_app in Hlen'. cbn [length] in Hlen'.
  pose proof (run_follows_initial ops Hops ltac:(lia)) as Hs.
  pose proof (run_follows_initial (ops ++ [op]) Hall Hlen) as Hs'.
  rewrite run_snoc in Hs'.
  pose proof (exec_display op _ Hop Hs) as Hstep. cbn zeta in Hstep.
  pose proof (run_up_to_date (ops ++ [op]) Hall Hlen) as Hrun.
  rewrite run_snoc in Hrun.
  destruct Hs' as [_ _ _ _ _ (shown & Hshown & Hlast & Hshows)].
  assert (Hwhole : Waterfall.lastBitCount
                     (App.visualizationManager (App.exec op (App.run ops App.initial)))
                   = Z.of_nat (length (uintArray
                       (App.rng (App.exec op (App.run ops App.initial))))) * 8 ->
                   shown = uintArray (App.rng (App.exec op (App.run ops App.initial)))).
  { intros Hup. destruct Hshown as [-> | ->]; [|done].
    rewrite Hup in Hlast. cbn [length] in Hlast.
    destruct (uintArray (App.rng (App.exec op (App.run ops App.initial))));
      [done | simpl in Hlast; lia]. }
  exists shown. split; [done|].
  split; [|split; [|split; [|split; [|split; [done | by destruct Hshows]]]]].
  - intros Hchanged. apply Hwhole.
    destruct Hstep as [[_ Hsame] | [Hup | (_ & _ & Hsame)]]; [done | done | done].
  - intros Hnot Hup. apply Hwhole.
    destruct Hstep as [[-> ->] | [Hup' | (Hcl & _)]]; [done | done | congruence].
  - intros Hnone. apply Hwhole. by apply Hrun.
  - intros Hcl Hne.
    assert (Hstart : Waterfall.lastBitCount
                       (App.visualizationManager (App.exec op (App.run ops App.initial)))
                     = 0
                     /\ uintArray (App.rng (App.exec op (App.run ops App.initial)))
                        = uintArray (App.rng (App.run ops App.initial))).
    { destruct op; try discriminate; by cbn. }
    destruct Hstart as [Hzero Hsame]. split; [|done].
    rewrite Hzero in Hlast. destruct shown; [done | simpl in Hlast; lia].
Qed.

End DisplayUpToDate.

Lemma display_shows_whole_pool_or_nothing_witness :
  let samples :=
    concat (replicate 999 [0; 1; 0; 1; 0; 1; 0; 1; 0; 1; 0; 1; 0; 1; 0; 1])
    ++ [0; 1; 0; 1; 0; 1; 0; 1; 0; 1; 0; 1; 0; 1; 0] in
  let s := @App.run sumCrypto (map App.Sample samples) App.initial in
  let s' := @App.exec sumCrypto (App.Sample 1) s in
  uintArray (App.rng s) = []
  /\ uintArray (App.rng s') = replicate 32 0
  /\ Waterfall.lastBitCount (App.visualizationManager s') = 256
  /\ Waterfall.rowAccumulator (App.visualizationManager s')
     = leftover 200 (Grid.uint8ArrayToBits (replicate 32 0)).
Proof.
  cbn zeta.
  assert (Hpool : uintArray (App.rng (@App.run sumCrypto (map App.Sample
            (concat (replicate 999 [0; 1; 0; 1; 0; 1; 0; 1; 0; 1; 0; 1; 0; 1; 0; 1])
             ++ [0; 1; 0; 1; 0; 1; 0; 1; 0; 1; 0; 1; 0; 1; 0])) App.initial)) = [])
    by (vm_compute; reflexivity).
  assert (Hpool' : uintArray (App.rng (@App.exec sumCrypto (App.Sample 1)
            (@App.run sumCrypto (map App.Sample
            (concat (replicate 999 [0; 1; 0; 1; 0; 1; 0; 1; 0; 1; 0; 1; 0; 1; 0; 1])
             ++ [0; 1; 0; 1; 0; 1; 0; 1; 0; 1; 0; 1; 0; 1; 0])) App.initial)))
          = replicate 32 0)
    by (vm_compute; reflexivity).
  destruct (@display_shows_whole_pool_or_nothing sumCrypto
              (map App.Sample
                 (concat (replicate 999 [0; 1; 0; 1; 0; 1; 0; 1; 0; 1; 0; 1; 0; 1; 0; 1])
                  ++ [0; 1; 0; 1; 0; 1; 0; 1; 0; 1; 0; 1; 0; 1; 0]))
              (App.Sample 1))
    as (shown & _ & Hchanged & _ & _ & _ & Hlast & Hacc & _).
  - vm_compute. reflexivity.
  - vm_compute. reflexivity.
  - rewrite Hpool, Hpool' in Hchanged.
    specialize (Hchanged ltac:(discriminate)). subst shown.
    split; [exact Hpool|]. split; [exact Hpool'|]. split.
    + rewrite Hlast. reflexivity.
    + rewrite Hacc. f_equal.
Defined.
